(** * extmark-manager: the reconciliation engine of [components/data-handler.js]

    A shallow embedding of the two merge functions ([mergeBookmarkTrees],
    [mergeExtensionLists]), of the backup change summary ([diffById]) and of
    the Netscape bookmark export ([bookmarksToHtml]), with the properties the
    specification states about them.  The functions around them are embedded
    as well, with properties read off the code: [addBrowserToBookmarkNodes],
    [flattenBookmarks], [filterBookmarkNodes], [removeExtensionFromList],
    [DETECTED_BROWSER], the two exports to a bookmark file, and [getStoreUrl]
    of [components/bookmark-display.js].

    Conventions of the embedding:
    - a JavaScript primitive is a [prim]; numbers are integers ([Z]);
    - a flat JavaScript object (an extension record) is an association list
      from property names to primitives, in property insertion order;
      property names are ordinary names (no array-index keys, no [__proto__]);
    - a JavaScript array is a [list]; [finalResult[i] = x] is stdpp's
      [<[i:=x]>], [arr.push(x)] is [arr ++ [x]];
    - a JavaScript [Map] is a [gmap];
    - built-ins that go by Unicode tables ([toLowerCase],
      [encodeURIComponent]) are parameters of the functions that call
      them. *)

From Stdlib Require Import ZArith Ascii.
From stdpp Require Import base decidable option list list_misc numbers
  strings countable gmap sets pretty.

#[local] Set Warnings "-clear-no-such-hyp".


(** ** JavaScript values *)

Module JS.

Inductive prim : Type :=
| PUndef
| PNull
| PBool (b : bool)
| PNum (n : Z)
| PStr (s : string).

#[global] Instance prim_eq_dec : EqDecision prim.
Proof. solve_decision. Defined.

Definition prim_encode (p : prim) : unit + (unit + (bool + (Z + string))) :=
  match p with
  | PUndef => inl ()
  | PNull => inr (inl ())
  | PBool b => inr (inr (inl b))
  | PNum n => inr (inr (inr (inl n)))
  | PStr s => inr (inr (inr (inr s)))
  end.

Definition prim_decode (x : unit + (unit + (bool + (Z + string)))) : prim :=
  match x with
  | inl _ => PUndef
  | inr (inl _) => PNull
  | inr (inr (inl b)) => PBool b
  | inr (inr (inr (inl n))) => PNum n
  | inr (inr (inr (inr s))) => PStr s
  end.

#[global] Instance prim_countable : Countable prim.
Proof.
  apply (inj_countable' prim_encode prim_decode).
  by intros [].
Defined.

(** [ToBoolean]: what [if (v)], [v && ...], [v || ...] and [!v] test. *)
Definition truthy (v : prim) : bool :=
  match v with
  | PUndef | PNull => false
  | PBool b => b
  | PNum n => negb (n =? 0)%Z
  | PStr s => negb (String.eqb s "")
  end.

(** [a === b] on primitives. *)
Definition strictEq (a b : prim) : bool := bool_decide (a = b).

(** [a || b]. *)
Definition jsOr (a b : prim) : prim := if truthy a then a else b.

(** A flat object. *)
Definition obj : Type := list (string * prim).

(** [o[k]]: the property's value, [undefined] when there is none. *)
Fixpoint getField (o : obj) (k : string) : prim :=
  match o with
  | [] => PUndef
  | (k', v) :: o' => if String.eqb k' k then v else getField o' k
  end.

(** [o[k] = v]: overwrite in place, or add as the last property. *)
Fixpoint setField (k : string) (v : prim) (o : obj) : obj :=
  match o with
  | [] => [(k, v)]
  | (k', v') :: o' =>
      if String.eqb k' k then (k', v) :: o' else (k', v') :: setField k v o'
  end.

(** The own enumerable property names, as [for (const key in o)] with the
    [hasOwnProperty] test visits them. *)
Definition keys (o : obj) : list string := map fst o.

(** [JSON.parse(JSON.stringify(o))] on a flat object: properties whose value
    is [undefined] are dropped, everything else is copied. *)
Definition jsonClone (o : obj) : obj :=
  filter (λ kv, kv.2 ≠ PUndef) o.

(** A value passed where the code expects an array of [A]: a primitive
    ([undefined] included), a plain object, or an array. *)
Inductive jsarg (A : Type) : Type :=
| JPrim (p : prim)
| JObject (o : obj)
| JArray (l : list A).
Arguments JPrim {A} p.
Arguments JObject {A} o.
Arguments JArray {A} l.

(** A default parameter [x = []] replaces [undefined], and only that. *)
Definition defaultEmpty {A} (x : jsarg A) : jsarg A :=
  match x with
  | JPrim PUndef => JArray []
  | _ => x
  end.

(** [Array.isArray(x) ? x : []]. *)
Definition arrayOrEmpty {A} (x : jsarg A) : list A :=
  match x with
  | JArray l => l
  | _ => []
  end.

End JS.
Export JS.

(** ** The record reconciler: [mergeExtensionLists] *)

Module Records.

(** An element of an input array: a primitive or an extension record. *)
Inductive elem : Type :=
| EPrim (p : prim)
| EObj (o : obj).

(** [listA.filter(e => e && typeof e === 'object')]: among the elements
    modelled, exactly the records pass. *)
Definition objectsOf (l : list elem) : list obj :=
  omap (λ e, match e with EObj o => Some o | EPrim _ => None end) l.

(** The loop state: [finalResult], [idToIndexMap], [urlToIndexMap]. *)
Record state : Type := State {
  finalResult : list obj;
  idToIndexMap : gmap prim nat;
  urlToIndexMap : gmap prim nat;
}.

Definition init : state := State [] ∅ ∅.

(** [v && v !== ""]. *)
Definition nonEmpty (v : prim) : bool := truthy v && negb (strictEq v (PStr "")).

(** [v !== undefined && v !== null]. *)
Definition given (v : prim) : bool :=
  negb (strictEq v PUndef) && negb (strictEq v PNull).

Definition special : list string := ["id"; "name"; "homepageUrl"; "updateUrl"].

(** Lines 564-585: the merged record, from the base side and the preferred
    side. *)
Definition mergeFields (baseExt preferredExt : obj) : obj :=
  let m0 := baseExt in
  let m1 := setField "id" (jsOr (getField preferredExt "id") (getField baseExt "id")) m0 in
  let m2 := setField "name"
              (if given (getField preferredExt "name")
               then getField preferredExt "name" else getField baseExt "name") m1 in
  let m3 := setField "homepageUrl"
              (if given (getField preferredExt "homepageUrl")
                  && negb (strictEq (getField preferredExt "homepageUrl") (PStr ""))
               then getField preferredExt "homepageUrl"
               else getField baseExt "homepageUrl") m2 in
  let m4 := setField "updateUrl"
              (if given (getField preferredExt "updateUrl")
               then getField preferredExt "updateUrl" else getField baseExt "updateUrl") m3 in
  let m5 := fold_left (λ m key,
              if bool_decide (key ∈ special) then m
              else if strictEq (getField preferredExt key) PUndef then m
              else setField key (getField preferredExt key) m)
              (keys preferredExt) m4 in
  fold_left (λ m key,
    if strictEq (getField m key) PUndef && negb (strictEq (getField baseExt key) PUndef)
    then setField key (getField baseExt key) m
    else m)
    (keys baseExt) m5.

(** Lines 590-606: re-registration of the id after a merge into slot
    [matchedIndex]. *)
Definition updateIdMap (oldId newId : prim) (matchedIndex : nat)
    (idMap : gmap prim nat) : gmap prim nat :=
  let idMap1 :=
    if negb (strictEq oldId newId)
       || (truthy newId && negb (bool_decide (idMap !! newId = Some matchedIndex)))
    then
      let d := if truthy oldId && bool_decide (idMap !! oldId = Some matchedIndex)
               then delete oldId idMap else idMap in
      if truthy newId then <[newId := matchedIndex]> d else d
    else idMap in
  (* lines 622-624 *)
  if negb (truthy oldId) && truthy newId
     && negb (bool_decide (idMap1 !! newId = Some matchedIndex))
  then <[newId := matchedIndex]> idMap1 else idMap1.

(** Lines 608-619 and 626-628: the same for the homepage URL. *)
Definition updateUrlMap (oldUrl newUrl : prim) (matchedIndex : nat)
    (urlMap : gmap prim nat) : gmap prim nat :=
  let urlMap1 :=
    if negb (strictEq oldUrl newUrl)
       || (nonEmpty newUrl && negb (bool_decide (urlMap !! newUrl = Some matchedIndex)))
    then
      let d := if nonEmpty oldUrl && bool_decide (urlMap !! oldUrl = Some matchedIndex)
               then delete oldUrl urlMap else urlMap in
      if nonEmpty newUrl then <[newUrl := matchedIndex]> d else d
    else urlMap in
  if (negb (truthy oldUrl) || strictEq oldUrl (PStr "")) && nonEmpty newUrl
     && negb (bool_decide (urlMap1 !! newUrl = Some matchedIndex))
  then <[newUrl := matchedIndex]> urlMap1 else urlMap1.

(** Lines 539-540: the two index lookups for the copied record. *)
Definition existingIdIndex (s : state) (currentExtCopy : obj) : option nat :=
  if truthy (getField currentExtCopy "id")
  then idToIndexMap s !! getField currentExtCopy "id" else None.

Definition existingUrlIndex (s : state) (currentExtCopy : obj) : option nat :=
  if nonEmpty (getField currentExtCopy "homepageUrl")
  then urlToIndexMap s !! getField currentExtCopy "homepageUrl" else None.

(** Lines 545-553: the slot a record is matched to, by id first, by homepage
    URL when the id finds nothing. *)
Definition matchIndex (s : state) (currentExtCopy : obj) : option nat :=
  match existingIdIndex s currentExtCopy with
  | Some i => Some i
  | None => existingUrlIndex s currentExtCopy
  end.

(** Lines 631-640: a record that matched nothing gets a new slot. *)
Definition pushNew (s : state) (currentExtCopy : obj) : state :=
  let newIndex := length (finalResult s) in
  State (finalResult s ++ [currentExtCopy])
        (if truthy (getField currentExtCopy "id")
         then <[getField currentExtCopy "id" := newIndex]> (idToIndexMap s)
         else idToIndexMap s)
        (if nonEmpty (getField currentExtCopy "homepageUrl")
         then <[getField currentExtCopy "homepageUrl" := newIndex]> (urlToIndexMap s)
         else urlToIndexMap s).

(** Lines 555-629: a record that matched slot [matchedIndex], holding
    [targetExtRef]. *)
Definition mergeInto (isFromListB : bool) (s : state) (matchedIndex : nat)
    (targetExtRef currentExtCopy : obj) : state :=
  let oldId := getField targetExtRef "id" in
  let oldUrl := getField targetExtRef "homepageUrl" in
  let baseExt := if isFromListB then targetExtRef else currentExtCopy in
  let preferredExt := if isFromListB then currentExtCopy else targetExtRef in
  let mergedExt := mergeFields baseExt preferredExt in
  State (<[matchedIndex := mergedExt]> (finalResult s))
        (updateIdMap oldId (getField mergedExt "id") matchedIndex (idToIndexMap s))
        (updateUrlMap oldUrl (getField mergedExt "homepageUrl") matchedIndex
           (urlToIndexMap s)).

(** One iteration of the [forEach] body. *)
Definition step (isFromListB : bool) (s : state) (currentExt : obj) : state :=
  let currentExtCopy := jsonClone currentExt in
  match matchIndex s currentExtCopy with
  | Some matchedIndex =>
      match finalResult s !! matchedIndex with
      | Some targetExtRef => mergeInto isFromListB s matchedIndex targetExtRef currentExtCopy
      | None => pushNew s currentExtCopy
      end
  | None => pushNew s currentExtCopy
  end.

(** The whole pass over [[...L_A, ...L_B]]: an element is from list B when its
    index is at least [L_A.length]. *)
Definition run (L_A L_B : list obj) : state :=
  fold_left (step true) L_B (fold_left (step false) L_A init).

Definition mergeExtensionLists (listA listB : jsarg elem) : list obj :=
  let L_A := objectsOf (arrayOrEmpty (defaultEmpty listA)) in
  let L_B := objectsOf (arrayOrEmpty (defaultEmpty listB)) in
  finalResult (run L_A L_B).

(** The reconciler on two well-formed record lists. *)
Definition mergeRecords (base incoming : list obj) : list obj :=
  mergeExtensionLists (JArray (EObj <$> base)) (JArray (EObj <$> incoming)).

(** *** What the specification says of the output *)

Definition recId (r : obj) : prim := getField r "id".
Definition recUrl (r : obj) : prim := getField r "homepageUrl".

(** No two records share a non-empty id. *)
Definition uniqueIds (l : list obj) : Prop :=
  ∀ i j ri rj, l !! i = Some ri → l !! j = Some rj →
    truthy (recId ri) = true → recId ri = recId rj → i = j.

(** No two records that do not share an id carry the same non-empty
    homepage URL. *)
Definition uniqueUrls (l : list obj) : Prop :=
  ∀ i j ri rj, l !! i = Some ri → l !! j = Some rj → i ≠ j →
    ¬ (truthy (recId ri) = true ∧ recId ri = recId rj) →
    nonEmpty (recUrl ri) = true → recUrl ri ≠ recUrl rj.

(** The record being processed finds one slot under its id and a different
    slot under its homepage URL. *)
Definition crossMatch (s : state) (currentExtCopy : obj) : bool :=
  match existingIdIndex s currentExtCopy, existingUrlIndex s currentExtCopy with
  | Some i, Some j => negb (i =? j)%nat
  | _, _ => false
  end.

Fixpoint crossFree (isFromListB : bool) (s : state) (l : list obj) : bool :=
  match l with
  | [] => true
  | currentExt :: l' =>
      negb (crossMatch s (jsonClone currentExt))
      && crossFree isFromListB (step isFromListB s currentExt) l'
  end.

(** No record of the pass over [[...L_A, ...L_B]] is cross-matched. *)
Definition noCrossMatch (listA listB : jsarg elem) : bool :=
  let L_A := objectsOf (arrayOrEmpty (defaultEmpty listA)) in
  let L_B := objectsOf (arrayOrEmpty (defaultEmpty listB)) in
  crossFree false init L_A && crossFree true (fold_left (step false) L_A init) L_B.

(** The index maps describe the result list: a key is indexed to a slot only
    when the slot's record carries it, and every record with an id is found
    under it. *)
Record indexed (s : state) : Prop := Indexed {
  id_sound : ∀ X i, idToIndexMap s !! X = Some i →
    ∃ r, finalResult s !! i = Some r ∧ recId r = X ∧ truthy X = true;
  id_complete : ∀ i r, finalResult s !! i = Some r →
    truthy (recId r) = true → idToIndexMap s !! recId r = Some i;
  url_sound : ∀ U i, urlToIndexMap s !! U = Some i →
    ∃ r, finalResult s !! i = Some r ∧ recUrl r = U ∧ nonEmpty U = true;
}.

(** Every record with a homepage URL is found under it. *)
Definition urlComplete (s : state) : Prop :=
  ∀ i r, finalResult s !! i = Some r →
    nonEmpty (recUrl r) = true → urlToIndexMap s !! recUrl r = Some i.

(** What the four named fields and every other field of the merged record
    read as. *)
Definition mergedValue (baseExt preferredExt : obj) (k : string) : prim :=
  if decide (k = "id") then
    jsOr (getField preferredExt "id") (getField baseExt "id")
  else if decide (k = "name") then
    if given (getField preferredExt "name")
    then getField preferredExt "name" else getField baseExt "name"
  else if decide (k = "homepageUrl") then
    if given (getField preferredExt "homepageUrl")
       && negb (strictEq (getField preferredExt "homepageUrl") (PStr ""))
    then getField preferredExt "homepageUrl" else getField baseExt "homepageUrl"
  else if decide (k = "updateUrl") then
    if given (getField preferredExt "updateUrl")
    then getField preferredExt "updateUrl" else getField baseExt "updateUrl"
  else
    if strictEq (getField preferredExt k) PUndef
    then getField baseExt k else getField preferredExt k.

(** The precedence rule as the specification words it for [name] and
    [updateUrl]: the preferred side's value when present and non-empty, else
    the base's. *)
Definition presentNonEmptyRule (baseExt preferredExt : obj) (k : string) : prim :=
  if nonEmpty (getField preferredExt k)
  then getField preferredExt k else getField baseExt k.

End Records.

(** ** The tree reconciler: [mergeBookmarkTrees] *)

Module Bookmarks.

(** A bookmark node as the browser and the snapshot files hold it: [title]
    and [url] are strings when present, [dateAdded] a number, [children] an
    array; [other] holds the remaining properties ([parentId], [index],
    [browser], ...).  [JSON.parse(JSON.stringify(n))] yields an equal value,
    so the copies the code takes do not show in this value model (they do in
    the store model of [Store] below). *)
#[local] Unset Elimination Schemes.
Inductive node : Type := Node {
  nodeId : option string;
  title : option string;
  url : option string;
  dateAdded : option Z;
  children : option (list node);
  other : obj;
}.
#[local] Set Elimination Schemes.

Definition withChildren (n : node) (c : option (list node)) : node :=
  Node (nodeId n) (title n) (url n) (dateAdded n) c (other n).

Definition withTitle (n : node) (t : option string) : node :=
  Node (nodeId n) t (url n) (dateAdded n) (children n) (other n).

(** Truthiness of an optional string property. *)
Definition present (s : option string) : bool :=
  match s with
  | Some s => negb (String.eqb s "")
  | None => false
  end.

(** [target.some(t => t.url && node.url && t.url === node.url
                     && t.title === node.title)]. *)
Definition isDuplicateBookmark (target : list node) (node : node) : bool :=
  existsb (λ t, present (url t) && present (url node)
                && bool_decide (url t = url node)
                && bool_decide (title t = title node)) target.

(** The predicate of [target.find]: [t.children && t.title === title]. *)
Definition folderTitled (t : option string) (n : node) : Prop :=
  is_Some (children n) ∧ title n = t.

#[global] Instance folderTitled_dec t n : Decision (folderTitled t n).
Proof. unfold folderTitled. apply _. Defined.

Definition bookmarksBar : option string := Some "Bookmarks Bar".

(** One iteration of the loop of [mergeNodes], for the node [srcNode]; the
    inner [fix] is the recursive call
    [mergeNodes(existingFolderInTarget.children, srcNodeCopy.children)]. *)
Fixpoint mergeNode (srcNode : node) (target : list node) {struct srcNode} : list node :=
  match srcNode with
  | Node _ _ _ _ (Some srcChildren) _ =>
      match list_find (folderTitled (title srcNode)) target with
      | Some (i, existingFolderInTarget) =>
          if decide (title srcNode = bookmarksBar) then
            <[i := withChildren existingFolderInTarget (Some srcChildren)]> target
          else
            let mergedChildren :=
              (fix mergeNodes (source target : list node) {struct source} : list node :=
                 match source with
                 | [] => target
                 | s :: source' => mergeNodes source' (mergeNode s target)
                 end) srcChildren (default [] (children existingFolderInTarget)) in
            <[i := withChildren (withTitle existingFolderInTarget (title srcNode))
                     (Some mergedChildren)]> target
      | None => target ++ [srcNode]
      end
  | Node _ _ _ _ None _ =>
      if isDuplicateBookmark target srcNode then target else target ++ [srcNode]
  end.

(** [mergeNodes(target, source)]; the array [target] is updated in place by
    the code, the updated array is the result here. *)
Definition mergeNodes (target source : list node) : list node :=
  fold_left (λ tg s, mergeNode s tg) source target.

(** What the returned array can hold: nodes, and the one-character strings a
    string argument is iterated into. *)
Inductive item : Type :=
| INode (n : node)
| IChar (c : string).

(** A call either raises a [TypeError] or returns a value. *)
Inductive outcome : Type :=
| Threw
| Returned (v : jsarg item).

(** The characters [for (const srcNode of "...")] visits. *)
Fixpoint chars (s : string) : list string :=
  match s with
  | EmptyString => []
  | String a s' => String a "" :: chars s'
  end.

(** [JSON.parse(JSON.stringify(listA))]. *)
Definition cloneArg (x : jsarg node) : jsarg item :=
  match x with
  | JPrim p => JPrim p
  | JObject o => JObject (jsonClone o)
  | JArray l => JArray (INode <$> l)
  end.

(** [mergeBookmarkTrees(listA = [], listB = [])].  There is no array test:
    a [listB] that is not iterable makes [for ... of] raise, and the first
    node merged into a [merged] that is not an array raises at
    [target.find] or [target.some].  A string is iterable; its characters
    have neither [children] nor [url] and are pushed one by one. *)
Definition mergeBookmarkTrees (listA listB : jsarg node) : outcome :=
  let merged := defaultEmpty listA in
  match defaultEmpty listB with
  | JArray source =>
      match merged with
      | JArray target => Returned (JArray (INode <$> mergeNodes target source))
      | _ => match source with
             | [] => Returned (cloneArg merged)
             | _ :: _ => Threw
             end
      end
  | JPrim (PStr s) =>
      match merged with
      | JArray target => Returned (JArray ((INode <$> target) ++ (IChar <$> chars s)))
      | _ => match chars s with
             | [] => Returned (cloneArg merged)
             | _ :: _ => Threw
             end
      end
  | JPrim _ | JObject _ => Threw
  end.

(** The reconciler on two well-formed forests. *)
Definition mergeTrees (base incoming : list node) : list node :=
  mergeNodes base incoming.

(** *** What the specification says of the output *)

(** The children of the incoming folders titled [t], in order: what is merged
    into the folder of that title. *)
Definition incomingChildren (t : option string) (incoming : list node) : list node :=
  mjoin (omap (λ n, if decide (title n = t) then children n else None) incoming).

(** [preserved incoming b r]: the result node [r] is the base node [b] with
    every field but [children] intact; its children are either replaced by
    those of an incoming folder titled 'Bookmarks Bar' (when [b] is so
    titled), or are [b]'s children, each preserved in turn and in order,
    followed by appended nodes. *)
#[local] Unset Elimination Schemes.
Inductive preserved : list node → node → node → Prop :=
| preserved_same incoming n :
    preserved incoming n n
| preserved_bar incoming b src srcChildren :
    folderTitled bookmarksBar b →
    src ∈ incoming → folderTitled bookmarksBar src →
    children src = Some srcChildren →
    preserved incoming b (withChildren b (Some srcChildren))
| preserved_merged incoming b baseChildren kept extra :
    title b ≠ bookmarksBar →
    children b = Some baseChildren →
    Forall2 (preserved (incomingChildren (title b) incoming)) baseChildren kept →
    preserved incoming b (withChildren b (Some (kept ++ extra))).
#[local] Set Elimination Schemes.

Definition forestPreserved (incoming base result : list node) : Prop :=
  ∃ kept extra, result = kept ++ extra ∧ Forall2 (preserved incoming) base kept.

(** The titles of the folders of a sibling list. *)
Definition folderTitles (l : list node) : list (option string) :=
  omap (λ n, match children n with Some _ => Some (title n) | None => None end) l.

(** A forest that merging with itself leaves alone: sibling folders have
    distinct titles, a node without children has a non-empty [url], and so
    on below every folder not titled 'Bookmarks Bar'. *)
Fixpoint selfStableNode (n : node) : Prop :=
  match n with
  | Node _ _ u _ None _ => present u = true
  | Node _ t _ _ (Some c) _ =>
      t = bookmarksBar
      ∨ (NoDup (folderTitles c)
         ∧ (fix all (l : list node) : Prop :=
              match l with
              | [] => True
              | x :: l' => selfStableNode x ∧ all l'
              end) c)
  end.

Definition selfStable (forest : list node) : Prop :=
  NoDup (folderTitles forest) ∧ Forall selfStableNode forest.

(** A node without children carrying a given non-empty [url] and [title]. *)
Definition leafWithKey (u t : option string) (n : node) : Prop :=
  children n = None ∧ url n = u ∧ title n = t.

#[global] Instance leafWithKey_dec u t n : Decision (leafWithKey u t n).
Proof. unfold leafWithKey. apply _. Defined.

Definition countLeaves (u t : option string) (l : list node) : nat :=
  length (filter (leafWithKey u t) l).

Definition countFolders (t : option string) (l : list node) : nat :=
  length (filter (folderTitled t) l).

(** [atPath P path l]: below the sibling list [l], through folders titled
    as [path] says, one inside the other, there is a node that satisfies
    [P]; with the empty path the node is in [l] itself. *)
Fixpoint atPath (P : node → Prop) (path : list (option string)) (l : list node)
    : Prop :=
  match path with
  | [] => ∃ x, x ∈ l ∧ P x
  | t :: path' =>
      ∃ folder c, folder ∈ l ∧ title folder = t ∧ children folder = Some c
                  ∧ atPath P path' c
  end.

End Bookmarks.

(** ** The Netscape bookmark export: [bookmarksToHtml] *)

Module Html.

Import Bookmarks.

Definition newline : string := String "010"%char "".
Definition quote : string := String "034"%char "".

(** [s.replace(/c/g, rep)] for a one-character pattern. *)
Fixpoint replaceAll (c : ascii) (rep : string) (s : string) : string :=
  match s with
  | EmptyString => EmptyString
  | String a s' =>
      if Ascii.eqb a c then rep +:+ replaceAll c rep s'
      else String a (replaceAll c rep s')
  end.

(** [title.replace(/&/g, "&amp;").replace(/</g, "&lt;").replace(/>/g, "&gt;")]. *)
Definition escapeTitle (title : string) : string :=
  replaceAll ">"%char "&gt;"
    (replaceAll "<"%char "&lt;" (replaceAll "&"%char "&amp;" title)).

(** ['  '.repeat(depth)]. *)
Fixpoint indentOf (depth : nat) : string :=
  match depth with
  | O => ""
  | S d => "  " +:+ indentOf d
  end.

(** [node.dateAdded ? Math.floor(node.dateAdded / 1000)
                    : Math.floor(Date.now() / 1000)]; [now] is [Date.now()]. *)
Definition addDateOf (now : Z) (dateAdded : option Z) : Z :=
  match dateAdded with
  | Some d => if (d =? 0)%Z then (now / 1000)%Z else (d / 1000)%Z
  | None => (now / 1000)%Z
  end.

(** The time values of a JavaScript [Date]: the integers of at most
    8.64e15 in absolute value, which [Date.now()] and the [dateAdded] of a
    browser bookmark are.  Such a number is below 2^53, its quotient by 1000
    is below 2^43, where doubles are less than 0.0005 apart, so that the
    rounded quotient has the floor of the exact one; and the template literal
    prints an integer of that size in plain decimal digits.  On these
    numbers [addDateOf] and [pretty] are what the code computes. *)
Definition timeValue (z : Z) : Prop :=
  (-8640000000000000 ≤ z ≤ 8640000000000000)%Z.

(** A node whose [dateAdded], when it has one, is a time value. *)
Definition datedInRange (n : node) : Prop :=
  from_option timeValue True (dateAdded n).

(** [lines.join('\n')]. *)
Fixpoint join (sep : string) (lines : list string) : string :=
  match lines with
  | [] => ""
  | [l] => l
  | l :: ls => l +:+ sep +:+ join sep ls
  end.

Definition bookmarkLine (indent url : string) (addDate : Z) (title : string) : string :=
  indent +:+ "<DT><A HREF=" +:+ quote +:+ url +:+ quote
    +:+ " ADD_DATE=" +:+ quote +:+ pretty addDate +:+ quote +:+ ">"
    +:+ title +:+ "</A>".

Definition folderBlock (indent : string) (addDate : Z) (title inner : string) : string :=
  indent +:+ "<DT><H3 ADD_DATE=" +:+ quote +:+ pretty addDate +:+ quote +:+ ">"
    +:+ title +:+ "</H3>" +:+ newline
    +:+ indent +:+ "<DL><p>" +:+ newline
    +:+ inner +:+ newline
    +:+ indent +:+ "</DL><p>".

(** The callback of [nodes.map] in [bookmarksToHtml(nodes, depth)]. *)
Fixpoint nodeToHtml (now : Z) (depth : nat) (node : node) {struct node} : string :=
  match node with
  | Node _ t u d c _ =>
      let indent := indentOf depth in
      if present u then
        let title := if present t then escapeTitle (default "" t) else "Bookmark" in
        bookmarkLine indent (default "" u) (addDateOf now d) title
      else
        match c with
        | Some nodes =>
            if present t then
              folderBlock indent (addDateOf now d) (escapeTitle (default "" t))
                (join newline (map (nodeToHtml now (S depth)) nodes))
            else ""
        | None => ""
        end
  end.

Definition bookmarksToHtml (now : Z) (nodes : list node) (depth : nat) : string :=
  join newline (map (nodeToHtml now depth) nodes).

(** The entity one character of a title is written as. *)
Definition entityOf (a : ascii) : string :=
  if Ascii.eqb a "&"%char then "&amp;"
  else if Ascii.eqb a "<"%char then "&lt;"
  else if Ascii.eqb a ">"%char then "&gt;"
  else String a "".

(** The number of positions of [s] at which [pat] starts. *)
Fixpoint occurrences (pat s : string) : nat :=
  (if String.prefix pat s then 1 else 0)
  + match s with
    | EmptyString => 0
    | String _ s' => occurrences pat s'
    end.

Fixpoint escapeEach (s : string) : string :=
  match s with
  | EmptyString => EmptyString
  | String a s' => entityOf a +:+ escapeEach s'
  end.

End Html.

(** ** The backup change summary: [diffById] *)

Module Diff.

Record summary : Type := Summary { addedCount : nat; removedCount : nat }.

(** [arr.map(item => item.id)]. *)
Definition idsOf (arr : list obj) : list prim :=
  (λ item, getField item "id") <$> arr.

(** [new Set(values)]: the distinct values, in order of first occurrence. *)
Definition newSet (values : list prim) : list prim := remove_dups values.

Definition diffById (currentArr prevArr : list obj) : summary :=
  let currentIds := newSet (idsOf currentArr) in
  let prevIds := newSet (idsOf prevArr) in
  let added := filter (λ id, id ∉ prevIds) currentIds in
  let removed := filter (λ id, id ∉ currentIds) prevIds in
  Summary (length added) (length removed).

End Diff.

(** ** The two reconcilers over an explicit store

    The value model above cannot say whether a call writes to its arguments
    or returns cells it shares with them.  Here objects and arrays live in a
    store and are passed by reference; the two functions are transcribed
    again, write by write.  A cell is an object (its own properties, in
    order) or an array (its items); [arr.length] is not modelled. *)

Module Store.

Abbreviation loc := nat (only parsing).

Inductive hval : Type :=
| HPrim (p : prim)
| HRef (l : loc).

#[global] Instance hval_eq_dec : EqDecision hval.
Proof. solve_decision. Defined.

#[global] Instance hval_countable : Countable hval.
Proof.
  apply (inj_countable'
    (λ v, match v with HPrim p => inl p | HRef l => inr l end)
    (λ x, match x with inl p => HPrim p | inr l => HRef l end)).
  by intros [].
Defined.

Inductive cell : Type :=
| CObject (fields : list (string * hval))
| CArray (items : list hval).

Abbreviation heap := (list cell) (only parsing).

(** A computation on the store that may raise. *)
Definition M (A : Type) : Type := heap → heap * option A.

Definition ret {A} (a : A) : M A := λ h, (h, Some a).
Definition throw {A} : M A := λ h, (h, None).
Definition bind {A B} (m : M A) (k : A → M B) : M B :=
  λ h, match m h with
       | (h', Some a) => k a h'
       | (h', None) => (h', None)
       end.

Notation "x <- m ;; k" := (bind m (λ x, k))
  (at level 100, m at next level, right associativity).
Notation "m ;;; k" := (bind m (λ _, k))
  (at level 100, right associativity).

(** [new] object or array. *)
Definition alloc (c : cell) : M hval := λ h, (h ++ [c], Some (HRef (length h))).

Definition readCell (l : loc) : M cell :=
  λ h, match h !! l with
       | Some c => (h, Some c)
       | None => (h, None)
       end.

(** An assignment to a property or an item of the cell at [l]. *)
Definition writeCell (l : loc) (c : cell) : M unit := λ h, (<[l := c]> h, Some ()).

Fixpoint forEach {A} (l : list A) (f : A → M unit) : M unit :=
  match l with
  | [] => ret ()
  | x :: l' => f x ;;; forEach l' f
  end.

Definition undefinedV : hval := HPrim PUndef.

Definition truthyV (v : hval) : bool :=
  match v with
  | HPrim p => truthy p
  | HRef _ => true
  end.

(** [a === b]: primitives by value, objects by identity. *)
Definition strictEqV (a b : hval) : bool := bool_decide (a = b).

Fixpoint getFieldV (o : list (string * hval)) (k : string) : hval :=
  match o with
  | [] => undefinedV
  | (k', v) :: o' => if String.eqb k' k then v else getFieldV o' k
  end.

Fixpoint setFieldV (k : string) (v : hval) (o : list (string * hval))
    : list (string * hval) :=
  match o with
  | [] => [(k, v)]
  | (k', v') :: o' =>
      if String.eqb k' k then (k', v) :: o' else (k', v') :: setFieldV k v o'
  end.

(** The own enumerable properties of a cell; an array has its indices. *)
Definition propsOf (c : cell) : list (string * hval) :=
  match c with
  | CObject fields => fields
  | CArray items => imap (λ i v, (pretty i, v)) items
  end.

(** [v.k]: raises on [null] and [undefined], is [undefined] on the other
    primitives. *)
Definition getProp (v : hval) (k : string) : M hval :=
  match v with
  | HPrim PUndef | HPrim PNull => throw
  | HPrim _ => ret undefinedV
  | HRef l => c <- readCell l ;; ret (getFieldV (propsOf c) k)
  end.

(** [v.k = x], for [v] an object. *)
Definition setProp (v : hval) (k : string) (x : hval) : M unit :=
  match v with
  | HRef l =>
      c <- readCell l ;;
      match c with
      | CObject fields => writeCell l (CObject (setFieldV k x fields))
      | CArray _ => throw
      end
  | HPrim _ => throw
  end.

(** The items of an array; anything else has no [find], [some] or [push]. *)
Definition arrayItems (v : hval) : M (list hval) :=
  match v with
  | HRef l =>
      c <- readCell l ;;
      match c with
      | CArray items => ret items
      | CObject _ => throw
      end
  | HPrim _ => throw
  end.

(** [v.push(x)]. *)
Definition push (v : hval) (x : hval) : M unit :=
  match v with
  | HRef l =>
      c <- readCell l ;;
      match c with
      | CArray items => writeCell l (CArray (items ++ [x]))
      | CObject _ => throw
      end
  | HPrim _ => throw
  end.

(** [arr[i] = x]. *)
Definition setItem (v : hval) (i : nat) (x : hval) : M unit :=
  match v with
  | HRef l =>
      c <- readCell l ;;
      match c with
      | CArray items => writeCell l (CArray (<[i := x]> items))
      | CObject _ => throw
      end
  | HPrim _ => throw
  end.

Fixpoint charsV (s : string) : list hval :=
  match s with
  | EmptyString => []
  | String a s' => HPrim (PStr (String a "")) :: charsV s'
  end.

(** What [for (const x of v)] visits: the items of an array, the characters
    of a string; anything else is not iterable. *)
Definition iterate (v : hval) : M (list hval) :=
  match v with
  | HPrim (PStr s) => ret (charsV s)
  | _ => arrayItems v
  end.

Fixpoint traverse {A B} (f : A → M B) (l : list A) : M (list B) :=
  match l with
  | [] => ret []
  | x :: l' => y <- f x ;; ys <- traverse f l' ;; ret (y :: ys)
  end.

(** [JSON.parse(JSON.stringify(v))] for a value inside an object or an array:
    a fresh copy of everything reachable.  [fuel] bounds the nesting depth
    (a cyclic value makes [JSON.stringify] raise).  In an object a property
    whose value is [undefined] is dropped; in an array [undefined] becomes
    [null]. *)
Fixpoint cloneIn (fuel : nat) (v : hval) : M hval :=
  match v with
  | HPrim p => ret (HPrim p)
  | HRef l =>
      match fuel with
      | O => throw
      | S fuel' =>
          c <- readCell l ;;
          match c with
          | CObject fields =>
              fields' <- traverse (λ kv, v' <- cloneIn fuel' kv.2 ;; ret (kv.1, v'))
                          (filter (λ kv, kv.2 ≠ undefinedV) fields) ;;
              alloc (CObject fields')
          | CArray items =>
              items' <- traverse (λ x, if decide (x = undefinedV) then ret (HPrim PNull)
                                  else cloneIn fuel' x) items ;;
              alloc (CArray items')
          end
      end
  end.

(** [JSON.parse(JSON.stringify(v))]; [JSON.stringify(undefined)] is
    [undefined], which [JSON.parse] rejects. *)
Definition jsonCloneV (fuel : nat) (v : hval) : M hval :=
  match v with
  | HPrim PUndef => throw
  | _ => cloneIn fuel v
  end.

(** A default parameter [x = []]. *)
Definition defaultArray (v : hval) : M hval :=
  match v with
  | HPrim PUndef => alloc (CArray [])
  | _ => ret v
  end.

(** [target.find(t => t.children && t.title === title)], over the items
    read. *)
Fixpoint findFolder (items : list hval) (title : hval) : M (option hval) :=
  match items with
  | [] => ret None
  | t :: items' =>
      c <- getProp t "children" ;;
      if truthyV c then
        tt <- getProp t "title" ;;
        if strictEqV tt title then ret (Some t) else findFolder items' title
      else findFolder items' title
  end.

(** [target.some(t => t.url && node.url && t.url === node.url
                     && t.title === node.title)]. *)
Fixpoint someDuplicate (items : list hval) (node : hval) : M bool :=
  match items with
  | [] => ret false
  | t :: items' =>
      tu <- getProp t "url" ;;
      if truthyV tu then
        nu <- getProp node "url" ;;
        if truthyV nu && strictEqV tu nu then
          tt <- getProp t "title" ;;
          nt <- getProp node "title" ;;
          if strictEqV tt nt then ret true else someDuplicate items' node
        else someDuplicate items' node
      else someDuplicate items' node
  end.

Definition isDuplicateBookmark (target node : hval) : M bool :=
  items <- arrayItems target ;; someDuplicate items node.

(** The body of [mergeNodes(target, source)], with its recursive call
    [recurse]. *)
Definition mergeNodesWith (recurse : hval → hval → M unit) (fuel : nat)
    (target source : hval) : M unit :=
  srcNodes <- iterate source ;;
  forEach srcNodes (λ srcNode,
    srcNodeCopy <- jsonCloneV fuel srcNode ;;
    srcChildren <- getProp srcNodeCopy "children" ;;
    if truthyV srcChildren then
      srcTitle <- getProp srcNodeCopy "title" ;;
      items <- arrayItems target ;;
      existingFolderInTarget <- findFolder items srcTitle ;;
      match existingFolderInTarget with
      | Some existing =>
          if strictEqV srcTitle (HPrim (PStr "Bookmarks Bar")) then
            setProp existing "children" srcChildren
          else
            setProp existing "title" srcTitle ;;;
            existingChildren <- getProp existing "children" ;;
            recurse existingChildren srcChildren
      | None => push target srcNodeCopy
      end
    else
      dup <- isDuplicateBookmark target srcNodeCopy ;;
      if dup then ret () else push target srcNodeCopy).

(** [mergeNodes(target, source)]; [fuel] bounds the depth of the recursion
    and of the copies. *)
Fixpoint mergeNodes (fuel : nat) : hval → hval → M unit :=
  mergeNodesWith
    (match fuel with
     | O => λ _ _, throw
     | S fuel' => mergeNodes fuel'
     end) fuel.

Definition mergeBookmarkTrees (fuel : nat) (listA listB : hval) : M hval :=
  listA <- defaultArray listA ;;
  listB <- defaultArray listB ;;
  merged <- jsonCloneV fuel listA ;;
  mergeNodes fuel merged listB ;;;
  ret merged.

(** [e && typeof e === 'object']: an object or an array. *)
Definition isObjectV (e : hval) : bool :=
  match e with
  | HRef _ => true
  | HPrim _ => false
  end.

(** [Array.isArray(list) ? list.filter(e => e && typeof e === 'object') : []]. *)
Definition objectItems (v : hval) : M (list hval) :=
  match v with
  | HRef l =>
      c <- readCell l ;;
      match c with
      | CArray items =>
          ret (filter (λ e, isObjectV e) items)
      | CObject _ => ret []
      end
  | HPrim _ => ret []
  end.

Definition nonEmptyV (v : hval) : bool :=
  truthyV v && negb (strictEqV v (HPrim (PStr ""))).

Definition givenV (v : hval) : bool :=
  negb (strictEqV v undefinedV) && negb (strictEqV v (HPrim PNull)).

(** Lines 564-585, on the properties of the two objects. *)
Definition mergeFields (baseExt preferredExt : list (string * hval))
    : list (string * hval) :=
  let pick k := if givenV (getFieldV preferredExt k)
                then getFieldV preferredExt k else getFieldV baseExt k in
  let m1 := setFieldV "id"
              (if truthyV (getFieldV preferredExt "id")
               then getFieldV preferredExt "id" else getFieldV baseExt "id") baseExt in
  let m2 := setFieldV "name" (pick "name") m1 in
  let m3 := setFieldV "homepageUrl"
              (if givenV (getFieldV preferredExt "homepageUrl")
                  && negb (strictEqV (getFieldV preferredExt "homepageUrl")
                             (HPrim (PStr "")))
               then getFieldV preferredExt "homepageUrl"
               else getFieldV baseExt "homepageUrl") m2 in
  let m4 := setFieldV "updateUrl" (pick "updateUrl") m3 in
  let m5 := fold_left (λ m key,
              if bool_decide (key ∈ Records.special) then m
              else if strictEqV (getFieldV preferredExt key) undefinedV then m
              else setFieldV key (getFieldV preferredExt key) m)
              (map fst preferredExt) m4 in
  fold_left (λ m key,
    if strictEqV (getFieldV m key) undefinedV
       && negb (strictEqV (getFieldV baseExt key) undefinedV)
    then setFieldV key (getFieldV baseExt key) m
    else m)
    (map fst baseExt) m5.

(** Lines 590-606 and 622-624, then 608-619 and 626-628, for a key map. *)
Definition updateKeyMap (test : hval → bool) (old new : hval) (matchedIndex : nat)
    (keyMap : gmap hval nat) : gmap hval nat :=
  let keyMap1 :=
    if negb (strictEqV old new)
       || (test new && negb (bool_decide (keyMap !! new = Some matchedIndex)))
    then
      let d := if test old && bool_decide (keyMap !! old = Some matchedIndex)
               then delete old keyMap else keyMap in
      if test new then <[new := matchedIndex]> d else d
    else keyMap in
  if negb (test old) && test new
     && negb (bool_decide (keyMap1 !! new = Some matchedIndex))
  then <[new := matchedIndex]> keyMap1 else keyMap1.

Record maps : Type := Maps {
  idToIndexMap : gmap hval nat;
  urlToIndexMap : gmap hval nat;
}.

(** The body of the [forEach] of [mergeExtensionLists]. *)
Definition step (fuel : nat) (finalResult : hval) (isFromListB : bool)
    (ms : maps) (currentExt : hval) : M maps :=
  currentExtCopy <- jsonCloneV fuel currentExt ;;
  copyId <- getProp currentExtCopy "id" ;;
  copyUrl <- getProp currentExtCopy "homepageUrl" ;;
  let existingIdIndex :=
    if truthyV copyId then idToIndexMap ms !! copyId else None in
  let existingUrlIndex :=
    if nonEmptyV copyUrl then urlToIndexMap ms !! copyUrl else None in
  let matched := match existingIdIndex with
                 | Some i => Some i
                 | None => existingUrlIndex
                 end in
  results <- arrayItems finalResult ;;
  match matched ≫= (λ i, (λ t, (i, t)) <$> results !! i) with
  | Some (matchedIndex, targetExtRef) =>
      oldId <- getProp targetExtRef "id" ;;
      oldUrl <- getProp targetExtRef "homepageUrl" ;;
      let baseExt := if isFromListB then targetExtRef else currentExtCopy in
      let preferredExt := if isFromListB then currentExtCopy else targetExtRef in
      baseCell <- match baseExt with HRef l => readCell l | HPrim _ => throw end ;;
      preferredCell <- match preferredExt with HRef l => readCell l | HPrim _ => throw end ;;
      let mergedFields := mergeFields (propsOf baseCell) (propsOf preferredCell) in
      mergedExt <- alloc (CObject mergedFields) ;;
      setItem finalResult matchedIndex mergedExt ;;;
      ret (Maps
        (updateKeyMap truthyV oldId (getFieldV mergedFields "id") matchedIndex
           (idToIndexMap ms))
        (updateKeyMap nonEmptyV oldUrl (getFieldV mergedFields "homepageUrl")
           matchedIndex (urlToIndexMap ms)))
  | None =>
      push finalResult currentExtCopy ;;;
      let newIndex := length results in
      ret (Maps
        (if truthyV copyId then <[copyId := newIndex]> (idToIndexMap ms)
         else idToIndexMap ms)
        (if nonEmptyV copyUrl then <[copyUrl := newIndex]> (urlToIndexMap ms)
         else urlToIndexMap ms))
  end.

Fixpoint foldM {A S} (f : S → A → M S) (l : list A) (s : S) : M S :=
  match l with
  | [] => ret s
  | x :: l' => s' <- f s x ;; foldM f l' s'
  end.

Definition mergeExtensionLists (fuel : nat) (listA listB : hval) : M hval :=
  L_A <- objectItems listA ;;
  L_B <- objectItems listB ;;
  finalResult <- alloc (CArray []) ;;
  ms <- foldM (step fuel finalResult false) L_A (Maps ∅ ∅) ;;
  foldM (step fuel finalResult true) L_B ms ;;;
  ret finalResult.

(** *** Reading values back from the store *)

Definition asString (v : hval) : option string :=
  match v with
  | HPrim (PStr s) => Some s
  | _ => None
  end.

Definition asNumber (v : hval) : option Z :=
  match v with
  | HPrim (PNum n) => Some n
  | _ => None
  end.

Definition asPrim (v : hval) : option prim :=
  match v with
  | HPrim p => Some p
  | HRef _ => None
  end.

(** The node of the value model a stored object stands for (its [id],
    [title], [url], [dateAdded] and [children]). *)
Fixpoint readNode (fuel : nat) (h : heap) (v : hval) : option Bookmarks.node :=
  match fuel, v with
  | S fuel', HRef l =>
      match h !! l with
      | Some (CObject fs) =>
          let node c := Bookmarks.Node (asString (getFieldV fs "id"))
                          (asString (getFieldV fs "title"))
                          (asString (getFieldV fs "url"))
                          (asNumber (getFieldV fs "dateAdded")) c [] in
          match getFieldV fs "children" with
          | HRef a =>
              match h !! a with
              | Some (CArray items) =>
                  (λ c, node (Some c)) <$> mapM (readNode fuel' h) items
              | _ => None
              end
          | HPrim _ => Some (node None)
          end
      | _ => None
      end
  | _, _ => None
  end.

Definition readForest (fuel : nat) (h : heap) (v : hval) : option (list Bookmarks.node) :=
  match v with
  | HRef a =>
      match h !! a with
      | Some (CArray items) => mapM (readNode fuel h) items
      | _ => None
      end
  | HPrim _ => None
  end.

(** The records of the value model a stored array of flat objects stands
    for. *)
Definition readRecords (h : heap) (v : hval) : option (list obj) :=
  match v with
  | HRef a =>
      match h !! a with
      | Some (CArray items) =>
          mapM (λ e, match e with
                     | HRef l =>
                         match h !! l with
                         | Some (CObject fs) =>
                             mapM (λ kv, (λ p, (kv.1, p)) <$> asPrim kv.2) fs
                         | _ => None
                         end
                     | HPrim _ => None
                     end) items
      | _ => None
      end
  | HPrim _ => None
  end.

(** *** What the specification says of a call *)

Definition valuesOf (c : cell) : list hval :=
  match c with
  | CObject fields => snd <$> fields
  | CArray items => items
  end.

(** [reaches h v l]: the cell at [l] is part of the structure [v] denotes in
    [h]. *)
Inductive reaches (h : heap) : hval → loc → Prop :=
| reaches_here l : reaches h (HRef l) l
| reaches_step l c v l' :
    h !! l = Some c → v ∈ valuesOf c → reaches h v l' → reaches h (HRef l) l'.

(** A call leaves its arguments as they were and returns a new structure:
    every cell that existed before the call is unchanged after it, and the
    cells of the returned structure were all created by the call. *)
Definition pureCall (call : M hval) : Prop :=
  ∀ h : heap,
    let h' := (call h).1 in
    take (length h) h' = h
    ∧ ∀ v l, (call h).2 = Some v → reaches h' v l → length h ≤ l.

(** [n0] being the size of the store when the call starts (the cells below
    [n0] are the caller's), a value is new when it is a primitive or refers to
    a cell created by the call. *)
Definition freshV (n0 : nat) (v : hval) : Prop :=
  match v with
  | HRef l => n0 ≤ l
  | HPrim _ => True
  end.

(** The cells created by the call refer to cells created by the call. *)
Definition closed (n0 : nat) (h : heap) : Prop :=
  ∀ l c, n0 ≤ l → h !! l = Some c → Forall (freshV n0) (valuesOf c).

(** [ok n0 m Q]: run in a store whose new cells are closed, [m] leaves the
    caller's cells alone, keeps the new cells closed, and returns a result
    satisfying [Q]. *)
Definition ok (n0 : nat) {A} (m : M A) (Q : A → Prop) : Prop :=
  ∀ h, n0 ≤ length h → closed n0 h →
    n0 ≤ length (m h).1
    ∧ take n0 (m h).1 = take n0 h
    ∧ closed n0 (m h).1
    ∧ ∀ a, (m h).2 = Some a → Q a.

End Store.

(** ** Tagging live bookmarks with the browser: [addBrowserToBookmarkNodes] *)

Module Tagging.

Import Bookmarks.

(** The callback of [nodes.map]: a shallow copy of the node, with [browser]
    set when the node has a [url], and with the children tagged in turn when
    there are any. *)
Fixpoint addBrowserToNode (browserName : string) (node : node) {struct node}
    : Bookmarks.node :=
  match node with
  | Node i t u d c o =>
      let o' := if present u then setField "browser" (PStr browserName) o else o in
      match c with
      | Some ch =>
          match ch with
          | [] => Node i t u d (Some ch) o'
          | _ :: _ => Node i t u d (Some (addBrowserToNode browserName <$> ch)) o'
          end
      | None => Node i t u d None o'
      end
  end.

(** [addBrowserToBookmarkNodes(nodes, browserName)]: anything that is not an
    array is returned as it is. *)
Definition addBrowserToBookmarkNodes (nodes : jsarg node) (browserName : string)
    : jsarg node :=
  match nodes with
  | JArray l => JArray (addBrowserToNode browserName <$> l)
  | _ => nodes
  end.

(** *** What the tagging leaves alone *)

(** [delete o[k]]. *)
Fixpoint deleteField (k : string) (o : obj) : obj :=
  match o with
  | [] => []
  | (k', v) :: o' =>
      if String.eqb k' k then deleteField k o' else (k', v) :: deleteField k o'
  end.

(** The node without its [browser] property, at every depth. *)
Fixpoint untagged (n : node) : node :=
  match n with
  | Node i t u d c o =>
      Node i t u d
        match c with
        | Some ch => Some (untagged <$> ch)
        | None => None
        end
        (deleteField "browser" o)
  end.

(** What tagging with [browserName] makes of one node, its children apart. *)
Definition taggedFrom (browserName : string) (n n' : node) : Prop :=
  nodeId n' = nodeId n ∧ title n' = title n ∧ url n' = url n
  ∧ dateAdded n' = dateAdded n
  ∧ length <$> children n' = length <$> children n
  ∧ other n' = if present (url n)
               then setField "browser" (PStr browserName) (other n)
               else other n.

(** The nodes of a forest, parents before children, in document order. *)
Fixpoint nodesOf (n : node) : list node :=
  match n with
  | Node _ _ _ _ c _ =>
      n :: match c with
           | Some ch => mjoin (nodesOf <$> ch)
           | None => []
           end
  end.

Definition allNodes (forest : list node) : list node :=
  mjoin (nodesOf <$> forest).

End Tagging.

(** ** The bookmark part of the backup summary: [flattenBookmarks] *)

Module Backup.

Import Bookmarks Diff.

(** A property read off a node: [undefined] when the node has none. *)
Definition ofString (s : option string) : prim :=
  match s with
  | Some s => PStr s
  | None => PUndef
  end.

(** [{ id: node.id, title: node.title, url: node.url }]. *)
Definition entryOf (node : node) : obj :=
  [("id", ofString (nodeId node)); ("title", ofString (title node));
   ("url", ofString (url node))].

(** One iteration of the loop of [flattenBookmarks(nodes, arr)]; the inner
    [fix] is the recursive call [flattenBookmarks(node.children, arr)]. *)
Fixpoint flattenNode (node : node) (arr : list obj) {struct node} : list obj :=
  match node with
  | Node _ _ u _ c _ =>
      let arr1 := if present u then arr ++ [entryOf node] else arr in
      match c with
      | Some ch =>
          (fix flattenBookmarks (nodes : list Bookmarks.node) (arr : list obj)
               {struct nodes} : list obj :=
             match nodes with
             | [] => arr
             | n :: nodes' => flattenBookmarks nodes' (flattenNode n arr)
             end) ch arr1
      | None => arr1
      end
  end.

(** [flattenBookmarks(nodes, arr = [])]; the array [arr] is pushed to by the
    code, the extended array is the result here. *)
Definition flattenBookmarks (nodes : list node) (arr : list obj) : list obj :=
  fold_left (λ a n, flattenNode n a) nodes arr.

(** The bookmark counts of the summary [performManualBackup] shows, from the
    merged forest that was backed up and the forest of the previous
    backup. *)
Definition bookmarkDiff (mergedBookmarks prevBookmarksTree : list node) : summary :=
  diffById (flattenBookmarks mergedBookmarks [])
           (flattenBookmarks prevBookmarksTree []).

(** *** What the summary is about *)

(** No folder of the forest, at any depth, is titled 'Bookmarks Bar'. *)
Definition noBookmarksBar (forest : list node) : Prop :=
  Forall (λ n, ¬ folderTitled bookmarksBar n) (Tagging.allNodes forest).

End Backup.

(** ** Record lists that share no key *)

Module Keys.

Import Records.

(** No two records of the list share a non-empty id or a non-empty homepage
    URL. *)
Definition distinctKeys (l : list obj) : Prop :=
  ∀ i j ri rj, l !! i = Some ri → l !! j = Some rj → i ≠ j →
    (truthy (recId ri) = true → recId ri ≠ recId rj)
    ∧ (nonEmpty (recUrl ri) = true → recUrl ri ≠ recUrl rj).

End Keys.

(** ** Searching the bookmark tree: [filterBookmarkNodes] *)

Module Searching.

Import Bookmarks.

(** [s.includes(sub)]. *)
Fixpoint includes (s sub : string) : bool :=
  String.prefix sub s
  || match s with
     | EmptyString => false
     | String _ s' => includes s' sub
     end.

Section Filter.

(** [String.prototype.toLowerCase]. *)
Variable toLowerCase : string → string.

(** The callback of [nodes.map] in [filterBookmarkNodes]: [Some None] is
    [null], [None] is the [TypeError] that reading [toLowerCase] off a
    missing [title] raises.  The children of a folder are filtered, nulls
    removed, before the folder's own title is read. *)
Fixpoint filterNode (lowerCaseSearchTerm : string) (node : node) {struct node}
    : option (option Bookmarks.node) :=
  match node with
  | Node i t u d c o =>
      if present u then
        title ← t;
        let titleMatch := includes (toLowerCase title) lowerCaseSearchTerm in
        let urlMatch := includes (toLowerCase (default "" u)) lowerCaseSearchTerm in
        Some (if titleMatch || urlMatch then Some node else None)
      else
        match c with
        | Some ch =>
            filteredChildren ←
              omap id <$> mapM (filterNode lowerCaseSearchTerm) ch;
            title ← t;
            if includes (toLowerCase title) lowerCaseSearchTerm
               || existsb (λ child, true) filteredChildren
            then Some (Some (Node i t u d
                               (Some (filter (λ child, True) filteredChildren)) o))
            else Some None
        | None => Some None
        end
  end.

(** [filterBookmarkNodes(nodes, lowerCaseSearchTerm)]:
    [nodes.map(...).filter(node => node !== null)]. *)
Definition filterBookmarkNodes (nodes : list node) (lowerCaseSearchTerm : string)
    : option (list node) :=
  omap id <$> mapM (filterNode lowerCaseSearchTerm) nodes.

(** *** What a search result holds *)

(** The test a node with a [url] has to pass. *)
Definition matches (lowerCaseSearchTerm : string) (n : node) : bool :=
  includes (toLowerCase (default "" (title n))) lowerCaseSearchTerm
  || includes (toLowerCase (default "" (url n))) lowerCaseSearchTerm.

(** A node of a search result: a bookmark that matches, or a folder whose
    title matches or that still has children, all of them nodes of a search
    result in turn. *)
Fixpoint found (lowerCaseSearchTerm : string) (n : node) : Prop :=
  match n with
  | Node _ t u _ c _ =>
      if present u then matches lowerCaseSearchTerm n = true
      else
        match c with
        | Some ch =>
            (includes (toLowerCase (default "" t)) lowerCaseSearchTerm = true
             ∨ ch ≠ [])
            ∧ (fix all (l : list node) : Prop :=
                 match l with
                 | [] => True
                 | x :: l' => found lowerCaseSearchTerm x ∧ all l'
                 end) ch
        | None => False
        end
  end.

End Filter.

End Searching.

(** ** The browser the extension runs in: [DETECTED_BROWSER] *)

Module Detection.

Import Searching.

(** What the detection reads: [navigator.userAgent] ([None] when there is no
    [navigator]), whether [chrome.runtime.id] is there and truthy, and
    whether [browser.runtime.id] is. *)
Record environment : Type := Environment {
  userAgent : option string;
  chromeRuntimeId : bool;
  browserRuntimeId : bool;
}.

Definition DETECTED_BROWSER (env : environment) : string :=
  match userAgent env with
  | None => "unknown"
  | Some userAgent =>
      if String.eqb userAgent "" then "unknown"
      else if includes userAgent "Brave" then "brave"
      else if includes userAgent "Opera" || includes userAgent "OPR/" then "opera"
      else if includes userAgent "Edg/" then "edge"
      else if chromeRuntimeId env && includes userAgent "Chrome/" then "chrome"
      else if includes userAgent "Safari" && negb (includes userAgent "Chrome")
      then "safari"
      else if browserRuntimeId env then "firefox"
      else "unknown"
  end.

End Detection.

(** ** The stored snapshot: [removeExtensionFromList] *)

Module Stored.

Import Records Bookmarks.

(** The object kept under [importedDataList] in [chrome.storage.local]. *)
Record snapshot : Type := Snapshot {
  schemaVersion : prim;
  exportedTimestamp : prim;
  exportedFromBrowser : prim;
  extensions : jsarg elem;
  bookmarks : jsarg node;
}.

Definition withExtensions (importedData : snapshot) (l : list elem) : snapshot :=
  Snapshot (schemaVersion importedData) (exportedTimestamp importedData)
           (exportedFromBrowser importedData) (JArray l) (bookmarks importedData).

(** [ext.id]: reading a property off [undefined] or [null] raises, any other
    primitive has no [id]. *)
Definition idOf (ext : elem) : option prim :=
  match ext with
  | EObj o => Some (getField o "id")
  | EPrim PUndef | EPrim PNull => None
  | EPrim _ => Some PUndef
  end.

(** [extensions.filter(ext => ext.id !== extensionId)]; [None] when the
    callback raises. *)
Fixpoint withoutId (extensionId : prim) (l : list elem) : option (list elem) :=
  match l with
  | [] => Some []
  | ext :: l' =>
      id ← idOf ext;
      kept ← withoutId extensionId l';
      Some (if strictEq id extensionId then kept else ext :: kept)
  end.

(** [removeExtensionFromList(extensionId)] on a storage that answers without
    error: the content of the storage afterwards, and the value the promise
    resolves to.  [None] is the [TypeError] of a [null] element, raised
    inside the storage callback. *)
Definition removeExtensionFromList (storage : option snapshot) (extensionId : prim)
    : option (option snapshot * bool) :=
  match storage with
  | None => Some (storage, false)
  | Some importedData =>
      match extensions importedData with
      | JArray l =>
          kept ← withoutId extensionId l;
          if (length kept =? length l)%nat then Some (storage, false)
          else Some (Some (withExtensions importedData kept), true)
      | _ => Some (storage, false)
      end
  end.

End Stored.

(** ** The exports to a Netscape bookmark file: [exportBookmarksAsHtml],
    [exportExtensionsAsBookmarks] *)

Module Netscape.

Import Bookmarks Html.

(** A value in a template literal, ['${v}']. *)
Definition templateOf (v : prim) : string :=
  match v with
  | PUndef => "undefined"
  | PNull => "null"
  | PBool true => "true"
  | PBool false => "false"
  | PNum n => pretty n
  | PStr s => s
  end.

(** The header of the file, with the text of its title and heading. *)
Definition header (heading : string) : string :=
  "<!DOCTYPE NETSCAPE-Bookmark-file-1>" +:+ newline
  +:+ "<!-- This is an automatically generated file." +:+ newline
  +:+ "     It will be read and overwritten." +:+ newline
  +:+ "     DO NOT EDIT! -->" +:+ newline
  +:+ "<META HTTP-EQUIV=" +:+ quote +:+ "Content-Type" +:+ quote
  +:+ " CONTENT=" +:+ quote +:+ "text/html; charset=UTF-8" +:+ quote +:+ ">"
  +:+ newline
  +:+ "<TITLE>" +:+ heading +:+ "</TITLE>" +:+ newline
  +:+ "<H1>" +:+ heading +:+ "</H1>" +:+ newline
  +:+ "<DL><p>" +:+ newline.

Definition footer : string := "</DL><p>" +:+ newline.

(** [node.title === "Managed bookmarks"
     && (!node.children || node.children.length === 0)]. *)
Definition emptyManaged (node : node) : bool :=
  bool_decide (title node = Some "Managed bookmarks")
  && match children node with
     | None | Some [] => true
     | Some (_ :: _) => false
     end.

(** Lines 653-665 of [exportBookmarksAsHtml]: the nodes that are exported,
    from the stored [bookmarks]. *)
Definition exportedNodes (stored : jsarg node) : list node :=
  let bookmarks := arrayOrEmpty stored in
  match bookmarks with
  | root :: _ =>
      match children root with
      | Some ch => filter (λ node, emptyManaged node = false) ch
      | None => bookmarks
      end
  | [] => bookmarks
  end.

(** The text [html] that [exportBookmarksAsHtml] offers for download, from
    the stored [bookmarks]; [bookmarksToHtml(bookmarks)] starts at its
    default depth 1. *)
Definition exportBookmarksAsHtml (now : Z) (stored : jsarg node) : string :=
  header "Bookmarks" +:+ bookmarksToHtml now (exportedNodes stored) 1
  +:+ newline +:+ footer.

(** The title of an extension's bookmark in [exportExtensionsAsBookmarks];
    a truthy [name] that is not a string has no [replace] and raises. *)
Definition extensionTitle (ext : obj) : option string :=
  if truthy (getField ext "name") then
    match getField ext "name" with
    | PStr name =>
        Some (replaceAll ">"%char ">"
                (replaceAll "<"%char "<" (replaceAll "&"%char "&" name)))
    | _ => None
    end
  else Some "Extension".

(** The callback of [bookmarkable.map]: the line of one extension; [now] is
    its reading of [Date.now()]. *)
Definition extensionLine (now : Z) (ext : obj) : option string :=
  title ← extensionTitle ext;
  Some (bookmarkLine "    " (templateOf (getField ext "homepageUrl"))
          (now / 1000)%Z title).

(** *** What an export depends on *)

(** Every node of the forest has a non-zero [dateAdded]. *)
Definition allDated (forest : list node) : Prop :=
  Forall (λ n, ∃ d, dateAdded n = Some d ∧ d ≠ 0%Z) (Tagging.allNodes forest).

End Netscape.

(** ** The link to an extension's store page: [getStoreUrl]
    ([components/bookmark-display.js]) *)

Module StoreLinks.

Import Searching Netscape.

(** ['chrome'] or ['edge']; [null] is [None]. *)
Inductive store : Type := ChromeStore | EdgeStore.

#[global] Instance store_eq_dec : EqDecision store.
Proof. solve_decision. Defined.

(** Lines 193-200: the store the extension was installed from, read off its
    [updateUrl]; a truthy [updateUrl] that is not a string has no [includes]
    and raises. *)
Definition sourceStoreOf (updateUrl : prim) : option (option store) :=
  if truthy updateUrl then
    match updateUrl with
    | PStr s =>
        Some (if includes s "edge.microsoft.com" then Some EdgeStore
              else if includes s "google.com" then Some ChromeStore
              else None)
    | _ => None
    end
  else Some None.

Definition edgeSearch : string := "https://microsoftedge.microsoft.com/addons/search/".
Definition chromeSearch : string := "https://chromewebstore.google.com/search/".
Definition edgeDetail : string := "https://microsoftedge.microsoft.com/addons/detail/".
Definition chromeDetail : string := "https://chrome.google.com/webstore/detail/".

Section Links.

(** [encodeURIComponent], applied to whatever [extension.name] is. *)
Variable encodeURIComponent : prim → string.

Definition getStoreUrl (extension : obj) (currentContextBrowserName : prim)
    : option string :=
  let id := getField extension "id" in
  let name := getField extension "name" in
  let updateUrl := getField extension "updateUrl" in
  sourceStore ← sourceStoreOf updateUrl;
  Some
    (if bool_decide (sourceStore = Some ChromeStore)
        && strictEq currentContextBrowserName (PStr "Edge")
     then edgeSearch +:+ encodeURIComponent name
     else if bool_decide (sourceStore = Some EdgeStore)
             && strictEq currentContextBrowserName (PStr "Chrome")
     then chromeSearch +:+ encodeURIComponent name
     else if bool_decide (sourceStore = Some EdgeStore)
     then edgeDetail +:+ templateOf id
     else if bool_decide (sourceStore = Some ChromeStore)
     then chromeDetail +:+ templateOf id
     else if strictEq currentContextBrowserName (PStr "Edge")
     then edgeSearch +:+ encodeURIComponent name
     else chromeSearch +:+ encodeURIComponent name).

End Links.

End StoreLinks.

(** * Properties *)

(** ** Properties of flat objects *)

Section ObjectLemmas.

Lemma getField_setField (k k' : string) (v : prim) (o : obj) :
  getField (setField k v o) k' = if decide (k = k') then v else getField o k'.
Proof.
  induction o as [|[k0 v0] o IH]; simpl.
  - destruct (String.eqb_spec k k'); case_decide; congruence.
  - destruct (String.eqb_spec k0 k) as [->|Hne]; simpl.
    + destruct (String.eqb_spec k k'); case_decide; congruence.
    + destruct (String.eqb_spec k0 k'); [|done].
      case_decide; congruence.
Qed.

Lemma getField_setField_eq (k : string) (v : prim) (o : obj) :
  getField (setField k v o) k = v.
Proof. rewrite getField_setField. by case_decide. Qed.

Lemma getField_setField_ne (k k' : string) (v : prim) (o : obj) :
  k ≠ k' → getField (setField k v o) k' = getField o k'.
Proof. intros. rewrite getField_setField. by case_decide. Qed.

Lemma getField_not_key (o : obj) (k : string) :
  k ∉ keys o → getField o k = PUndef.
Proof.
  induction o as [|[k0 v0] o IH]; simpl; [done|].
  intros Hk. apply not_elem_of_cons in Hk as [Hne Hk].
  destruct (String.eqb_spec k0 k); [congruence|auto].
Qed.

Lemma strictEq_true (a b : prim) : strictEq a b = true ↔ a = b.
Proof. unfold strictEq. by rewrite bool_decide_eq_true. Qed.

Lemma strictEq_false (a b : prim) : strictEq a b = false ↔ a ≠ b.
Proof. unfold strictEq. by rewrite bool_decide_eq_false. Qed.

Lemma truthy_not_undef (v : prim) : truthy v = true → v ≠ PUndef.
Proof. by destruct v. Qed.

End ObjectLemmas.

(** ** The merged record, field by field *)

Section MergeFields.

Import Records.

Ltac split_decisions :=
  repeat case_bool_decide; repeat case_decide; subst; try done;
  set_unfold; naive_solver.

Lemma overlay_get (preferredExt : obj) (ks : list string) (m : obj) (k : string) :
  getField (fold_left (λ m key,
              if bool_decide (key ∈ special) then m
              else if strictEq (getField preferredExt key) PUndef then m
              else setField key (getField preferredExt key) m) ks m) k
  = if bool_decide (k ∈ ks ∧ (k ∉ special) ∧ getField preferredExt k ≠ PUndef)
    then getField preferredExt k else getField m k.
Proof.
  revert m. induction ks as [|k0 ks IH]; intros m; cbn [fold_left].
  - rewrite bool_decide_eq_false_2; [done|]. intros [H _]. by apply elem_of_nil in H.
  - rewrite IH. clear IH.
    destruct (decide (k0 ∈ special)) as [Hs|Hs].
    + rewrite (bool_decide_eq_true_2 _ Hs). split_decisions.
    + rewrite (bool_decide_eq_false_2 _ Hs).
      destruct (strictEq (getField preferredExt k0) PUndef) eqn:Hu.
      * apply strictEq_true in Hu. split_decisions.
      * apply strictEq_false in Hu. rewrite getField_setField. split_decisions.
Qed.

Lemma backfill_get (baseExt : obj) (ks : list string) (m : obj) (k : string) :
  getField (fold_left (λ m key,
              if strictEq (getField m key) PUndef
                 && negb (strictEq (getField baseExt key) PUndef)
              then setField key (getField baseExt key) m else m) ks m) k
  = if bool_decide (k ∈ ks ∧ getField m k = PUndef ∧ getField baseExt k ≠ PUndef)
    then getField baseExt k else getField m k.
Proof.
  revert m. induction ks as [|k0 ks IH]; intros m; cbn [fold_left].
  - rewrite bool_decide_eq_false_2; [done|]. intros [H _]. by apply elem_of_nil in H.
  - rewrite IH. clear IH.
    destruct (strictEq (getField m k0) PUndef) eqn:Hm;
      destruct (strictEq (getField baseExt k0) PUndef) eqn:Hb; cbn [andb negb];
      apply strictEq_true in Hm || apply strictEq_false in Hm;
      apply strictEq_true in Hb || apply strictEq_false in Hb;
      rewrite ?getField_setField; split_decisions.
Qed.

Lemma jsOr_undef (a b : prim) : jsOr a b = PUndef → b = PUndef.
Proof. unfold jsOr. destruct (truthy a) eqn:E; [|done]. by destruct a. Qed.

Lemma given_spec (v : prim) : given v = true ↔ v ≠ PUndef ∧ v ≠ PNull.
Proof.
  unfold given. rewrite andb_true_iff, !negb_true_iff, !strictEq_false. done.
Qed.

Lemma nonEmpty_spec (v : prim) : nonEmpty v = truthy v.
Proof.
  unfold nonEmpty. destruct (strictEq v (PStr "")) eqn:E.
  - apply strictEq_true in E. by subst.
  - apply andb_true_r.
Qed.

Lemma nonEmpty_given (v : prim) :
  nonEmpty v = true → given v && negb (strictEq v (PStr "")) = true.
Proof.
  rewrite nonEmpty_spec. intros Hv.
  rewrite andb_true_iff, given_spec, negb_true_iff, strictEq_false.
  destruct v; try done; repeat split; try done. by intros [= ->].
Qed.

Lemma mergedValue_undef (baseExt preferredExt : obj) (k : string) :
  mergedValue baseExt preferredExt k = PUndef → getField baseExt k = PUndef.
Proof.
  unfold mergedValue. repeat case_decide; subst.
  - apply jsOr_undef.
  - destruct (given _) eqn:E; [|done]. apply given_spec in E. naive_solver.
  - destruct (_ && _) eqn:E; [|done].
    apply andb_true_iff in E as [E _]. apply given_spec in E. naive_solver.
  - destruct (given _) eqn:E; [|done]. apply given_spec in E. naive_solver.
  - destruct (strictEq _ _) eqn:E; [done|]. apply strictEq_false in E. done.
Qed.

Lemma mergeFields_get (baseExt preferredExt : obj) (k : string) :
  getField (mergeFields baseExt preferredExt) k = mergedValue baseExt preferredExt k.
Proof.
  assert (Hpre : ∀ m4,
    (∀ k', getField m4 k' =
       if bool_decide (k' ∈ special) then mergedValue baseExt preferredExt k'
       else getField baseExt k') →
    ∀ k', getField (fold_left (λ m key,
              if bool_decide (key ∈ special) then m
              else if strictEq (getField preferredExt key) PUndef then m
              else setField key (getField preferredExt key) m)
              (keys preferredExt) m4) k' = mergedValue baseExt preferredExt k').
  { intros m4 H4 k'. rewrite overlay_get, H4.
    destruct (decide (k' ∈ special)) as [Hs|Hs].
    - rewrite (bool_decide_eq_true_2 _ Hs).
      rewrite bool_decide_eq_false_2; naive_solver.
    - rewrite (bool_decide_eq_false_2 _ Hs).
      assert (k' ≠ "id" ∧ k' ≠ "name" ∧ k' ≠ "homepageUrl" ∧ k' ≠ "updateUrl")
        as (?&?&?&?).
      { unfold special in Hs. set_unfold. naive_solver. }
      unfold mergedValue. rewrite !decide_False by done.
      destruct (strictEq (getField preferredExt k') PUndef) eqn:E.
      + apply strictEq_true in E. rewrite bool_decide_eq_false_2; naive_solver.
      + apply strictEq_false in E.
        destruct (decide (k' ∈ keys preferredExt)) as [Hk|Hk].
        * by rewrite bool_decide_eq_true_2.
        * by apply getField_not_key in Hk. }
  unfold mergeFields. rewrite backfill_get.
  rewrite Hpre.
  - case_bool_decide as Hc; [|done].
    destruct Hc as (_ & Hu & Hb). by apply mergedValue_undef in Hu.
  - clear. intros k'. rewrite !getField_setField.
    unfold mergedValue, special.
    repeat case_decide; subst; try done; case_bool_decide; set_unfold; naive_solver.
Qed.

End MergeFields.

(** ** The index maps describe the result list *)

Section RecordInvariant.

Import Records.

(** Both re-registration blocks compute the same map: the new key points to
    the merged slot, the old key is dropped when it pointed there and the key
    changed, every other key is left alone. *)
Lemma updateIdMap_lookup (oldId newId : prim) (m : nat) (M : gmap prim nat) (X : prim) :
  updateIdMap oldId newId m M !! X =
    if bool_decide (truthy newId = true ∧ X = newId) then Some m
    else if bool_decide (X = oldId ∧ oldId ≠ newId ∧ truthy oldId = true
                         ∧ M !! oldId = Some m) then None
    else M !! X.
Proof.
  unfold updateIdMap, strictEq.
  destruct (truthy oldId) eqn:Ho, (truthy newId) eqn:Hn;
    cbn [negb andb orb];
    repeat (case_bool_decide; cbn [negb andb orb]);
    destruct_and?; simplify_eq; try done;
    rewrite ?lookup_insert, ?lookup_delete;
    repeat case_decide; try done; naive_solver.
Qed.

Lemma updateUrlMap_lookup (oldUrl newUrl : prim) (m : nat) (M : gmap prim nat) (X : prim) :
  updateUrlMap oldUrl newUrl m M !! X =
    if bool_decide (nonEmpty newUrl = true ∧ X = newUrl) then Some m
    else if bool_decide (X = oldUrl ∧ oldUrl ≠ newUrl ∧ nonEmpty oldUrl = true
                         ∧ M !! oldUrl = Some m) then None
    else M !! X.
Proof.
  unfold updateUrlMap.
  assert (Hb4 : (negb (truthy oldUrl) || strictEq oldUrl (PStr "")) = negb (nonEmpty oldUrl)).
  { rewrite nonEmpty_spec. destruct (strictEq oldUrl (PStr "")) eqn:E; [|by rewrite orb_false_r].
    apply strictEq_true in E. by subst. }
  rewrite Hb4. unfold strictEq.
  destruct (nonEmpty oldUrl) eqn:Ho, (nonEmpty newUrl) eqn:Hn;
    cbn [negb andb orb];
    repeat (case_bool_decide; cbn [negb andb orb]);
    destruct_and?; simplify_eq; try done;
    rewrite ?lookup_insert, ?lookup_delete;
    repeat case_decide; try done; naive_solver.
Qed.

Lemma indexed_init : indexed init ∧ urlComplete init.
Proof. split; [split|]; intros ??; simpl; by rewrite ?lookup_empty. Qed.

Lemma existingIdIndex_None (s : state) (c : obj) :
  existingIdIndex s c = None → truthy (recId c) = true →
  idToIndexMap s !! recId c = None.
Proof. unfold existingIdIndex, recId. intros H Ht. by rewrite Ht in H. Qed.

Lemma existingUrlIndex_None (s : state) (c : obj) :
  existingUrlIndex s c = None → nonEmpty (recUrl c) = true →
  urlToIndexMap s !! recUrl c = None.
Proof. unfold existingUrlIndex, recUrl. intros H Ht. by rewrite Ht in H. Qed.

Lemma pushNew_indexed (s : state) (c : obj) :
  indexed s → existingIdIndex s c = None → indexed (pushNew s c).
Proof.
  intros [Hs Hc Hu] Hnone. split; simpl.
  - intros X i HX.
    assert (Hold : idToIndexMap s !! X = Some i →
      ∃ r, (finalResult s ++ [c]) !! i = Some r ∧ recId r = X ∧ truthy X = true).
    { intros H. destruct (Hs _ _ H) as (r & Hr & ?). exists r.
      split; [|done]. by apply lookup_app_l_Some. }
    fold (recId c) in HX. destruct (truthy (recId c)) eqn:Ht; [|auto].
    rewrite lookup_insert in HX. case_decide; [|auto]. simplify_eq.
    exists c. split; [|done]. by apply list_lookup_middle.
  - intros i r Hr Ht. fold (recId c).
    apply lookup_app_Some in Hr as [Hr|[Hlen Hr]].
    + specialize (Hc _ _ Hr Ht).
      destruct (truthy (recId c)) eqn:Htc; [|done].
      rewrite lookup_insert_ne; [done|].
      intros Heq. apply existingIdIndex_None in Hnone; [|done]. congruence.
    + apply list_lookup_singleton_Some in Hr as [Hi <-].
      rewrite Ht. assert (i = length (finalResult s)) as -> by lia.
      apply lookup_insert_eq.
  - intros U i HU. fold (recUrl c) in HU.
    assert (Hold : urlToIndexMap s !! U = Some i →
      ∃ r, (finalResult s ++ [c]) !! i = Some r ∧ recUrl r = U ∧ nonEmpty U = true).
    { intros H. destruct (Hu _ _ H) as (r & Hr & ?). exists r.
      split; [|done]. by apply lookup_app_l_Some. }
    destruct (nonEmpty (recUrl c)) eqn:Ht; [|auto].
    rewrite lookup_insert in HU. case_decide; [|auto]. simplify_eq.
    exists c. split; [|done]. by apply list_lookup_middle.
Qed.

Lemma pushNew_urlComplete (s : state) (c : obj) :
  urlComplete s → existingUrlIndex s c = None → urlComplete (pushNew s c).
Proof.
  intros Hc Hnone i r Hr Ht. simpl in *. fold (recUrl c).
  apply lookup_app_Some in Hr as [Hr|[Hlen Hr]].
  - specialize (Hc _ _ Hr Ht).
    destruct (nonEmpty (recUrl c)) eqn:Htc; [|done].
    rewrite lookup_insert_ne; [done|].
    intros Heq. apply existingUrlIndex_None in Hnone; [|done]. congruence.
  - apply list_lookup_singleton_Some in Hr as [Hi <-].
    rewrite Ht. assert (i = length (finalResult s)) as -> by lia.
    apply lookup_insert_eq.
Qed.

Lemma merged_id_cases (isFromListB : bool) (target c : obj) :
  let merged := mergeFields (if isFromListB then target else c)
                            (if isFromListB then c else target) in
  recId merged = recId target ∨ recId merged = recId c.
Proof.
  unfold recId. rewrite mergeFields_get. unfold mergedValue; simpl. unfold jsOr.
  destruct isFromListB; destruct (truthy _); auto.
Qed.

Lemma merged_url_cases (isFromListB : bool) (target c : obj) :
  let merged := mergeFields (if isFromListB then target else c)
                            (if isFromListB then c else target) in
  recUrl merged = recUrl target ∨ recUrl merged = recUrl c.
Proof.
  unfold recUrl. rewrite mergeFields_get. unfold mergedValue; simpl.
  destruct isFromListB; destruct (_ && _); auto.
Qed.

(** A record matched through the id map carries the slot's id. *)
Lemma id_match_same (s : state) (c target : obj) (m : nat) :
  indexed s → finalResult s !! m = Some target →
  existingIdIndex s c = Some m → recId c = recId target ∧ truthy (recId c) = true.
Proof.
  intros [Hs _ _] Ht. unfold existingIdIndex. fold (recId c).
  destruct (truthy (recId c)) eqn:E; [|done].
  intros H. destruct (Hs _ _ H) as (r & Hr & <- & _). by simplify_eq.
Qed.

Lemma url_match_same (s : state) (c target : obj) (m : nat) :
  indexed s → finalResult s !! m = Some target →
  existingUrlIndex s c = Some m → recUrl c = recUrl target ∧ nonEmpty (recUrl c) = true.
Proof.
  intros [_ _ Hu] Ht. unfold existingUrlIndex. fold (recUrl c).
  destruct (nonEmpty (recUrl c)) eqn:E; [|done].
  intros H. destruct (Hu _ _ H) as (r & Hr & <- & _). by simplify_eq.
Qed.

Lemma mergeInto_indexed (isFromListB : bool) (s : state) (m : nat) (target c : obj) :
  indexed s → finalResult s !! m = Some target → matchIndex s c = Some m →
  indexed (mergeInto isFromListB s m target c).
Proof.
  intros Hinv Ht Hm. pose proof Hinv as [Hs Hc Hu].
  pose proof (lookup_lt_Some _ _ _ Ht) as Hlen.
  unfold mergeInto.
  set (merged := mergeFields _ _).
  fold (recId target) (recUrl target) (recId merged) (recUrl merged).
  assert (Hfresh : truthy (recId merged) = true → recId merged ≠ recId target →
                   idToIndexMap s !! recId merged = None).
  { intros Htr Hne.
    destruct (merged_id_cases isFromListB target c) as [?|Heq]; [done|].
    fold merged in Heq. rewrite Heq in *.
    unfold matchIndex in Hm.
    destruct (existingIdIndex s c) as [i|] eqn:Hi.
    - simplify_eq. destruct (id_match_same _ _ _ _ Hinv Ht Hi). congruence.
    - by apply existingIdIndex_None. }
  split; simpl.
  - intros X i. rewrite updateIdMap_lookup.
    repeat case_bool_decide; [| done |].
    + intros [= <-]. exists merged. rewrite list_lookup_insert_eq by done. naive_solver.
    + intros HX. destruct (Hs _ _ HX) as (r & Hr & Hid & Htr). exists r.
      destruct (decide (i = m)) as [->|Hne].
      * simplify_eq. exfalso.
        destruct (decide (recId target = recId merged)) as [He|He]; [|naive_solver].
        rewrite He in *. naive_solver.
      * by rewrite list_lookup_insert_ne.
  - intros i r. destruct (decide (i = m)) as [->|Hne].
    + rewrite list_lookup_insert_eq by done. intros [= <-] Htr.
      rewrite updateIdMap_lookup. by rewrite bool_decide_eq_true_2.
    + rewrite list_lookup_insert_ne by done. intros Hr Htr.
      pose proof (Hc _ _ Hr Htr) as Hold.
      rewrite updateIdMap_lookup.
      repeat case_bool_decide; [| |done].
      * exfalso. destruct_and!.
        destruct (decide (recId merged = recId target)) as [He|He].
        -- pose proof (Hc _ _ Ht) as Hm'. rewrite <- He in Hm'.
           specialize (Hm' ltac:(done)). congruence.
        -- pose proof (Hfresh ltac:(done) He). congruence.
      * exfalso. destruct_and!. congruence.
  - intros U i. rewrite updateUrlMap_lookup.
    repeat case_bool_decide; [| done |].
    + intros [= <-]. exists merged. rewrite list_lookup_insert_eq by done. naive_solver.
    + intros HU. destruct (Hu _ _ HU) as (r & Hr & Hid & Htr). exists r.
      destruct (decide (i = m)) as [->|Hne].
      * simplify_eq. exfalso.
        destruct (decide (recUrl target = recUrl merged)) as [He|He]; [|naive_solver].
        rewrite He in *. naive_solver.
      * by rewrite list_lookup_insert_ne.
Qed.

Lemma mergeInto_urlComplete (isFromListB : bool) (s : state) (m : nat)
    (target c : obj) :
  indexed s → urlComplete s →
  finalResult s !! m = Some target → matchIndex s c = Some m →
  crossMatch s c = false →
  urlComplete (mergeInto isFromListB s m target c).
Proof.
  intros Hinv Hc Ht Hm Hcross.
  pose proof (lookup_lt_Some _ _ _ Ht) as Hlen.
  unfold mergeInto.
  set (merged := mergeFields _ _).
  fold (recId target) (recUrl target) (recId merged) (recUrl merged).
  intros i r. simpl. destruct (decide (i = m)) as [->|Hne].
  - rewrite list_lookup_insert_eq by done. intros [= <-] Htr.
    rewrite updateUrlMap_lookup. by rewrite bool_decide_eq_true_2.
  - rewrite list_lookup_insert_ne by done. intros Hr Htr.
    pose proof (Hc _ _ Hr Htr) as Hold.
    rewrite updateUrlMap_lookup.
    repeat case_bool_decide; [| |done]; exfalso; destruct_and!.
    + destruct (merged_url_cases isFromListB target c) as [He|He];
        fold merged in He.
      * pose proof (Hc _ _ Ht) as Hm'. rewrite <- He in Hm'.
        specialize (Hm' ltac:(done)). congruence.
      * assert (Hu : existingUrlIndex s c = Some i).
        { unfold existingUrlIndex. fold (recUrl c). rewrite <- He.
          match goal with H : nonEmpty (recUrl merged) = true |- _ => rewrite H end.
          congruence. }
        unfold matchIndex, crossMatch in *. rewrite Hu in *.
        destruct (existingIdIndex s c); simplify_eq.
        apply negb_false_iff, Nat.eqb_eq in Hcross. done.
    + congruence.
Qed.

Lemma step_indexed (isFromListB : bool) (s : state) (currentExt : obj) :
  indexed s → indexed (step isFromListB s currentExt).
Proof.
  intros Hinv. unfold step.
  destruct (matchIndex s (jsonClone currentExt)) as [m|] eqn:Hm.
  - destruct (finalResult s !! m) as [target|] eqn:Ht.
    + by apply mergeInto_indexed.
    + exfalso. unfold matchIndex, existingIdIndex, existingUrlIndex in Hm.
      destruct Hinv as [Hs _ Hu].
      repeat case_match; simplify_eq;
        match goal with
        | H : idToIndexMap _ !! _ = Some _ |- _ => apply Hs in H as (?&?&?)
        | H : urlToIndexMap _ !! _ = Some _ |- _ => apply Hu in H as (?&?&?)
        end; congruence.
  - apply pushNew_indexed; [done|].
    unfold matchIndex in Hm. by destruct (existingIdIndex _ _).
Qed.

Lemma step_urlComplete (isFromListB : bool) (s : state) (currentExt : obj) :
  indexed s → urlComplete s → crossMatch s (jsonClone currentExt) = false →
  urlComplete (step isFromListB s currentExt).
Proof.
  intros Hinv Hc Hcross. unfold step.
  destruct (matchIndex s (jsonClone currentExt)) as [m|] eqn:Hm.
  - destruct (finalResult s !! m) as [target|] eqn:Ht.
    + by apply mergeInto_urlComplete.
    + exfalso. unfold matchIndex, existingIdIndex, existingUrlIndex in Hm.
      destruct Hinv as [Hs _ Hu].
      repeat case_match; simplify_eq;
        match goal with
        | H : idToIndexMap _ !! _ = Some _ |- _ => apply Hs in H as (?&?&?)
        | H : urlToIndexMap _ !! _ = Some _ |- _ => apply Hu in H as (?&?&?)
        end; congruence.
  - apply pushNew_urlComplete; [done|].
    unfold matchIndex in Hm. by destruct (existingIdIndex _ _).
Qed.

Lemma fold_step_indexed (isFromListB : bool) (l : list obj) (s : state) :
  indexed s → indexed (fold_left (step isFromListB) l s).
Proof.
  revert s. induction l as [|c l IH]; intros s Hs; simpl; [done|].
  by apply IH, step_indexed.
Qed.

Lemma fold_step_urlComplete (isFromListB : bool) (l : list obj) (s : state) :
  indexed s → urlComplete s → crossFree isFromListB s l = true →
  urlComplete (fold_left (step isFromListB) l s).
Proof.
  revert s. induction l as [|c l IH]; intros s Hs Hc Hfree; simpl in *; [done|].
  apply andb_true_iff in Hfree as [Hx Hfree]. apply negb_true_iff in Hx.
  apply IH; [by apply step_indexed | by apply step_urlComplete | done].
Qed.

Lemma indexed_uniqueIds (s : state) : indexed s → uniqueIds (finalResult s).
Proof.
  intros [_ Hc _] i j ri rj Hi Hj Ht Heq.
  pose proof (Hc _ _ Hi Ht) as Hi'.
  rewrite Heq in Ht, Hi'. pose proof (Hc _ _ Hj Ht). congruence.
Qed.

Lemma urlComplete_uniqueUrls (s : state) : urlComplete s → uniqueUrls (finalResult s).
Proof.
  intros Hc i j ri rj Hi Hj Hne _ Ht Heq.
  pose proof (Hc _ _ Hi Ht) as Hi'.
  rewrite Heq in Ht, Hi'. pose proof (Hc _ _ Hj Ht). congruence.
Qed.

End RecordInvariant.

(** ** The record reconciler: key uniqueness and field precedence *)

Section RecordClaims.

Import Records.

Lemma run_indexed (L_A L_B : list obj) : indexed (run L_A L_B).
Proof. apply fold_step_indexed, fold_step_indexed, indexed_init. Qed.

(** C1, as stated, fails: the base records [{id:"a", homepageUrl:"u1"}] and
    [{id:"b", homepageUrl:"u2"}] with the incoming record
    [{id:"a", homepageUrl:"u2"}] (matching the first slot by id, the second
    by homepage URL) give two records with different ids and the same
    homepage URL. *)
Lemma C1_cross_match_shares_url :
  let base := [[("id", PStr "a"); ("homepageUrl", PStr "u1")];
               [("id", PStr "b"); ("homepageUrl", PStr "u2")]] in
  let incoming := [[("id", PStr "a"); ("homepageUrl", PStr "u2")]] in
  mergeRecords base incoming
    = [[("id", PStr "a"); ("homepageUrl", PStr "u2");
        ("name", PUndef); ("updateUrl", PUndef)];
       [("id", PStr "b"); ("homepageUrl", PStr "u2")]]
  ∧ ¬ (uniqueIds (mergeRecords base incoming)
       ∧ uniqueUrls (mergeRecords base incoming)).
Proof.
  split; [by vm_compute|].
  intros [_ Hu].
  eapply (Hu 0 1); [by vm_compute|by vm_compute|done| |by vm_compute|by vm_compute].
  by intros [_ ?].
Qed.

(** C1, amended: for every pair of inputs the output of [mergeExtensionLists]
    has no two records sharing a non-empty id; and it has no two records
    carrying the same non-empty homepage URL provided that no record, when
    it is processed, finds one slot under its id and a different slot under
    its homepage URL. *)
Theorem C1_key_uniqueness (listA listB : jsarg elem) :
  uniqueIds (mergeExtensionLists listA listB)
  ∧ (noCrossMatch listA listB = true → uniqueUrls (mergeExtensionLists listA listB)).
Proof.
  unfold mergeExtensionLists, noCrossMatch, run.
  set (L_A := objectsOf _). set (L_B := objectsOf _).
  split.
  - apply indexed_uniqueIds, run_indexed.
  - intros [HA HB]%andb_true_iff.
    apply urlComplete_uniqueUrls, fold_step_urlComplete; [| |done].
    + apply fold_step_indexed, indexed_init.
    + apply fold_step_urlComplete; [apply indexed_init..|done].
Qed.

Lemma C1_key_uniqueness_witness :
  let listA := JArray [EObj [("id", PStr "1"); ("homepageUrl", PStr "http://x")];
                       EPrim PNull;
                       EObj [("id", PStr "2"); ("homepageUrl", PStr "http://y")]] in
  let listB := JArray [EObj [("homepageUrl", PStr "http://x"); ("name", PStr "X")];
                       EObj [("id", PStr "2"); ("name", PStr "Y")]] in
  noCrossMatch listA listB = true
  ∧ uniqueIds (mergeExtensionLists listA listB)
  ∧ uniqueUrls (mergeExtensionLists listA listB).
Proof.
  intros listA listB.
  assert (Hfree : noCrossMatch listA listB = true) by (by vm_compute).
  split; [exact Hfree|].
  split; [apply (C1_key_uniqueness listA listB)|].
  by apply (C1_key_uniqueness listA listB).
Defined.

(** C3, as stated, fails for [name]: an incoming empty name is present but
    empty, so the stated rule keeps the base's "Old", while the code writes
    the empty string. *)
Lemma C3_empty_name_overrides :
  let base := [("id", PStr "x"); ("name", PStr "Old")] in
  let incoming := [("id", PStr "x"); ("name", PStr "")] in
  mergeRecords [base] [incoming]
    = [[("id", PStr "x"); ("name", PStr "");
        ("homepageUrl", PUndef); ("updateUrl", PUndef)]]
  ∧ presentNonEmptyRule base incoming "name" = PStr "Old"
  ∧ ∀ r, mergeRecords [base] [incoming] = [r] →
         getField r "name" ≠ presentNonEmptyRule base incoming "name".
Proof.
  split; [by vm_compute|]. split; [by vm_compute|].
  intros r. vm_compute. by intros [= <-].
Qed.

(** C3, amended: when an incoming record is matched to the slot holding
    [target], the slot receives the merged record, whose [id] is the incoming
    one if truthy, else the slot's; whose [name] and [updateUrl] are the
    incoming ones unless they are [undefined] or [null] (an empty string is
    taken), else the slot's; whose [homepageUrl] is the incoming one unless it
    is [undefined], [null] or empty, else the slot's; and whose every other
    field is the incoming one unless [undefined], else the slot's.  The two
    scenarios of the specification evaluate as stated: one record named
    "New"; and one record that serializes to
    [{id:"1", homepageUrl:"http://x", name:"X"}]. *)
Theorem C3_merge_precedence :
  (∀ (s : state) (currentExt target : obj) (matchedIndex : nat),
     matchIndex s (jsonClone currentExt) = Some matchedIndex →
     finalResult s !! matchedIndex = Some target →
     let incoming := jsonClone currentExt in
     let merged := mergeFields target incoming in
     finalResult (step true s currentExt) = <[matchedIndex := merged]> (finalResult s)
     ∧ getField merged "id" = jsOr (getField incoming "id") (getField target "id")
     ∧ (∀ k, k = "name" ∨ k = "updateUrl" →
          getField merged k =
            if given (getField incoming k) then getField incoming k
            else getField target k)
     ∧ getField merged "homepageUrl" =
         (if given (getField incoming "homepageUrl")
             && negb (strictEq (getField incoming "homepageUrl") (PStr ""))
          then getField incoming "homepageUrl" else getField target "homepageUrl")
     ∧ (∀ k, k ∉ special →
          getField merged k =
            if strictEq (getField incoming k) PUndef then getField target k
            else getField incoming k))
  ∧ (∃ r, mergeRecords [[("id", PStr "x"); ("name", PStr "Old")]]
                       [[("id", PStr "x"); ("name", PStr "New")]] = [r]
          ∧ getField r "name" = PStr "New")
  ∧ (∃ r, mergeRecords [[("id", PStr "1"); ("homepageUrl", PStr "http://x")]]
                       [[("homepageUrl", PStr "http://x"); ("name", PStr "X")]] = [r]
          ∧ jsonClone r = [("id", PStr "1"); ("homepageUrl", PStr "http://x");
                           ("name", PStr "X")]).
Proof.
  split; [|split].
  - intros s currentExt target m Hm Ht incoming merged. subst incoming merged.
    split; [|split; [|split; [|split]]].
    + unfold step. by rewrite Hm, Ht.
    + by rewrite mergeFields_get.
    + intros k [-> | ->]; by rewrite mergeFields_get.
    + by rewrite mergeFields_get.
    + intros k Hk. rewrite mergeFields_get.
      unfold mergedValue, special in *.
      rewrite !decide_False; [done|set_solver..].
  - eexists. split; [by vm_compute|done].
  - eexists. split; [by vm_compute|done].
Qed.

Lemma C3_merge_precedence_witness :
  let s := run [[("id", PStr "x"); ("name", PStr "Old"); ("version", PStr "1")]] [] in
  let currentExt := [("id", PStr "x"); ("name", PStr ""); ("version", PStr "2")] in
  matchIndex s (jsonClone currentExt) = Some 0%nat
  ∧ finalResult (step true s currentExt)
    = [mergeFields [("id", PStr "x"); ("name", PStr "Old"); ("version", PStr "1")]
         (jsonClone currentExt)].
Proof.
  intros s currentExt.
  assert (Hm : matchIndex s (jsonClone currentExt) = Some 0%nat) by (by vm_compute).
  split; [exact Hm|].
  destruct C3_merge_precedence as [H _].
  destruct (H s currentExt _ 0%nat Hm eq_refl) as [-> _]. done.
Defined.

(** Both arguments of [mergeExtensionLists] are tested with [Array.isArray]:
    anything else counts as the empty list. *)
Lemma mergeExtensionLists_not_array (p : prim) (o : obj) (other : jsarg elem) :
  mergeExtensionLists (JPrim p) other = mergeExtensionLists (JArray []) other
  ∧ mergeExtensionLists (JObject o) other = mergeExtensionLists (JArray []) other
  ∧ mergeExtensionLists other (JPrim p) = mergeExtensionLists other (JArray [])
  ∧ mergeExtensionLists other (JObject o) = mergeExtensionLists other (JArray []).
Proof. unfold mergeExtensionLists. by destruct p. Qed.

End RecordClaims.

(** ** The loop of [mergeNodes], case by case *)

Section MergeNodes.

Import Bookmarks.

Lemma node_ind (P : node → Prop) :
  (∀ i t u d o, P (Node i t u d None o)) →
  (∀ i t u d c o, Forall P c → P (Node i t u d (Some c) o)) →
  ∀ n, P n.
Proof.
  intros Hleaf Hfolder. fix IH 1. intros [i t u d [c|] o]; [|apply Hleaf].
  apply Hfolder. induction c as [|x c IHc]; constructor; [apply IH | apply IHc].
Qed.

Lemma mergeNodes_cons (target : list node) (s : node) (source : list node) :
  mergeNodes target (s :: source) = mergeNodes (mergeNode s target) source.
Proof. reflexivity. Qed.

Lemma mergeNodes_app (target source1 source2 : list node) :
  mergeNodes target (source1 ++ source2)
  = mergeNodes (mergeNodes target source1) source2.
Proof. apply fold_left_app. Qed.

Lemma mergeNode_folder (srcNode : node) (srcChildren target : list node) :
  children srcNode = Some srcChildren →
  mergeNode srcNode target =
    match list_find (folderTitled (title srcNode)) target with
    | Some (i, existingFolderInTarget) =>
        if decide (title srcNode = bookmarksBar) then
          <[i := withChildren existingFolderInTarget (Some srcChildren)]> target
        else
          <[i := withChildren (withTitle existingFolderInTarget (title srcNode))
                   (Some (mergeNodes (default [] (children existingFolderInTarget))
                            srcChildren))]> target
    | None => target ++ [srcNode]
    end.
Proof.
  destruct srcNode as [i t u d c o]; simpl. intros ->.
  destruct (list_find _ target) as [[j e]|]; [|done].
  by case_decide.
Qed.

Lemma mergeNode_leaf (srcNode : node) (target : list node) :
  children srcNode = None →
  mergeNode srcNode target =
    if isDuplicateBookmark target srcNode then target else target ++ [srcNode].
Proof. destruct srcNode as [i t u d c o]; simpl. by intros ->. Qed.

End MergeNodes.

(** ** Merging keeps the base forest *)

Section Preservation.

Import Bookmarks.

Lemma withChildren_id (n : node) : withChildren n (children n) = n.
Proof. by destruct n. Qed.

Lemma withTitle_id (n : node) : withTitle n (title n) = n.
Proof. by destruct n. Qed.

Lemma elem_of_incomingChildren (t : option string) (incoming : list node) (x : node) :
  x ∈ incomingChildren t incoming ↔
  ∃ src c, src ∈ incoming ∧ title src = t ∧ children src = Some c ∧ x ∈ c.
Proof.
  unfold incomingChildren. rewrite list_elem_of_join. split.
  - intros (c & Hx & Hc). apply list_elem_of_omap in Hc as (src & Hsrc & Hf).
    case_decide; [|done]. by exists src, c.
  - intros (src & c & Hsrc & Ht & Hc & Hx). exists c. split; [done|].
    apply list_elem_of_omap. exists src. split; [done|]. by rewrite decide_True.
Qed.

Lemma incomingChildren_app (t : option string) (inc1 inc2 : list node) :
  incomingChildren t (inc1 ++ inc2)
  = incomingChildren t inc1 ++ incomingChildren t inc2.
Proof. unfold incomingChildren. by rewrite omap_app, join_app. Qed.

Lemma incomingChildren_mono (t : option string) (inc inc' : list node) :
  inc ⊆ inc' → incomingChildren t inc ⊆ incomingChildren t inc'.
Proof.
  intros Hsub x. rewrite !elem_of_incomingChildren.
  intros (src & c & ? & ?). exists src, c. split; [by apply Hsub|done].
Qed.

(** [Forall2] step through an induction hypothesis that holds for the
    members of the left list only. *)
Lemma Forall2_impl_Forall {A B} (P : A → Prop) (R R' : A → B → Prop) l k :
  Forall P l → Forall2 R l k → (∀ x y, P x → R x y → R' x y) → Forall2 R' l k.
Proof.
  intros HP HR Himpl. induction HR; inversion HP; subst; constructor; auto.
Qed.

Lemma preserved_mono (b : node) :
  ∀ inc inc' r, inc ⊆ inc' → preserved inc b r → preserved inc' b r.
Proof.
  induction b as [i t u d o|i t u d c o IH] using node_ind;
    intros inc inc' r Hsub Hp; inversion Hp; subst; simplify_eq/=;
    try (by constructor); try (by eapply preserved_bar; eauto).
  eapply preserved_merged; [done..|].
  eapply Forall2_impl_Forall; [exact IH|done|].
  intros x y HP HR. eapply HP; [|done]. by apply incomingChildren_mono.
Qed.

Lemma Forall2_compose_Forall {A B C} (P : A → Prop) (R1 : A → B → Prop)
    (R2 : B → C → Prop) (R3 : A → C → Prop) l k m :
  Forall P l → Forall2 R1 l k → Forall2 R2 k m →
  (∀ x y z, P x → R1 x y → R2 y z → R3 x z) → Forall2 R3 l m.
Proof.
  intros HP H1. revert m. induction H1; intros m H2 Hc;
    inversion H2; inversion HP; subst; constructor; eauto.
Qed.

Lemma preserved_compose (a : node) :
  ∀ inc1 inc2 b c,
    preserved inc1 a b → preserved inc2 b c → preserved (inc1 ++ inc2) a c.
Proof.
  induction a as [i t u d o|i t u d ch o IH] using node_ind;
    intros inc1 inc2 b c Hab Hbc.
  - (* a node without children is only ever kept as it is *)
    inversion Hab; subst; simplify_eq/=.
    + eapply preserved_mono; [|done]. set_solver.
    + match goal with H : folderTitled _ (Node _ _ _ _ None _) |- _ =>
        destruct H as [Hs _]; by apply is_Some_None in Hs end.
  - inversion Hab as [| ? ? src1 sc1 Hf1 Hin1 Hsrc1 Hsc1
                        | ? ? cb1 kept1 extra1 Hne1 Hcb1 Hk1]; subst; simplify_eq/=.
    + eapply preserved_mono; [|done]. set_solver.
    + (* replaced, then kept or replaced again *)
      destruct Hf1 as [_ Ht]. simpl in Ht. subst t.
      inversion Hbc as [| ? ? src2 sc2 Hf2 Hin2 Hsrc2 Hsc2
                          | ? ? cb2 kept2 extra2 Hne2 Hcb2 Hk2]; subst; simplify_eq/=.
      * apply (preserved_bar (inc1 ++ inc2)
                 (Node i bookmarksBar u d (Some ch) o) src1 sc1);
          [split; [by eexists|done]|set_solver|done..].
      * apply (preserved_bar (inc1 ++ inc2)
                 (Node i bookmarksBar u d (Some ch) o) src2 sc2);
          [split; [by eexists|done]|set_solver|done..].
    + (* merged, then kept or merged again *)
      inversion Hbc as [| ? ? src2 sc2 Hf2 Hin2 Hsrc2 Hsc2
                          | ? ? cb2 kept2 extra2 Hne2 Hcb2 Hk2]; subst; simplify_eq/=.
      * eapply preserved_mono; [|exact Hab]. set_solver.
      * by destruct Hf2 as [_ ?].
      * apply Forall2_app_inv_l in Hk2 as (k2a & k2b & Hka & Hkb & ->).
        rewrite <- app_assoc.
        apply (preserved_merged (inc1 ++ inc2) (Node i t u d (Some cb1) o)
                 cb1 k2a (k2b ++ extra2)); [done..|].
        simpl. rewrite incomingChildren_app.
        eapply Forall2_compose_Forall; [exact IH|done..|].
        intros x y z HP ??. by eapply HP.
Qed.

Lemma forestPreserved_refl (inc l : list node) : forestPreserved inc l l.
Proof.
  exists l, []. split; [by rewrite app_nil_r|].
  apply Forall2_same_length_lookup_2; [done|].
  intros i x y ??. simplify_eq. constructor.
Qed.

Lemma forestPreserved_push (inc l extra : list node) :
  forestPreserved inc l (l ++ extra).
Proof.
  exists l, extra. split; [done|].
  apply Forall2_same_length_lookup_2; [done|].
  intros i x y ??. simplify_eq. constructor.
Qed.

Lemma forestPreserved_insert (inc l : list node) (i : nat) (e e' : node) :
  l !! i = Some e → preserved inc e e' → forestPreserved inc l (<[i := e']> l).
Proof.
  intros Hi He. exists (<[i := e']> l), []. split; [by rewrite app_nil_r|].
  rewrite <- (list_insert_id l i e) at 1 by done.
  apply Forall2_insert; [|done].
  apply Forall2_same_length_lookup_2; [done|].
  intros j x y ??. simplify_eq. constructor.
Qed.

Lemma forestPreserved_compose (inc1 inc2 a b c : list node) :
  forestPreserved inc1 a b → forestPreserved inc2 b c →
  forestPreserved (inc1 ++ inc2) a c.
Proof.
  intros (k1 & e1 & -> & H1) (k2 & e2 & -> & H2).
  apply Forall2_app_inv_l in H2 as (k2a & k2b & Hka & Hkb & ->).
  exists k2a, (k2b ++ e2). split; [by rewrite app_assoc|].
  eapply (Forall2_compose_Forall (λ _, True)); [|done..|].
  - by apply Forall_forall.
  - intros x y z _. apply preserved_compose.
Qed.

Lemma mergeNodes_preserved_from (source : list node) :
  Forall (λ s, ∀ target, forestPreserved [s] target (mergeNode s target)) source →
  ∀ target, forestPreserved source target (mergeNodes target source).
Proof.
  induction 1 as [|s source Hs _ IH]; intros target.
  - apply forestPreserved_refl.
  - rewrite mergeNodes_cons. change (s :: source) with ([s] ++ source).
    eapply forestPreserved_compose; [apply Hs|apply IH].
Qed.

Lemma mergeNode_preserved (s : node) :
  ∀ target, forestPreserved [s] target (mergeNode s target).
Proof.
  induction s as [i t u d o|i t u d c o IH] using node_ind; intros target.
  - rewrite mergeNode_leaf by done.
    destruct (isDuplicateBookmark _ _);
      [apply forestPreserved_refl|apply forestPreserved_push].
  - rewrite (mergeNode_folder _ c) by done. simpl.
    destruct (list_find _ target) as [[j e]|] eqn:Hfind;
      [|apply forestPreserved_push].
    apply list_find_Some in Hfind as (Hj & [[ce Hce] Hte] & _).
    case_decide as Hbar.
    + eapply forestPreserved_insert; [done|].
      apply (preserved_bar _ e (Node i t u d (Some c) o) c).
      * split; [by eexists|congruence].
      * by apply list_elem_of_singleton.
      * split; [by eexists|done].
      * done.
    + rewrite <- Hte, withTitle_id, Hce. simpl.
      eapply forestPreserved_insert; [done|].
      destruct (mergeNodes_preserved_from c IH ce) as (kept & extra & -> & Hk).
      eapply preserved_merged; [congruence|done|].
      unfold incomingChildren. simpl. rewrite decide_True by done.
      simpl. by rewrite app_nil_r.
Qed.

Lemma mergeNodes_preserved (target source : list node) :
  forestPreserved source target (mergeNodes target source).
Proof.
  apply mergeNodes_preserved_from, Forall_forall.
  intros s _. apply mergeNode_preserved.
Qed.

End Preservation.

(** ** What a merge step leaves alone *)

Section MergeSteps.

Import Bookmarks.

Lemma preserved_fields (inc : list node) (b r : node) :
  preserved inc b r →
  nodeId r = nodeId b ∧ title r = title b ∧ url r = url b
  ∧ dateAdded r = dateAdded b ∧ other r = other b
  ∧ (is_Some (children r) ↔ is_Some (children b))
  ∧ (children b = None → r = b).
Proof.
  inversion 1 as [| ? ? src sc Hf Hin Hsrc Hsc | ? ? cb kept extra Hne Hcb Hk];
    subst; simpl.
  - done.
  - destruct Hf as [Hs _]. do 5 (split; [done|]). split.
    + split; [done|]. by eexists.
    + intros Hn. rewrite Hn in Hs. by apply is_Some_None in Hs.
  - do 5 (split; [done|]). split.
    + rewrite Hcb. split; by eexists.
    + congruence.
Qed.

Lemma preserved_withChildren (inc : list node) (b r : node) c :
  preserved inc b r → withChildren r c = withChildren b c.
Proof.
  intros (?&?&?&?&?&_)%preserved_fields. unfold withChildren. congruence.
Qed.

Lemma preserved_folderTitled (inc : list node) (b r : node) t :
  preserved inc b r → folderTitled t r ↔ folderTitled t b.
Proof.
  intros (_&Ht&_&_&_&Hc&_)%preserved_fields. unfold folderTitled.
  by rewrite Ht, Hc.
Qed.

Lemma forestPreserved_lookup (inc base result : list node) (i : nat) (b : node) :
  forestPreserved inc base result → base !! i = Some b →
  ∃ r, result !! i = Some r ∧ preserved inc b r.
Proof.
  intros (kept & extra & -> & Hk) Hb.
  destruct (Forall2_lookup_l _ _ _ _ _ Hk Hb) as (r & Hr & Hp).
  exists r. split; [by apply lookup_app_l_Some|done].
Qed.

(** The first folder of a given title stays the first one, at the same
    index. *)
Lemma forestPreserved_find (inc target result : list node) t (i : nat) (e : node) :
  forestPreserved inc target result →
  list_find (folderTitled t) target = Some (i, e) →
  ∃ e', list_find (folderTitled t) result = Some (i, e') ∧ preserved inc e e'.
Proof.
  intros Hp (Hi & He & Hleast)%list_find_Some.
  destruct (forestPreserved_lookup _ _ _ _ _ Hp Hi) as (e' & Hi' & He').
  exists e'. split; [|done]. apply list_find_Some. split_and!; [done| |].
  - by apply (preserved_folderTitled _ _ _ _ He').
  - intros j y' Hj Hlt Hy'.
    destruct (lookup_lt_is_Some_2 target j) as [y Hy].
    { apply lookup_lt_Some in Hi. lia. }
    destruct (forestPreserved_lookup _ _ _ _ _ Hp Hy) as (y2 & Hj2 & Hy2).
    simplify_eq. eapply Hleast; [done..|].
    by apply (preserved_folderTitled _ _ _ _ Hy2).
Qed.

(** A node that is not a folder titled [t] leaves the first folder titled
    [t] as it is. *)
Lemma mergeNode_other (s : node) (target : list node) t (i : nat) (e : node) :
  list_find (folderTitled t) target = Some (i, e) →
  ¬ folderTitled t s →
  list_find (folderTitled t) (mergeNode s target) = Some (i, e).
Proof.
  intros Hfind Hs.
  destruct (forestPreserved_find _ _ _ _ _ _ (mergeNode_preserved s target) Hfind)
    as (e' & Hfind' & _).
  rewrite Hfind'. do 2 f_equal.
  apply list_find_Some in Hfind as (Hi & He & _).
  apply list_find_Some in Hfind' as (Hi' & _ & _).
  destruct (children s) as [sc|] eqn:Hsc.
  - rewrite (mergeNode_folder _ sc) in Hi' by done.
    destruct (list_find _ target) as [[j e2]|] eqn:Hfind2.
    + apply list_find_Some in Hfind2 as (Hj & [_ He2] & _).
      assert (i ≠ j).
      { intros ->. simplify_eq. destruct He as [_ He]. apply Hs.
        split; [by eexists|]. congruence. }
      case_decide; rewrite list_lookup_insert_ne in Hi' by done; congruence.
    + rewrite lookup_app_l in Hi' by (by eapply lookup_lt_Some). congruence.
  - rewrite mergeNode_leaf in Hi' by done.
    destruct (isDuplicateBookmark _ _); [congruence|].
    rewrite lookup_app_l in Hi' by (by eapply lookup_lt_Some). congruence.
Qed.

Lemma mergeNodes_other (source target : list node) t (i : nat) (e : node) :
  list_find (folderTitled t) target = Some (i, e) →
  Forall (λ s, ¬ folderTitled t s) source →
  list_find (folderTitled t) (mergeNodes target source) = Some (i, e).
Proof.
  intros Hfind Hs. revert target Hfind.
  induction Hs as [|s source Hs _ IH]; intros target Hfind; [done|].
  rewrite mergeNodes_cons. by apply IH, mergeNode_other.
Qed.

End MergeSteps.

(** ** The tree reconciler: the Bookmarks Bar and the base forest *)

Section BarAndBase.

Import Bookmarks.

(** C10: [mergeBookmarkTrees] on two arrays returns the merged forest, and
    the base forest is preserved in it: the result starts with one node per
    base node, in the same order and with every field but [children] intact;
    a node without children is unchanged; a folder's children are preserved
    in turn, possibly followed by appended nodes; the one exception is a base
    folder titled 'Bookmarks Bar' for which a same-titled incoming folder
    exists, whose children are those of that incoming folder. *)
Theorem C10_base_preserved (base incoming : list node) :
  mergeBookmarkTrees (JArray base) (JArray incoming)
    = Returned (JArray (INode <$> mergeTrees base incoming))
  ∧ forestPreserved incoming base (mergeTrees base incoming)
  ∧ ∀ i b, base !! i = Some b →
      ∃ r, mergeTrees base incoming !! i = Some r
           ∧ nodeId r = nodeId b ∧ title r = title b ∧ url r = url b
           ∧ dateAdded r = dateAdded b ∧ other r = other b
           ∧ (is_Some (children r) ↔ is_Some (children b))
           ∧ (children b = None → r = b).
Proof.
  split; [done|]. split; [apply mergeNodes_preserved|].
  intros i b Hb.
  destruct (forestPreserved_lookup _ _ _ _ _ (mergeNodes_preserved base incoming) Hb)
    as (r & Hr & Hp).
  exists r. split; [done|]. by eapply preserved_fields.
Qed.

Lemma C10_base_preserved_witness :
  let leaf t u := Node None (Some t) (Some u) None None [] in
  let base := [leaf "Home" "http://home";
               Node (Some "7") (Some "Work") None (Some 5%Z)
                 (Some [leaf "A" "http://a"]) [("index", PNum 0)]] in
  let incoming := [Node None (Some "Work") None None (Some [leaf "B" "http://b"]) [];
                   leaf "Home" "http://home"; leaf "New" "http://new"] in
  base !! 1 = Some (Node (Some "7") (Some "Work") None (Some 5%Z)
                      (Some [leaf "A" "http://a"]) [("index", PNum 0)])
  ∧ mergeTrees base incoming
    = [leaf "Home" "http://home";
       Node (Some "7") (Some "Work") None (Some 5%Z)
         (Some [leaf "A" "http://a"; leaf "B" "http://b"]) [("index", PNum 0)];
       leaf "New" "http://new"]
  ∧ ∃ r, mergeTrees base incoming !! 1 = Some r
         ∧ nodeId r = Some "7" ∧ other r = [("index", PNum 0)].
Proof.
  intros leaf base incoming.
  split; [reflexivity|]. split; [by vm_compute|].
  destruct (C10_base_preserved base incoming) as (_ & _ & H).
  destruct (H 1 _ eq_refl) as (r & Hr & Hid & _ & _ & _ & Hother & _).
  exists r. by split_and!.
Defined.

(** C4: an incoming folder titled 'Bookmarks Bar' that finds a folder of that
    title in the result built so far replaces that folder's children with its
    own, whatever they were; and when the base has such a folder, it ends
    with exactly the children of the last incoming folder of that title,
    every other field as in the base. *)
Theorem C4_bookmarks_bar_replaced :
  (∀ (target : list node) (src : node) (srcChildren : list node)
     (i : nat) (existing : node),
     title src = bookmarksBar → children src = Some srcChildren →
     list_find (folderTitled bookmarksBar) target = Some (i, existing) →
     mergeNode src target = <[i := withChildren existing (Some srcChildren)]> target)
  ∧ (∀ (base pre post : list node) (src : node) (srcChildren : list node)
       (i : nat) (existing : node),
       title src = bookmarksBar → children src = Some srcChildren →
       Forall (λ n, ¬ folderTitled bookmarksBar n) post →
       list_find (folderTitled bookmarksBar) base = Some (i, existing) →
       list_find (folderTitled bookmarksBar) (mergeTrees base (pre ++ src :: post))
         = Some (i, withChildren existing (Some srcChildren))).
Proof.
  assert (Hstep : ∀ (target : list node) (src : node) (srcChildren : list node)
     (i : nat) (existing : node),
     title src = bookmarksBar → children src = Some srcChildren →
     list_find (folderTitled bookmarksBar) target = Some (i, existing) →
     mergeNode src target = <[i := withChildren existing (Some srcChildren)]> target).
  { intros target src sc i e Ht Hsc Hfind.
    rewrite (mergeNode_folder _ sc) by done. rewrite Ht, Hfind.
    by rewrite decide_True. }
  split; [exact Hstep|].
  intros base pre post src sc i e Ht Hsc Hpost Hfind.
  unfold mergeTrees. rewrite mergeNodes_app, mergeNodes_cons.
  destruct (forestPreserved_find _ _ _ _ _ _ (mergeNodes_preserved base pre) Hfind)
    as (e' & Hfind' & He').
  rewrite (Hstep _ _ _ _ _ Ht Hsc Hfind').
  apply mergeNodes_other; [|done].
  rewrite (preserved_withChildren _ _ _ _ He').
  apply list_find_Some in Hfind' as (Hi & Hf & Hleast).
  apply list_find_Some. split_and!.
  - apply list_lookup_insert_eq. by eapply lookup_lt_Some.
  - destruct Hf as [_ Hte]. split; [by eexists|].
    apply preserved_fields in He' as (_ & Hte' & _). simpl. congruence.
  - intros j y Hj Hlt. rewrite list_lookup_insert_ne in Hj by lia. by eapply Hleast.
Qed.

Lemma C4_bookmarks_bar_replaced_witness :
  let leaf t u := Node None (Some t) (Some u) None None [] in
  let bar c := Node (Some "1") bookmarksBar None None (Some c) [] in
  let base := [leaf "Home" "http://home"; bar [leaf "A" "http://a"]] in
  let src := Node None bookmarksBar None None (Some [leaf "B" "http://b"]) [] in
  list_find (folderTitled bookmarksBar) base = Some (1, bar [leaf "A" "http://a"])
  ∧ list_find (folderTitled bookmarksBar) (mergeTrees base ([] ++ src :: []))
    = Some (1, bar [leaf "B" "http://b"]).
Proof.
  intros leaf bar base src.
  assert (Hfind : list_find (folderTitled bookmarksBar) base
                  = Some (1, bar [leaf "A" "http://a"])) by (by vm_compute).
  split; [exact Hfind|].
  destruct C4_bookmarks_bar_replaced as [_ H].
  apply (H base [] [] src [leaf "B" "http://b"] 1 (bar [leaf "A" "http://a"]));
    [reflexivity|reflexivity|constructor|exact Hfind].
Defined.

End BarAndBase.

(** ** The tree reconciler: folders of one title, leaves of one key *)

Section FoldersAndLeaves.

Import Bookmarks.

Lemma length_filter_insert {A} (P : A → Prop) `{!∀ x, Decision (P x)}
    (l : list A) (j : nat) (x y : A) :
  l !! j = Some x → (P x ↔ P y) →
  length (filter P (<[j := y]> l)) = length (filter P l).
Proof.
  revert j. induction l as [|a l IH]; intros [|j] Hj Hxy; simplify_eq/=.
  - rewrite !filter_cons. repeat case_decide; naive_solver.
  - rewrite !filter_cons. case_decide; simpl; by rewrite (IH j).
Qed.

Lemma incomingChildren_cons_folder t (s : node) (sc incoming : list node) :
  title s = t → children s = Some sc →
  incomingChildren t (s :: incoming) = sc ++ incomingChildren t incoming.
Proof.
  intros Ht Hsc. unfold incomingChildren. simpl.
  by rewrite decide_True, Hsc.
Qed.

Lemma incomingChildren_cons_other t (s : node) (incoming : list node) :
  ¬ folderTitled t s →
  incomingChildren t (s :: incoming) = incomingChildren t incoming.
Proof.
  intros Hs. unfold incomingChildren. simpl.
  case_decide as Ht; [|done].
  destruct (children s) as [sc|] eqn:Hsc; [|done].
  destruct Hs. split; [by eexists|done].
Qed.

(** The first folder titled [t] (other than the Bookmarks Bar) receives, in
    order, the children of every incoming folder of that title. *)
Lemma mergeNodes_folder (incoming : list node) :
  ∀ (target : list node) t (i : nat) (e : node) (ce : list node),
    t ≠ bookmarksBar →
    list_find (folderTitled t) target = Some (i, e) → children e = Some ce →
    list_find (folderTitled t) (mergeNodes target incoming)
    = Some (i, withChildren e
                 (Some (mergeNodes ce (incomingChildren t incoming)))).
Proof.
  induction incoming as [|s incoming IH]; intros target t i e ce Hne Hfind Hce.
  - simpl. by rewrite <- Hce, withChildren_id.
  - rewrite mergeNodes_cons.
    destruct (decide (folderTitled t s)) as [[[sc Hsc] Ht]|Hs].
    + rewrite (incomingChildren_cons_folder _ _ sc) by done.
      rewrite mergeNodes_app.
      pose proof Hfind as (Hi & [_ Hte] & Hleast)%list_find_Some.
      rewrite (mergeNode_folder _ sc), Ht, Hfind, decide_False by congruence.
      replace (withTitle e t) with e by (by rewrite <- Hte, withTitle_id).
      rewrite Hce. simpl.
      rewrite (IH _ t i (withChildren e (Some (mergeNodes ce sc)))
                 (mergeNodes ce sc)); [|done| |done].
      * done.
      * apply list_find_Some. split_and!.
        -- apply list_lookup_insert_eq. by eapply lookup_lt_Some.
        -- split; [by eexists|done].
        -- intros j y Hj Hlt. rewrite list_lookup_insert_ne in Hj by lia.
           by eapply Hleast.
    + rewrite incomingChildren_cons_other by done.
      apply IH; [done| |done]. by apply mergeNode_other.
Qed.

(** No second folder of a title is created while one exists. *)
Lemma mergeNode_countFolders (s : node) (target : list node) t :
  is_Some (list_find (folderTitled t) target) →
  countFolders t (mergeNode s target) = countFolders t target.
Proof.
  intros [[i e] Hfind]. unfold countFolders.
  destruct (children s) as [sc|] eqn:Hsc.
  - rewrite (mergeNode_folder _ sc) by done.
    destruct (list_find (folderTitled (title s)) target) as [[j e2]|] eqn:Hfind2.
    + apply list_find_Some in Hfind2 as (Hj & [[ce Hce] He2] & _).
      case_decide; (eapply length_filter_insert; [done|]);
        unfold folderTitled; simpl; rewrite ?Hce; naive_solver.
    + rewrite filter_app, length_app. simpl.
      rewrite filter_cons_False, filter_nil; [simpl; lia|].
      intros [_ Ht]. rewrite Ht in Hfind2. congruence.
  - rewrite mergeNode_leaf by done.
    destruct (isDuplicateBookmark _ _); [done|].
    rewrite filter_app, length_app. simpl.
    rewrite filter_cons_False, filter_nil; [simpl; lia|].
    intros [Hs _]. rewrite Hsc in Hs. by apply is_Some_None in Hs.
Qed.

Lemma mergeNodes_countFolders (source target : list node) t :
  is_Some (list_find (folderTitled t) target) →
  countFolders t (mergeNodes target source) = countFolders t target.
Proof.
  revert target. induction source as [|s source IH]; intros target Hsome; [done|].
  rewrite mergeNodes_cons, IH, mergeNode_countFolders; [done..|].
  destruct Hsome as [[i e] Hfind].
  destruct (forestPreserved_find _ _ _ _ _ _ (mergeNode_preserved s target) Hfind)
    as (e' & -> & _). by eexists.
Qed.

Lemma isDuplicateBookmark_true (target : list node) (n : node) :
  isDuplicateBookmark target n = true ↔
  ∃ x, x ∈ target ∧ present (url x) = true ∧ present (url n) = true
       ∧ url x = url n ∧ title x = title n.
Proof.
  unfold isDuplicateBookmark. induction target as [|a l IH]; simpl.
  - split; [done|]. intros (x & Hx & _). by apply elem_of_nil in Hx.
  - rewrite orb_true_iff, IH, !andb_true_iff, !bool_decide_eq_true.
    setoid_rewrite elem_of_cons. naive_solver.
Qed.

Lemma forestPreserved_keyed (inc target result : list node) (u t : option string) :
  forestPreserved inc target result →
  (∃ x, x ∈ target ∧ url x = u ∧ title x = t) →
  ∃ x, x ∈ result ∧ url x = u ∧ title x = t.
Proof.
  intros Hp (x & [k Hk]%list_elem_of_lookup_1 & Hu & Ht).
  destruct (forestPreserved_lookup _ _ _ _ _ Hp Hk) as (r & Hr & Hpr).
  apply preserved_fields in Hpr as (_ & ? & ? & _).
  exists r. split; [by eapply list_elem_of_lookup_2|]. split; congruence.
Qed.

(** A node without children is never touched. *)
Lemma forestPreserved_leaf (inc target result : list node) (L : node) :
  forestPreserved inc target result → L ∈ target → children L = None → L ∈ result.
Proof.
  intros Hp [k Hk]%list_elem_of_lookup_1 HL.
  destruct (forestPreserved_lookup _ _ _ _ _ Hp Hk) as (r & Hr & Hpr).
  apply preserved_fields in Hpr as (_ & _ & _ & _ & _ & _ & Heq).
  rewrite (Heq HL) in Hr. by eapply list_elem_of_lookup_2.
Qed.

(** Every incoming node without children is in the result, or a node of the
    same [url] and [title] is. *)
Lemma mergeNodes_incoming_leaf (source : list node) :
  ∀ (target : list node) (L : node),
    L ∈ source → children L = None →
    ∃ L', L' ∈ mergeNodes target source ∧ url L' = url L ∧ title L' = title L.
Proof.
  induction source as [|s source IH]; intros target L HL Hleaf.
  - by apply elem_of_nil in HL.
  - rewrite mergeNodes_cons. apply elem_of_cons in HL as [->|HL]; [|by apply IH].
    apply (forestPreserved_keyed source (mergeNode s target));
      [apply mergeNodes_preserved|].
    rewrite mergeNode_leaf by done.
    destruct (isDuplicateBookmark target s) eqn:Hdup.
    + apply isDuplicateBookmark_true in Hdup as (x & ? & _ & _ & ? & ?). by exists x.
    + exists s. split; [|done]. apply elem_of_app. right. by apply list_elem_of_singleton.
Qed.

(** While a node of a given non-empty [url] and [title] exists, no node
    without children is added under that key. *)
Lemma mergeNode_countLeaves (s : node) (target : list node) (u t : option string) :
  present u = true →
  (∃ x, x ∈ target ∧ url x = u ∧ title x = t) →
  countLeaves u t (mergeNode s target) = countLeaves u t target.
Proof.
  intros Hu (x & Hx & Hxu & Hxt). unfold countLeaves.
  destruct (children s) as [sc|] eqn:Hsc.
  - rewrite (mergeNode_folder _ sc) by done.
    destruct (list_find (folderTitled (title s)) target) as [[j e2]|] eqn:Hfind2.
    + apply list_find_Some in Hfind2 as (Hj & [[ce Hce] He2] & _).
      case_decide; (eapply length_filter_insert; [done|]);
        unfold leafWithKey; simpl; rewrite ?Hce; naive_solver.
    + rewrite filter_app, length_app. simpl.
      rewrite filter_cons_False, filter_nil; [simpl; lia|].
      intros [Hs _]. congruence.
  - rewrite mergeNode_leaf by done.
    destruct (isDuplicateBookmark target s) eqn:Hdup; [done|].
    rewrite filter_app, length_app. simpl.
    rewrite filter_cons_False, filter_nil; [simpl; lia|].
    intros (_ & Hsu & Hst).
    assert (isDuplicateBookmark target s = true); [|congruence].
    apply isDuplicateBookmark_true. exists x.
    split_and!; [done|congruence|congruence|congruence|congruence].
Qed.

Lemma mergeNodes_countLeaves (source target : list node) (u t : option string) :
  present u = true →
  (∃ x, x ∈ target ∧ url x = u ∧ title x = t) →
  countLeaves u t (mergeNodes target source) = countLeaves u t target.
Proof.
  intros Hu. revert target.
  induction source as [|s source IH]; intros target Hx; [done|].
  rewrite mergeNodes_cons, IH, mergeNode_countLeaves; [done..|].
  eapply forestPreserved_keyed; [apply mergeNode_preserved|done].
Qed.

(** *** Below the folders *)

Lemma atPath_impl (P Q : node → Prop) (path : list (option string)) :
  (∀ x, P x → Q x) → ∀ l, atPath P path l → atPath Q path l.
Proof.
  intros HPQ. induction path as [|t path IH]; intros l; simpl.
  - intros (x & Hx & HP). exists x. auto.
  - intros (f & c & Hf & Ht & Hc & Hat). exists f, c. auto.
Qed.

Lemma preserved_folder (inc : list node) (b r : node) (c : list node) :
  preserved inc b r → title b ≠ bookmarksBar → children b = Some c →
  ∃ c', children r = Some c' ∧ title r = title b
        ∧ forestPreserved (incomingChildren (title b) inc) c c'.
Proof.
  intros Hp Ht Hc. destruct Hp as [inc n | inc n src sc Hf | inc n cb kept extra Hne Hcb Hk].
  - exists c. split_and!; [done..|apply forestPreserved_refl].
  - destruct Hf as [_ Hbar]. congruence.
  - exists (kept ++ extra). split_and!; [done..|].
    assert (cb = c) as -> by congruence. by exists kept, extra.
Qed.

Lemma forestPreserved_atPath (Q : node → Prop) (path : list (option string)) :
  (∀ inc b r, preserved inc b r → Q b → Q r) →
  Forall (λ t, t ≠ bookmarksBar) path →
  ∀ inc base result,
    forestPreserved inc base result → atPath Q path base → atPath Q path result.
Proof.
  intros HQ. induction 1 as [|t path Ht _ IH]; intros inc base result Hp; simpl.
  - intros (x & Hx & HQx).
    apply list_elem_of_lookup_1 in Hx as [i Hi].
    destruct (forestPreserved_lookup _ _ _ _ _ Hp Hi) as (r & Hr & Hbr).
    exists r. split; [by eapply list_elem_of_lookup_2|by eapply HQ].
  - intros (f & c & Hf & Hft & Hc & Hat).
    apply list_elem_of_lookup_1 in Hf as [i Hi].
    destruct (forestPreserved_lookup _ _ _ _ _ Hp Hi) as (r & Hr & Hbr).
    apply list_elem_of_lookup_2 in Hr.
    destruct (preserved_folder _ _ _ c Hbr) as (c' & Hc' & Hrt & Hcc');
      [congruence|done|].
    exists r, c'. split_and!; [done|congruence|done|by eapply IH].
Qed.

Lemma mergeNodes_atPath_incoming (path : list (option string)) :
  Forall (λ t, t ≠ bookmarksBar) path →
  ∀ (source target : list node) (L : node),
    children L = None →
    atPath (λ x, x = L) path source →
    atPath (λ x, url x = url L ∧ title x = title L) path (mergeNodes target source).
Proof.
  induction 1 as [|t path Ht Hpath IH]; intros source target L HL; simpl.
  - intros (x & Hx & ->). by apply mergeNodes_incoming_leaf.
  - intros (F & c & HF & HFt & HFc & Hat).
    apply list_elem_of_split in HF as (s1 & s2 & ->).
    rewrite mergeNodes_app, mergeNodes_cons.
    set (target1 := mergeNodes target s1).
    assert (∃ j e2 m, mergeNode F target1 !! j = Some e2 ∧ title e2 = t
                      ∧ children e2 = Some m
                      ∧ atPath (λ x, url x = url L ∧ title x = title L) path m)
      as (j & e2 & m & Hj & He2t & He2c & Hm).
    { rewrite (mergeNode_folder _ c) by done.
      destruct (list_find (folderTitled (title F)) target1) as [[j e]|] eqn:Hfind.
      - apply list_find_Some in Hfind as (Hj & _ & _).
        rewrite decide_False by congruence.
        eexists j, _, _. split; [|split; [|split]].
        + apply list_lookup_insert_eq. by eapply lookup_lt_Some.
        + done.
        + done.
        + by apply IH.
      - exists (length target1), F, c. split; [|split; [done|split; [done|]]].
        + by rewrite lookup_app_r, Nat.sub_diag.
        + eapply atPath_impl; [|done]. by intros x ->. }
    destruct (forestPreserved_lookup s2 _ _ j e2
                (mergeNodes_preserved (mergeNode F target1) s2) Hj)
      as (r & Hr & Hpr).
    apply list_elem_of_lookup_2 in Hr.
    destruct (preserved_folder _ _ _ m Hpr) as (m' & Hm' & Hrt & Hmm');
      [congruence|done|].
    exists r, m'. split_and!; [done|congruence|done|].
    eapply (forestPreserved_atPath _ path); [|done|done|done].
    intros inc b r' Hb [Hu Htt].
    apply preserved_fields in Hb as (_ & Hbt & Hbu & _). split; congruence.
Qed.

Lemma mergeNodes_atPath_base (path : list (option string)) :
  Forall (λ t, t ≠ bookmarksBar) path →
  ∀ (source target : list node) (L : node),
    children L = None →
    atPath (λ x, x = L) path target →
    atPath (λ x, x = L) path (mergeNodes target source).
Proof.
  intros Hpath source target L HL.
  apply (forestPreserved_atPath _ path) with (inc := source); [|done|].
  - intros inc b r Hb ->.
    by apply preserved_fields in Hb as (_ & _ & _ & _ & _ & _ & ->).
  - apply mergeNodes_preserved.
Qed.

Lemma mergeNode_countFolders_max (s : node) (target : list node) t :
  countFolders t (mergeNode s target)
  = Nat.max (countFolders t target) (if decide (folderTitled t s) then 1 else 0).
Proof.
  destruct (list_find (folderTitled t) target) as [[i e]|] eqn:Hfind.
  - rewrite mergeNode_countFolders by (by eexists).
    assert (countFolders t target ≠ 0); [|case_decide; lia].
    apply list_find_Some in Hfind as (Hi & He & _).
    unfold countFolders. intros Hz%length_zero_iff_nil.
    assert (e ∈ filter (folderTitled t) target) as Hin
      by (apply list_elem_of_filter; split; [done|by eapply list_elem_of_lookup_2]).
    rewrite Hz in Hin. by apply elem_of_nil in Hin.
  - assert (countFolders t target = 0) as Hz.
    { unfold countFolders. apply length_zero_iff_nil.
      destruct (filter (folderTitled t) target) as [|x l'] eqn:E; [done|].
      assert (x ∈ filter (folderTitled t) target) as [? ?]%list_elem_of_filter
        by (rewrite E; apply list_elem_of_here).
      apply list_find_None in Hfind. rewrite Forall_forall in Hfind.
      by destruct (Hfind x). }
    rewrite Hz. unfold countFolders in *.
    destruct (children s) as [sc|] eqn:Hsc.
    + rewrite (mergeNode_folder _ sc) by done.
      destruct (list_find (folderTitled (title s)) target) as [[j e2]|] eqn:Hfind2.
      * apply list_find_Some in Hfind2 as (Hj & [[ce Hce] He2] & _).
        assert (¬ folderTitled t s) as Hns.
        { intros [_ Hts]. apply list_find_None in Hfind. rewrite Forall_forall in Hfind.
          apply (Hfind e2); [by eapply list_elem_of_lookup_2|].
          split; [by eexists|congruence]. }
        destruct (decide (folderTitled t s)) as [?|_]; [done|].
        assert (∀ y, (folderTitled t e2 ↔ folderTitled t y) →
                  length (filter (folderTitled t) (<[j := y]> target)) = Nat.max 0 0)
          as Hins.
        { intros y Hy. by rewrite (length_filter_insert _ _ _ e2 y Hj Hy). }
        case_decide; apply Hins; unfold folderTitled; simpl; rewrite ?Hce;
          naive_solver.
      * rewrite filter_app, length_app, Hz, filter_cons, filter_nil.
        by case_decide.
    + rewrite mergeNode_leaf by done.
      destruct (decide (folderTitled t s)) as [[[? ?] _]|_]; [congruence|].
      destruct (isDuplicateBookmark target s); [by rewrite Hz|].
      rewrite filter_app, length_app, Hz, filter_cons_False, filter_nil; [done|].
      intros [[? ?] _]; congruence.
Qed.

Lemma mergeNodes_countFolders_max (source target : list node) t :
  countFolders t (mergeNodes target source)
  = Nat.max (countFolders t target) (Nat.min 1 (countFolders t source)).
Proof.
  revert target. induction source as [|s source IH]; intros target.
  - change (countFolders t []) with 0. simpl. lia.
  - rewrite mergeNodes_cons, IH, mergeNode_countFolders_max.
    unfold countFolders. rewrite filter_cons.
    destruct (decide (folderTitled t s)); rewrite ?length_cons; lia.
Qed.

End FoldersAndLeaves.

(** ** Arguments that are not arrays *)

Section NotAnArray.

Import Bookmarks.

(** C2 holds for [mergeExtensionLists] (see [mergeExtensionLists_not_array])
    and fails for [mergeBookmarkTrees], which has default parameters but no
    array test: with a base that is not an array (and not [undefined]) the
    first incoming node raises; with an incoming value that is neither an
    array nor a string the loop raises; an incoming string is iterated
    character by character.  With an empty array in place of the malformed
    argument the call returns normally. *)
Theorem C2_bookmark_merge_raises :
  let leaf := Node None (Some "A") (Some "http://a") None None [] in
  (∀ (listA : jsarg node) (n : node) (l : list node),
     match listA with JArray _ | JPrim PUndef => False | _ => True end →
     mergeBookmarkTrees listA (JArray (n :: l)) = Threw)
  ∧ (∀ (listA listB : jsarg node),
       match listB with JArray _ | JPrim PUndef | JPrim (PStr _) => False | _ => True end →
       mergeBookmarkTrees listA listB = Threw)
  ∧ mergeBookmarkTrees (JObject []) (JArray [leaf]) = Threw
  ∧ mergeBookmarkTrees (JPrim PNull) (JArray [leaf]) = Threw
  ∧ mergeBookmarkTrees (JArray []) (JArray [leaf]) = Returned (JArray [INode leaf])
  ∧ mergeBookmarkTrees (JArray [leaf]) (JPrim (PNum 5)) = Threw
  ∧ mergeBookmarkTrees (JArray [leaf]) (JArray []) = Returned (JArray [INode leaf])
  ∧ mergeBookmarkTrees (JArray [leaf]) (JPrim (PStr "ab"))
    = Returned (JArray [INode leaf; IChar "a"; IChar "b"])
  ∧ mergeBookmarkTrees (JPrim PNull) (JArray []) = Returned (JPrim PNull).
Proof.
  intros leaf. split_and!; try done.
  - intros [[]|?|?] ? ? H; done.
  - intros listA [[]|?|?] H; try done; by destruct listA as [[]|?|?].
Qed.

Lemma C2_bookmark_merge_raises_witness :
  mergeBookmarkTrees (JObject [("a", PNum 1)])
    (JArray [Node None (Some "A") (Some "http://a") None None []]) = Threw
  ∧ mergeBookmarkTrees
      (JArray [Node None (Some "A") (Some "http://a") None None []])
      (JPrim (PBool true)) = Threw.
Proof.
  destruct C2_bookmark_merge_raises as (H1 & H2 & _).
  split; [apply H1; exact I|apply H2; exact I].
Defined.

End NotAnArray.

(** ** The tree reconciler: same-titled folders and idempotence *)

Section MergeAndIdempotence.

Import Bookmarks.

(** C5, as stated, fails.  Only the first base folder of a title receives
    the incoming folders of that title: a base with two folders titled
    'Work' keeps both.  A leaf that the base folder holds twice stays twice;
    and a leaf with an empty [url] is never taken for a duplicate, so that
    merging adds it once more. *)
Lemma C5_folders_and_leaves_stay_double :
  let leaf t u := Node None (Some t) (Some u) None None [] in
  let work c := Node None (Some "Work") None None (Some c) [] in
  let A := leaf "A" "http://a" in
  let B := leaf "B" "http://b" in
  let C := leaf "C" "http://c" in
  let E := leaf "E" "" in
  mergeTrees [work [A]; work [B]] [work [C]] = [work [A; C]; work [B]]
  ∧ countFolders (Some "Work") (mergeTrees [work [A]; work [B]] [work [C]]) = 2
  ∧ mergeTrees [work [A; A]] [work [A]] = [work [A; A]]
  ∧ countLeaves (Some "http://a") (Some "A") [A; A] = 2
  ∧ mergeTrees [work [E]] [work [E]] = [work [E; E]]
  ∧ countLeaves (Some "") (Some "E") [E; E] = 2.
Proof. by vm_compute. Qed.

(** C5, amended.  Merging creates a folder of a title only when the base
    has none: the result has as many folders titled [t] as the base, or one
    when the base has none and the incoming list has some; an incoming folder
    is never dropped.  When the base has a folder titled [t] (not
    'Bookmarks Bar'), the first such folder stays where it is and ends with
    the recursive merge of its children with the children of the incoming
    folders of that title.  In that merge every base leaf stays; every
    incoming leaf is there or a node with its [url] and [title] is; a leaf
    whose non-empty [url] and [title] already exist at that level is not
    added, the number of leaves with that key staying what it was; and the
    same holds at any depth: below folders not titled 'Bookmarks Bar', a
    base leaf stays under the same folder titles, and an incoming leaf is
    found under the same folder titles by its [url] and [title].  Scenario 1
    of the specification evaluates to one folder holding both leaves. *)
Theorem C5_same_title_folders_merge :
  (∀ (base incoming : list node) (t : option string),
     countFolders t (mergeTrees base incoming)
     = Nat.max (countFolders t base) (Nat.min 1 (countFolders t incoming)))
  ∧ (∀ (base incoming cb : list node) (t : option string) (i : nat)
       (existing : node),
       t ≠ bookmarksBar →
       list_find (folderTitled t) base = Some (i, existing) →
       children existing = Some cb →
       let merged := mergeNodes cb (incomingChildren t incoming) in
       let result := mergeTrees base incoming in
       list_find (folderTitled t) result
       = Some (i, withChildren existing (Some merged))
       ∧ countFolders t result = countFolders t base
       ∧ (∀ L, L ∈ cb → children L = None → L ∈ merged)
       ∧ (∀ L, L ∈ incomingChildren t incoming → children L = None →
            ∃ L', L' ∈ merged ∧ url L' = url L ∧ title L' = title L)
       ∧ (∀ L, L ∈ incomingChildren t incoming → children L = None →
            present (url L) = true →
            (∃ L0, L0 ∈ cb ∧ url L0 = url L ∧ title L0 = title L) →
            countLeaves (url L) (title L) merged
            = countLeaves (url L) (title L) cb)
       ∧ (∀ (path : list (option string)) (L : node),
            Forall (λ t', t' ≠ bookmarksBar) path → children L = None →
            (atPath (λ x, x = L) path cb → atPath (λ x, x = L) path merged)
            ∧ (atPath (λ x, x = L) path (incomingChildren t incoming) →
               atPath (λ x, url x = url L ∧ title x = title L) path merged)))
  ∧ (let leaf t u := Node None (Some t) (Some u) None None [] in
     let folder c := Node None (Some "Bar: folder") None None (Some c) [] in
     mergeTrees [folder [leaf "A" "http://a"]] [folder [leaf "B" "http://b"]]
     = [folder [leaf "A" "http://a"; leaf "B" "http://b"]]).
Proof.
  split; [|split; [|by vm_compute]].
  { intros base incoming t. apply mergeNodes_countFolders_max. }
  intros base incoming cb t i existing Hne Hfind Hcb merged result.
  split_and!.
  - by apply mergeNodes_folder.
  - apply mergeNodes_countFolders. by eexists.
  - intros L HL Hleaf. eapply forestPreserved_leaf; [|done..].
    apply mergeNodes_preserved.
  - intros L HL Hleaf. by apply mergeNodes_incoming_leaf.
  - intros L _ _ Hu Hex. by apply mergeNodes_countLeaves.
  - intros path L Hpath Hleaf. split.
    + by apply mergeNodes_atPath_base.
    + by apply mergeNodes_atPath_incoming.
Qed.

Lemma C5_same_title_folders_merge_witness :
  let leaf t u := Node None (Some t) (Some u) None None [] in
  let sub c := Node None (Some "Sub") None None (Some c) [] in
  let folder c := Node (Some "7") (Some "Work") None None (Some c) [] in
  let base := [leaf "Home" "http://home"; folder [leaf "A" "http://a"]] in
  let incoming := [Node None (Some "Work") None None
                     (Some [leaf "A" "http://a"; leaf "B" "http://b";
                            sub [leaf "D" "http://d"]]) []] in
  list_find (folderTitled (Some "Work")) base = Some (1, folder [leaf "A" "http://a"])
  ∧ list_find (folderTitled (Some "Work")) (mergeTrees base incoming)
    = Some (1, folder [leaf "A" "http://a"; leaf "B" "http://b";
                       sub [leaf "D" "http://d"]]).
Proof.
  intros leaf sub folder base incoming.
  assert (Hfind : list_find (folderTitled (Some "Work")) base
                  = Some (1, folder [leaf "A" "http://a"])) by (by vm_compute).
  split; [exact Hfind|].
  destruct C5_same_title_folders_merge as (_ & H & _).
  destruct (H base incoming [leaf "A" "http://a"] (Some "Work") 1
              (folder [leaf "A" "http://a"])) as [-> _];
    [by vm_compute|exact Hfind|reflexivity|by vm_compute].
Defined.

Lemma folderTitles_elem (l : list node) (n : node) :
  n ∈ l → is_Some (children n) → title n ∈ folderTitles l.
Proof.
  intros Hn [c Hc]. apply list_elem_of_omap. exists n. by rewrite Hc.
Qed.

(** With distinct folder titles, the folder found under a title is the one
    that was looked for. *)
Lemma folder_unique (l : list node) :
  ∀ i j a b,
    NoDup (folderTitles l) → l !! i = Some a → l !! j = Some b →
    is_Some (children a) → is_Some (children b) → title a = title b → i = j.
Proof.
  induction l as [|x l IH]; intros i j a b Hnd Hi Hj Ha Hb Ht; [done|].
  unfold folderTitles in Hnd. simpl in Hnd. fold (folderTitles l) in Hnd.
  destruct i as [|i], j as [|j]; simplify_eq/=; [done| | |].
  - destruct Ha as [c Hc]. rewrite Hc in Hnd. simpl in Hnd.
    apply NoDup_cons in Hnd as [Hnotin _]. destruct Hnotin.
    rewrite Ht. apply folderTitles_elem; [by eapply list_elem_of_lookup_2|done].
  - destruct Hb as [c Hc]. rewrite Hc in Hnd. simpl in Hnd.
    apply NoDup_cons in Hnd as [Hnotin _]. destruct Hnotin.
    rewrite <- Ht. apply folderTitles_elem; [by eapply list_elem_of_lookup_2|done].
  - f_equal. eapply IH; [|done..].
    destruct (children x); simpl in Hnd; [by apply NoDup_cons in Hnd as [_ ?]|done].
Qed.

Lemma selfStableNode_folder i t u d c o :
  selfStableNode (Node i t u d (Some c) o) ↔ t = bookmarksBar ∨ selfStable c.
Proof.
  unfold selfStable. simpl.
  assert (Hall : (fix all (l : list node) : Prop :=
            match l with
            | [] => True
            | x :: l' => selfStableNode x ∧ all l'
            end) c ↔ Forall selfStableNode c).
  { induction c as [|x c IH]; [by split; [constructor|]|].
    rewrite Forall_cons, <- IH. done. }
  by rewrite Hall.
Qed.

Lemma mergeNodes_fixed (target source : list node) :
  Forall (λ s, mergeNode s target = target) source →
  mergeNodes target source = target.
Proof.
  induction 1 as [|s source Hs _ IH]; [done|].
  by rewrite mergeNodes_cons, Hs.
Qed.

Lemma mergeNode_self (s : node) :
  selfStableNode s →
  ∀ T, NoDup (folderTitles T) → s ∈ T → mergeNode s T = T.
Proof.
  induction s as [i t u d o|i t u d c o IH] using node_ind; intros Hs T Hnd HsT.
  - rewrite mergeNode_leaf by done.
    replace (isDuplicateBookmark T _) with true; [done|].
    symmetry. apply isDuplicateBookmark_true. by eexists.
  - rewrite (mergeNode_folder _ c) by done. simpl.
    destruct (list_find_elem_of (folderTitled t) T _ HsT) as [[j e] Hfind].
    { split; [by eexists|done]. }
    rewrite Hfind.
    apply list_find_Some in Hfind as (Hj & [He Hte] & _).
    apply list_elem_of_lookup_1 in HsT as [k Hk].
    assert (j = k) as ->.
    { eapply (folder_unique T); [done..| |done]. by eexists. }
    assert (e = Node i t u d (Some c) o) as -> by congruence.
    clear Hj He Hte. simpl.
    case_decide as Hbar.
    + by apply list_insert_id.
    + apply selfStableNode_folder in Hs as [?|[Hnd' Hall]]; [done|].
      rewrite mergeNodes_fixed; [by apply list_insert_id|].
      apply Forall_forall. intros x Hx.
      rewrite Forall_forall in IH, Hall. by apply IH; [|apply Hall| |].
Qed.

(** C6, as stated, fails: two sibling folders of one title merge into the
    first, and a node with neither [url] nor [children] is appended again. *)
Lemma C6_self_merge_changes_forest :
  let leaf t u := Node None (Some t) (Some u) None None [] in
  let folder c := Node None (Some "Work") None None (Some c) [] in
  let T1 := [folder [leaf "A" "http://a"]; folder [leaf "B" "http://b"]] in
  let T2 := [Node None (Some "x") None None None []] in
  mergeTrees T1 T1
    = [folder [leaf "A" "http://a"; leaf "B" "http://b"]; folder [leaf "B" "http://b"]]
  ∧ mergeTrees T1 T1 ≠ T1
  ∧ mergeTrees T2 T2 = T2 ++ T2
  ∧ mergeTrees T2 T2 ≠ T2.
Proof. by vm_compute. Qed.

(** C6, amended: a forest in which sibling folders have pairwise distinct
    titles and every node without children has a non-empty [url], at the top
    level and inside every folder not titled 'Bookmarks Bar', is left as it
    is by a merge with itself. *)
Theorem C6_self_merge_idempotent (T : list node) :
  selfStable T →
  mergeTrees T T = T
  ∧ mergeBookmarkTrees (JArray T) (JArray T) = Returned (JArray (INode <$> T)).
Proof.
  intros [Hnd Hall].
  assert (Heq : mergeTrees T T = T).
  { apply mergeNodes_fixed, Forall_forall. intros s Hs.
    rewrite Forall_forall in Hall. by apply mergeNode_self; [apply Hall| |]. }
  split; [done|].
  change (mergeBookmarkTrees (JArray T) (JArray T))
    with (Returned (JArray (INode <$> mergeTrees T T))).
  by rewrite Heq.
Qed.

Lemma C6_self_merge_idempotent_witness :
  let leaf t u := Node None (Some t) (Some u) None None [] in
  let T := [Node (Some "1") bookmarksBar None None
              (Some [leaf "A" "http://a"; leaf "A" "http://a"]) [];
            Node (Some "2") (Some "Work") None None
              (Some [leaf "B" "http://b";
                     Node None (Some "Deep") None None (Some []) []]) [];
            leaf "C" "http://c"] in
  selfStable T ∧ mergeTrees T T = T.
Proof.
  intros leaf T.
  assert (Hs : selfStable T).
  { split; [by apply (bool_decide_unpack _)|].
    apply Forall_cons; split; [by left|].
    apply Forall_cons; split.
    { right. split; [by apply (bool_decide_unpack _)|].
      split; [reflexivity|]. split; [|exact I].
      right. split; [apply NoDup_nil_2|exact I]. }
    apply Forall_cons; split; [reflexivity|]. apply Forall_nil_2. }
  split; [exact Hs|]. apply (C6_self_merge_idempotent T Hs).
Defined.

End MergeAndIdempotence.

(** ** The backup change summary is a set difference *)

Section DiffById.

Import Diff.

Lemma filtered_set_size (c p : list prim) :
  length (filter (λ id, id ∉ newSet p) (newSet c))
  = size (list_to_set c ∖ list_to_set p : gset prim).
Proof.
  unfold newSet.
  rewrite <- (size_list_to_set (C := gset prim)).
  - f_equal. apply set_eq. intros x.
    rewrite elem_of_list_to_set, list_elem_of_filter, !elem_of_remove_dups,
      elem_of_difference, !elem_of_list_to_set. tauto.
  - apply NoDup_filter, NoDup_remove_dups.
Qed.

(** C8: [addedCount] is the number of id values of [currentArr] that are not
    id values of [prevArr], [removedCount] the converse; so the summary only
    depends on the two sets of id values, and is unchanged by permuting or
    duplicating either list.  (An item without an [id] contributes the value
    [undefined].) *)
Theorem C8_diffById_set_difference (currentArr prevArr : list obj) :
  addedCount (diffById currentArr prevArr)
    = size (list_to_set (idsOf currentArr) ∖ list_to_set (idsOf prevArr) : gset prim)
  ∧ removedCount (diffById currentArr prevArr)
    = size (list_to_set (idsOf prevArr) ∖ list_to_set (idsOf currentArr) : gset prim)
  ∧ (∀ currentArr' prevArr',
       (∀ x, x ∈ idsOf currentArr' ↔ x ∈ idsOf currentArr) →
       (∀ x, x ∈ idsOf prevArr' ↔ x ∈ idsOf prevArr) →
       diffById currentArr' prevArr' = diffById currentArr prevArr)
  ∧ (∀ currentArr' prevArr',
       currentArr' ≡ₚ currentArr → prevArr' ≡ₚ prevArr →
       diffById currentArr' prevArr' = diffById currentArr prevArr)
  ∧ diffById (currentArr ++ currentArr) (prevArr ++ prevArr)
    = diffById currentArr prevArr.
Proof.
  assert (Hext : ∀ c p c' p',
       (∀ x, x ∈ idsOf c' ↔ x ∈ idsOf c) → (∀ x, x ∈ idsOf p' ↔ x ∈ idsOf p) →
       diffById c' p' = diffById c p).
  { intros c p c' p' Hc Hp. unfold diffById.
    rewrite !filtered_set_size.
    assert (list_to_set (idsOf c') = (list_to_set (idsOf c) : gset prim)) as ->.
    { apply set_eq. intros x. by rewrite !elem_of_list_to_set. }
    assert (list_to_set (idsOf p') = (list_to_set (idsOf p) : gset prim)) as ->.
    { apply set_eq. intros x. by rewrite !elem_of_list_to_set. }
    done. }
  split_and!.
  - apply filtered_set_size.
  - apply filtered_set_size.
  - intros c' p'. apply Hext.
  - intros c' p' Hc Hp. apply Hext; intros x; unfold idsOf.
    + by rewrite Hc.
    + by rewrite Hp.
  - apply Hext; intros x; unfold idsOf; rewrite fmap_app, elem_of_app; tauto.
Qed.

Lemma C8_diffById_set_difference_witness :
  let a := [("id", PStr "a")] in
  let b := [("id", PStr "b"); ("name", PStr "B")] in
  let c := [("id", PStr "c")] in
  diffById [b; a; a; b] [c; b; c] = diffById [a; b] [b; c]
  ∧ diffById [a; b] [b; c] = Summary 1 1.
Proof.
  intros a b c.
  destruct (C8_diffById_set_difference [a; b] [b; c]) as (_ & _ & H & _).
  split; [|by vm_compute].
  apply (H [b; a; a; b] [c; b; c]); intros x.
  - change (idsOf [b; a; a; b]) with [PStr "b"; PStr "a"; PStr "a"; PStr "b"].
    change (idsOf [a; b]) with [PStr "a"; PStr "b"].
    rewrite !elem_of_cons, !elem_of_nil. tauto.
  - change (idsOf [c; b; c]) with [PStr "c"; PStr "b"; PStr "c"].
    change (idsOf [b; c]) with [PStr "b"; PStr "c"].
    rewrite !elem_of_cons, !elem_of_nil. tauto.
Defined.

End DiffById.

(** ** The Netscape export *)

Section HtmlExport.

Import Bookmarks Html.

Lemma string_app_assoc (s1 s2 s3 : string) :
  s1 +:+ (s2 +:+ s3) = (s1 +:+ s2) +:+ s3.
Proof.
  induction s1 as [|a s1 IH]; [done|].
  change (String a (s1 +:+ (s2 +:+ s3)) = String a ((s1 +:+ s2) +:+ s3)).
  by rewrite IH.
Qed.

Lemma replaceAll_app (c : ascii) (rep s1 s2 : string) :
  replaceAll c rep (s1 +:+ s2) = replaceAll c rep s1 +:+ replaceAll c rep s2.
Proof.
  induction s1 as [|a s1 IH]; [done|].
  change (replaceAll c rep (String a (s1 +:+ s2))
          = replaceAll c rep (String a s1) +:+ replaceAll c rep s2).
  cbn [replaceAll].
  destruct (Ascii.eqb a c); rewrite IH; [|done].
  apply string_app_assoc.
Qed.

(** The three chained replacements act on each character separately. *)
Lemma escapeTitle_each (s : string) : escapeTitle s = escapeEach s.
Proof.
  unfold escapeTitle. induction s as [|a s IH]; [done|].
  cbn [replaceAll escapeEach]. unfold entityOf.
  destruct (Ascii.eqb a "&") eqn:Hamp.
  { rewrite !replaceAll_app, IH. done. }
  cbn [replaceAll].
  destruct (Ascii.eqb a "<") eqn:Hlt.
  { rewrite !replaceAll_app, IH. done. }
  cbn [replaceAll].
  destruct (Ascii.eqb a ">") eqn:Hgt; by rewrite IH.
Qed.

Lemma nodeToHtml_leaf (now : Z) (depth : nat) (n : node) :
  present (url n) = true →
  nodeToHtml now depth n
  = bookmarkLine (indentOf depth) (default "" (url n)) (addDateOf now (dateAdded n))
      (if present (title n) then escapeTitle (default "" (title n)) else "Bookmark").
Proof. destruct n as [i t u d c o]; simpl. by intros ->. Qed.

Lemma nodeToHtml_folder (now : Z) (depth : nat) (n : node) (nodes : list node) :
  present (url n) = false → present (title n) = true → children n = Some nodes →
  nodeToHtml now depth n
  = folderBlock (indentOf depth) (addDateOf now (dateAdded n))
      (escapeTitle (default "" (title n))) (bookmarksToHtml now nodes (S depth)).
Proof. destruct n as [i t u d c o]; simpl. by intros -> -> ->. Qed.

(** C9, as stated, fails.  A folder whose title is missing or empty is not
    written at all, and its two leaves go with it; and a [dateAdded] of 0,
    though present, is falsy: the current time is written in its place. *)
Lemma C9_untitled_folder_and_zero_date :
  let leaf t u d := Node None (Some t) (Some u) d None [] in
  let leaves := [leaf "A" "http://a" (Some 1999%Z); leaf "B" "http://b" None] in
  let untitled := Node None None None None (Some leaves) [] in
  let emptyTitled := Node None (Some "") None None (Some leaves) [] in
  bookmarksToHtml 5000 [untitled] 1 = ""
  ∧ bookmarksToHtml 5000 [emptyTitled] 1 = ""
  ∧ occurrences "<DT><A HREF=" (bookmarksToHtml 5000 [untitled] 1) = 0
  ∧ occurrences "<DT><H3" (bookmarksToHtml 5000 [emptyTitled] 1) = 0
  ∧ addDateOf 5000000 (Some 0%Z) = 5000%Z
  ∧ addDateOf 5000000 (Some 0%Z) ≠ (0 / 1000)%Z
  ∧ bookmarksToHtml 5000000 [leaf "A" "http://a" (Some 0%Z)] 0
    = "<DT><A HREF=" +:+ quote +:+ "http://a" +:+ quote
      +:+ " ADD_DATE=" +:+ quote +:+ "5000" +:+ quote +:+ ">A</A>".
Proof. by vm_compute. Qed.

(** C9, amended.  A folder with a non-empty title and no [url] that holds
    two leaves with non-empty [url]s is written as one
    [<DT><H3 ...>title</H3>] line, a [<DL><p>] line, the two
    [<DT><A HREF=...>] lines one level deeper, and a [</DL><p>] line.  For
    time values, each [ADD_DATE] is [dateAdded] divided by 1000 and floored
    when [dateAdded] is present and not 0, and the current time so treated
    when [dateAdded] is absent or 0.  A title is written with each of its
    characters [&], [<], [>] replaced by its entity, a leaf without title as
    "Bookmark". *)
Theorem C9_netscape_export :
  (∀ (now : Z) (depth : nat) (folder leaf1 leaf2 : node),
     timeValue now →
     datedInRange folder → datedInRange leaf1 → datedInRange leaf2 →
     present (url folder) = false → present (title folder) = true →
     children folder = Some [leaf1; leaf2] →
     present (url leaf1) = true → present (url leaf2) = true →
     let indent := indentOf depth in
     let line leaf :=
       indentOf (S depth) +:+ "<DT><A HREF=" +:+ quote +:+ default "" (url leaf)
         +:+ quote +:+ " ADD_DATE=" +:+ quote
         +:+ pretty (addDateOf now (dateAdded leaf)) +:+ quote +:+ ">"
         +:+ (if present (title leaf) then escapeEach (default "" (title leaf))
              else "Bookmark")
         +:+ "</A>" in
     bookmarksToHtml now [folder] depth
     = indent +:+ "<DT><H3 ADD_DATE=" +:+ quote
         +:+ pretty (addDateOf now (dateAdded folder)) +:+ quote +:+ ">"
         +:+ escapeEach (default "" (title folder)) +:+ "</H3>" +:+ newline
         +:+ indent +:+ "<DL><p>" +:+ newline
         +:+ (line leaf1 +:+ newline +:+ line leaf2) +:+ newline
         +:+ indent +:+ "</DL><p>")
  ∧ (∀ now d, timeValue now → timeValue d → d ≠ 0%Z →
       addDateOf now (Some d) = (d / 1000)%Z
       ∧ (1000 * addDateOf now (Some d) ≤ d < 1000 * addDateOf now (Some d) + 1000)%Z)
  ∧ (∀ now, timeValue now →
       addDateOf now None = (now / 1000)%Z
       ∧ addDateOf now (Some 0%Z) = (now / 1000)%Z
       ∧ (1000 * addDateOf now None ≤ now < 1000 * addDateOf now None + 1000)%Z)
  ∧ (∀ title, escapeTitle title = escapeEach title)
  ∧ (let leaf t u d := Node None (Some t) (Some u) d None [] in
     let folder := Node None (Some "R&D <new>") None (Some 1700000000999%Z)
                     (Some [leaf "A" "http://a" (Some 1999%Z);
                            leaf "B > C" "http://b" None]) [] in
     let out := bookmarksToHtml 5000 [folder] 1 in
     occurrences "<DT><A HREF=" out = 2 ∧ occurrences "<DT><H3" out = 1
     ∧ occurrences "<DL><p>" out = 1 ∧ occurrences "</DL><p>" out = 1
     ∧ occurrences "R&amp;D &lt;new&gt;" out = 1
     ∧ occurrences "B &gt; C" out = 1
     ∧ occurrences (newline +:+ "    <DT><A HREF=") out = 2).
Proof.
  split_and!.
  - intros now depth folder leaf1 leaf2 _ _ _ _ Hfu Hft Hfc Hu1 Hu2 indent line.
    unfold bookmarksToHtml at 1. cbn [map join].
    rewrite (nodeToHtml_folder _ _ _ _ Hfu Hft Hfc).
    unfold bookmarksToHtml. cbn [map join].
    rewrite !nodeToHtml_leaf by done. rewrite !escapeTitle_each.
    reflexivity.
  - intros now d _ _ Hd. unfold addDateOf.
    destruct (Z.eqb_spec d 0); [done|]. split; [done|].
    pose proof (Z.mul_div_le d 1000). pose proof (Z.mul_succ_div_gt d 1000). lia.
  - intros now _. split; [done|split; [done|]]. simpl.
    pose proof (Z.mul_div_le now 1000).
    pose proof (Z.mul_succ_div_gt now 1000). lia.
  - apply escapeTitle_each.
  - by vm_compute.
Qed.

Lemma C9_netscape_export_witness :
  let leaf t u d := Node None (Some t) (Some u) d None [] in
  let folder := Node None (Some "R&D") None (Some 1700000000999%Z)
                  (Some [leaf "A" "http://a" (Some 1999%Z);
                         leaf "B" "http://b" None]) [] in
  timeValue 5000 ∧ datedInRange folder
  ∧ present (url folder) = false
  ∧ bookmarksToHtml 5000 [folder] 1
    = "  <DT><H3 ADD_DATE=" +:+ quote +:+ "1700000000" +:+ quote +:+ ">R&amp;D</H3>"
      +:+ newline +:+ "  <DL><p>" +:+ newline
      +:+ "    <DT><A HREF=" +:+ quote +:+ "http://a" +:+ quote
      +:+ " ADD_DATE=" +:+ quote +:+ "1" +:+ quote +:+ ">A</A>" +:+ newline
      +:+ "    <DT><A HREF=" +:+ quote +:+ "http://b" +:+ quote
      +:+ " ADD_DATE=" +:+ quote +:+ "5" +:+ quote +:+ ">B</A>" +:+ newline
      +:+ "  </DL><p>".
Proof.
  intros leaf folder.
  assert (timeValue 5000) as Hnow by (unfold timeValue; lia).
  assert (datedInRange folder) as Hf by (unfold datedInRange, timeValue; simpl; lia).
  split; [exact Hnow|]. split; [exact Hf|]. split; [reflexivity|].
  destruct C9_netscape_export as [H _].
  rewrite (H 5000%Z 1 folder (leaf "A" "http://a" (Some 1999%Z))
             (leaf "B" "http://b" None));
    [by vm_compute|exact Hnow|exact Hf
    |unfold datedInRange, timeValue; simpl; lia|exact I|reflexivity..].
Defined.

End HtmlExport.

(** ** A call writes only to the cells it creates *)

Section StoreFrame.

Import Store.

(** [n0] is the size of the store when the call starts. *)
Variable n0 : nat.

Local Abbreviation freshV := (Store.freshV n0).
Local Abbreviation closed := (Store.closed n0).
Local Abbreviation ok := (Store.ok n0).

Lemma ok_ret {A} (a : A) (Q : A → Prop) : Q a → ok (ret a) Q.
Proof. intros HQ h Hn Hc. simpl. do 3 (split; [done|]). by intros ? [= <-]. Qed.

Lemma ok_throw {A} (Q : A → Prop) : ok throw Q.
Proof. intros h Hn Hc. simpl. by do 3 (split; [done|]). Qed.

Lemma ok_bind {A B} (m : M A) (k : A → M B) (P : A → Prop) (Q : B → Prop) :
  ok m P → (∀ a, P a → ok (k a) Q) → ok (bind m k) Q.
Proof.
  intros Hm Hk h Hn Hc. unfold bind.
  destruct (Hm h Hn Hc) as (Hn' & Ht & Hc' & HP).
  destruct (m h) as [h' [a|]]; simpl in *; [|by do 3 (split; [done|])].
  destruct (Hk a (HP a eq_refl) h' Hn' Hc') as (Hn'' & Ht' & Hc'' & HQ).
  split; [done|]. split; [congruence|]. by split.
Qed.

Lemma ok_weaken {A} (m : M A) (P Q : A → Prop) :
  ok m P → (∀ a, P a → Q a) → ok m Q.
Proof.
  intros Hm HPQ h Hn Hc. destruct (Hm h Hn Hc) as (?&?&?&HP).
  do 3 (split; [done|]). intros a Ha. by apply HPQ, HP.
Qed.

Lemma ok_alloc (c : cell) :
  Forall freshV (valuesOf c) → ok (alloc c) freshV.
Proof.
  intros Hf h Hn Hc. unfold alloc. simpl.
  split; [|split; [|split]].
  - rewrite length_app. lia.
  - by rewrite take_app_le.
  - intros l c' Hl [Hl'|[_ Hl']]%lookup_app_Some; [by eapply Hc|].
    apply list_lookup_singleton_Some in Hl' as [_ <-]. done.
  - intros a [= <-]. done.
Qed.

Lemma ok_readCell (l : loc) :
  ok (readCell l) (λ c, n0 ≤ l → Forall freshV (valuesOf c)).
Proof.
  intros h Hn Hc. unfold readCell.
  destruct (h !! l) as [c|] eqn:Hl; simpl.
  - do 3 (split; [done|]). intros a [= <-] Hle. by eapply Hc.
  - by do 3 (split; [done|]).
Qed.

Lemma ok_writeCell (l : loc) (c : cell) :
  n0 ≤ l → Forall freshV (valuesOf c) → ok (writeCell l c) (λ _, True).
Proof.
  intros Hl Hf h Hn Hc. unfold writeCell. simpl.
  split; [|split; [|split; [|done]]].
  - by rewrite length_insert.
  - by rewrite take_insert_ge.
  - intros l' c' Hl' Hlook.
    apply list_lookup_insert_Some in Hlook as [(-> & <- & _)|[_ Hlook]];
      [done|by eapply Hc].
Qed.

Lemma getFieldV_fresh (fs : list (string * hval)) (k : string) :
  Forall freshV (snd <$> fs) → freshV (getFieldV fs k).
Proof.
  induction fs as [|[k' v] fs IH]; simpl; [done|].
  intros [Hv Hfs]%Forall_cons. destruct (String.eqb k' k); auto.
Qed.

Lemma setFieldV_fresh (fs : list (string * hval)) (k : string) (v : hval) :
  freshV v → Forall freshV (snd <$> fs) → Forall freshV (snd <$> setFieldV k v fs).
Proof.
  intros Hv. induction fs as [|[k' v'] fs IH]; simpl.
  - by repeat constructor.
  - intros [Hv' Hfs]%Forall_cons.
    destruct (String.eqb k' k); simpl; constructor; auto.
Qed.

Lemma propsOf_fresh (c : cell) :
  Forall freshV (valuesOf c) → Forall freshV (snd <$> propsOf c).
Proof.
  destruct c as [fs|items]; simpl; [done|].
  intros Hf. apply Forall_forall. intros v Hv.
  apply list_elem_of_fmap in Hv as ([k v'] & -> & Hkv).
  apply elem_of_lookup_imap in Hkv as (i & x & [= _ <-] & Hx).
  rewrite Forall_forall in Hf. by eapply Hf, list_elem_of_lookup_2.
Qed.

Ltac ok_step rule := eapply ok_bind; [apply rule|cbv beta].

Lemma ok_getProp (v : hval) (k : string) :
  ok (getProp v k) (λ x, freshV v → freshV x).
Proof.
  destruct v as [p|l]; simpl.
  - destruct p; try apply ok_throw; by apply ok_ret.
  - ok_step ok_readCell. intros c Hc. apply ok_ret.
    intros Hl. by apply getFieldV_fresh, propsOf_fresh, Hc.
Qed.

Lemma ok_setProp (v : hval) (k : string) (x : hval) :
  freshV v → freshV x → ok (setProp v k x) (λ _, True).
Proof.
  intros Hv Hx. destruct v as [p|l]; simpl; [apply ok_throw|].
  ok_step ok_readCell. intros [fs|items] Hc; [|apply ok_throw].
  apply ok_writeCell; [done|]. simpl. apply setFieldV_fresh; [done|]. by apply Hc.
Qed.

Lemma ok_arrayItems (v : hval) :
  ok (arrayItems v) (λ items, freshV v → Forall freshV items).
Proof.
  destruct v as [p|l]; simpl; [apply ok_throw|].
  ok_step ok_readCell. intros [fs|items] Hc; [apply ok_throw|].
  apply ok_ret. intros Hl. by apply Hc.
Qed.

Lemma ok_push (v x : hval) :
  freshV v → freshV x → ok (push v x) (λ _, True).
Proof.
  intros Hv Hx. destruct v as [p|l]; simpl; [apply ok_throw|].
  ok_step ok_readCell. intros [fs|items] Hc; [apply ok_throw|].
  apply ok_writeCell; [done|]. simpl. apply Forall_app. split; [by apply Hc|].
  by constructor.
Qed.

Lemma ok_setItem (v : hval) (i : nat) (x : hval) :
  freshV v → freshV x → ok (setItem v i x) (λ _, True).
Proof.
  intros Hv Hx. destruct v as [p|l]; simpl; [apply ok_throw|].
  ok_step ok_readCell. intros [fs|items] Hc; [apply ok_throw|].
  apply ok_writeCell; [done|]. simpl. apply Forall_insert; [by apply Hc|done].
Qed.

Lemma charsV_fresh (s : string) : Forall freshV (charsV s).
Proof. induction s; simpl; by constructor. Qed.

Lemma ok_iterate (v : hval) :
  ok (iterate v) (λ items, freshV v → Forall freshV items).
Proof.
  destruct v as [p|l]; [|apply ok_arrayItems].
  destruct p; try apply ok_throw.
  apply ok_ret. intros _. apply charsV_fresh.
Qed.

Lemma ok_traverse {A B} (f : A → M B) (Q : B → Prop) (l : list A) :
  (∀ x, ok (f x) Q) → ok (traverse f l) (Forall Q).
Proof.
  intros Hf. induction l as [|x l IH]; simpl; [by apply ok_ret|].
  ok_step Hf. intros y Hy. ok_step IH. intros ys Hys.
  apply ok_ret. by constructor.
Qed.

Lemma ok_forEach {A} (f : A → M unit) (l : list A) :
  (∀ x, ok (f x) (λ _, True)) → ok (forEach l f) (λ _, True).
Proof.
  intros Hf. induction l as [|x l IH]; simpl; [by apply ok_ret|].
  ok_step Hf. intros _ _. apply IH.
Qed.

Lemma ok_foldM {A S} (f : S → A → M S) (l : list A) (s : S) :
  (∀ s x, ok (f s x) (λ _, True)) → ok (foldM f l s) (λ _, True).
Proof.
  intros Hf. revert s. induction l as [|x l IH]; intros s; simpl;
    [by apply ok_ret|].
  ok_step Hf. intros s' _. apply IH.
Qed.

(** A copy is made of new cells only. *)
Lemma ok_cloneIn (fuel : nat) : ∀ v, ok (cloneIn fuel v) freshV.
Proof.
  induction fuel as [|fuel IH]; intros [p|l]; simpl;
    try (by apply ok_ret); try apply ok_throw.
  ok_step ok_readCell. intros [fs|items] _.
  - eapply ok_bind.
    + apply (ok_traverse _ (λ kv : string * hval, freshV kv.2)).
      intros [k v]. simpl. ok_step IH. intros v' Hv'. by apply ok_ret.
    + intros fs' Hfs'. apply ok_alloc. simpl. by apply Forall_fmap.
  - eapply ok_bind.
    + apply (ok_traverse _ freshV). intros x. case_decide; [by apply ok_ret|apply IH].
    + intros items' Hitems'. by apply ok_alloc.
Qed.

Lemma ok_jsonCloneV (fuel : nat) (v : hval) : ok (jsonCloneV fuel v) freshV.
Proof.
  destruct v as [[]|l]; simpl; try apply ok_throw; apply (ok_cloneIn fuel (HPrim _))
    || apply (ok_cloneIn fuel (HRef _)).
Qed.

Lemma ok_findFolder (items : list hval) (title : hval) :
  Forall freshV items →
  ok (findFolder items title) (λ r, ∀ e, r = Some e → freshV e).
Proof.
  induction 1 as [|t items Ht _ IH]; simpl; [by apply ok_ret|].
  ok_step ok_getProp. intros c _.
  destruct (truthyV c); [|apply IH].
  ok_step ok_getProp. intros tt _.
  destruct (strictEqV tt title); [|apply IH].
  apply ok_ret. by intros e [= <-].
Qed.

Lemma ok_someDuplicate (items : list hval) (node : hval) :
  ok (someDuplicate items node) (λ _, True).
Proof.
  induction items as [|t items IH]; simpl; [by apply ok_ret|].
  ok_step ok_getProp. intros tu _.
  destruct (truthyV tu); [|apply IH].
  ok_step ok_getProp. intros nu _.
  destruct (_ && _); [|apply IH].
  ok_step ok_getProp. intros tt _. ok_step ok_getProp. intros nt _.
  destruct (strictEqV tt nt); [by apply ok_ret|apply IH].
Qed.

Lemma ok_isDuplicateBookmark (target node : hval) :
  ok (isDuplicateBookmark target node) (λ _, True).
Proof.
  unfold isDuplicateBookmark. ok_step ok_arrayItems. intros items _.
  apply ok_someDuplicate.
Qed.

Lemma ok_mergeNodesWith (recurse : hval → hval → M unit) (fuel : nat)
    (target source : hval) :
  (∀ t s, freshV t → ok (recurse t s) (λ _, True)) →
  freshV target → ok (mergeNodesWith recurse fuel target source) (λ _, True).
Proof.
  intros Hrec Htarget. unfold mergeNodesWith.
  ok_step ok_iterate. intros srcNodes _.
  apply ok_forEach. intros srcNode.
  ok_step ok_jsonCloneV. intros srcNodeCopy Hcopy.
  ok_step ok_getProp. intros srcChildren Hchildren.
  destruct (truthyV srcChildren).
  - ok_step ok_getProp. intros srcTitle Htitle.
    ok_step ok_arrayItems. intros items Hitems.
    eapply ok_bind; [apply ok_findFolder; auto|].
    intros [existing|] Hexisting; [|by apply ok_push].
    specialize (Hexisting _ eq_refl).
    destruct (strictEqV srcTitle _); [apply ok_setProp; auto|].
    eapply ok_bind; [apply ok_setProp; auto|]. intros _ _.
    ok_step ok_getProp. intros existingChildren Hec. apply Hrec. auto.
  - ok_step ok_isDuplicateBookmark. intros [] _; [by apply ok_ret|by apply ok_push].
Qed.

Lemma ok_mergeNodes (fuel : nat) :
  ∀ target source, freshV target → ok (mergeNodes fuel target source) (λ _, True).
Proof.
  induction fuel as [|fuel IH]; intros target source Htarget; simpl;
    apply ok_mergeNodesWith; try done.
Qed.

Lemma ok_mergeBookmarkTrees (fuel : nat) (listA listB : hval) :
  ok (mergeBookmarkTrees fuel listA listB) freshV.
Proof.
  unfold mergeBookmarkTrees.
  eapply (ok_bind _ _ (λ _, True)).
  { destruct listA as [[]|l]; simpl; try (by apply ok_ret).
    eapply ok_weaken; [by apply ok_alloc|done]. }
  intros listA' _.
  eapply (ok_bind _ _ (λ _, True)).
  { destruct listB as [[]|l]; simpl; try (by apply ok_ret).
    eapply ok_weaken; [by apply ok_alloc|done]. }
  intros listB' _.
  ok_step ok_jsonCloneV. intros merged Hmerged.
  eapply ok_bind; [by apply ok_mergeNodes|]. intros _ _. by apply ok_ret.
Qed.

Lemma fold_setFieldV_fresh (keys : list string) (fs : list (string * hval))
    (f : list (string * hval) → string → list (string * hval)) :
  (∀ m k, Forall freshV (snd <$> m) → Forall freshV (snd <$> f m k)) →
  Forall freshV (snd <$> fs) → Forall freshV (snd <$> fold_left f keys fs).
Proof.
  intros Hf. revert fs. induction keys as [|k keys IH]; intros fs Hfs; simpl; auto.
Qed.

Lemma mergeFields_fresh (baseExt preferredExt : list (string * hval)) :
  Forall freshV (snd <$> baseExt) → Forall freshV (snd <$> preferredExt) →
  Forall freshV (snd <$> Store.mergeFields baseExt preferredExt).
Proof.
  intros Hb Hp. unfold Store.mergeFields.
  apply fold_setFieldV_fresh.
  { intros m k Hm. destruct (_ && _); [|done].
    apply setFieldV_fresh; [by apply getFieldV_fresh|done]. }
  apply fold_setFieldV_fresh.
  { intros m k Hm. case_bool_decide; [done|]. destruct (strictEqV _ _); [done|].
    apply setFieldV_fresh; [by apply getFieldV_fresh|done]. }
  repeat (apply setFieldV_fresh;
          [repeat case_match; by apply getFieldV_fresh|]).
  done.
Qed.

Lemma ok_objectItems (v : hval) : ok (objectItems v) (λ _, True).
Proof.
  destruct v as [p|l]; simpl; [by apply ok_ret|].
  ok_step ok_readCell. intros [fs|items] _; by apply ok_ret.
Qed.

Lemma ok_readObject (v : hval) :
  ok (match v with HRef l => readCell l | HPrim _ => throw end)
     (λ c, freshV v → Forall freshV (valuesOf c)).
Proof. destruct v as [p|l]; [apply ok_throw|apply ok_readCell]. Qed.

Lemma ok_recordStep (fuel : nat) (finalResult : hval) (isFromListB : bool)
    (ms : maps) (currentExt : hval) :
  freshV finalResult →
  ok (step fuel finalResult isFromListB ms currentExt) (λ _, True).
Proof.
  intros Hfr. unfold step.
  ok_step ok_jsonCloneV. intros currentExtCopy Hcopy.
  ok_step ok_getProp. intros copyId _.
  ok_step ok_getProp. intros copyUrl _.
  ok_step ok_arrayItems. intros results Hresults.
  destruct (_ ≫= _) as [[matchedIndex targetExtRef]|] eqn:Hmatch.
  - assert (Htarget : freshV targetExtRef).
    { apply bind_Some in Hmatch as (i & _ & Hi).
      apply fmap_Some in Hi as (t & Ht & [= _ ->]).
      specialize (Hresults Hfr). rewrite Forall_forall in Hresults.
      by eapply Hresults, list_elem_of_lookup_2. }
    ok_step ok_getProp. intros oldId _.
    ok_step ok_getProp. intros oldUrl _.
    ok_step ok_readObject. intros baseCell Hbase.
    ok_step ok_readObject. intros preferredCell Hpreferred.
    eapply ok_bind.
    + apply ok_alloc. simpl.
      apply mergeFields_fresh; apply propsOf_fresh;
        [apply Hbase|apply Hpreferred]; by destruct isFromListB.
    + intros mergedExt Hmerged.
      eapply ok_bind; [by apply ok_setItem|]. intros _ _. by apply ok_ret.
  - eapply ok_bind; [by apply ok_push|]. intros _ _. by apply ok_ret.
Qed.

Lemma ok_mergeExtensionLists (fuel : nat) (listA listB : hval) :
  ok (Store.mergeExtensionLists fuel listA listB) freshV.
Proof.
  unfold Store.mergeExtensionLists.
  ok_step ok_objectItems. intros L_A _.
  ok_step ok_objectItems. intros L_B _.
  eapply ok_bind; [by apply ok_alloc|]. intros finalResult Hfr.
  eapply ok_bind; [apply ok_foldM; intros; by apply ok_recordStep|]. intros ms _.
  eapply ok_bind; [apply ok_foldM; intros; by apply ok_recordStep|]. intros _ _.
  by apply ok_ret.
Qed.

(** In a closed store a new value only reaches new cells. *)
Lemma reaches_fresh (h : list cell) (v : hval) (l : nat) :
  closed h → freshV v → reaches h v l → n0 ≤ l.
Proof.
  intros Hc Hv Hr. induction Hr as [l|l c v l' Hl Hin _ IH]; [done|].
  apply IH. specialize (Hc _ _ Hv Hl). rewrite Forall_forall in Hc. by apply Hc.
Qed.

End StoreFrame.

(** ** Neither reconciler touches its arguments *)

Section Purity.

Import Store.

Lemma ok_pureCall (call : M hval) :
  (∀ n0, Store.ok n0 call (Store.freshV n0)) → pureCall call.
Proof.
  intros Hok h. simpl.
  destruct (Hok (length h) h) as (Hlen & Htake & Hclosed & Hres); [done| |].
  { intros l c Hl Hlook. apply lookup_lt_Some in Hlook. lia. }
  split.
  - by rewrite Htake, firstn_all.
  - intros v l Hv Hr. eapply reaches_fresh; [done| |done]. by apply Hres.
Qed.

(** On the scenarios of the specification the store model computes what the
    value model computes, and raises where the value model raises. *)
Lemma store_agrees_on_scenarios :
  let leafA := CObject [("title", HPrim (PStr "A")); ("url", HPrim (PStr "http://a"))] in
  let leafB := CObject [("title", HPrim (PStr "B")); ("url", HPrim (PStr "http://b"))] in
  let folder t c := CObject [("title", HPrim (PStr t)); ("children", HRef c)] in
  let store t := [leafA; CArray [HRef 0]; folder t 1; CArray [HRef 2];
                  leafB; CArray [HRef 4]; folder t 5; CArray [HRef 6]] in
  let leaf t u := Bookmarks.Node None (Some t) (Some u) None None [] in
  let forest t l := [Bookmarks.Node None (Some t) None None (Some [l]) []] in
  let records := [CObject [("id", HPrim (PStr "1"));
                           ("homepageUrl", HPrim (PStr "http://x"))];
                  CArray [HRef 0];
                  CObject [("homepageUrl", HPrim (PStr "http://x"));
                           ("name", HPrim (PStr "X"))];
                  CArray [HRef 2; HPrim PNull]] in
  (∀ t, t = "Bar: folder" ∨ t = "Bookmarks Bar" →
     readForest 9 (store t) (HRef 3) = Some (forest t (leaf "A" "http://a"))
     ∧ readForest 9 (store t) (HRef 7) = Some (forest t (leaf "B" "http://b"))
     ∧ (let out := Store.mergeBookmarkTrees 9 (HRef 3) (HRef 7) (store t) in
        out.2 ≫= readForest 9 out.1)
       = Some (Bookmarks.mergeTrees (forest t (leaf "A" "http://a"))
                 (forest t (leaf "B" "http://b"))))
  ∧ (Store.mergeBookmarkTrees 9 (HPrim PNull) (HRef 7) (store "Bar: folder")).2 = None
  ∧ (Store.mergeBookmarkTrees 9 (HRef 2) (HRef 7) (store "Bar: folder")).2 = None
  ∧ (let out := Store.mergeExtensionLists 9 (HRef 1) (HRef 3) records in
     out.2 ≫= readRecords out.1)
    = Some (Records.mergeRecords
              [[("id", PStr "1"); ("homepageUrl", PStr "http://x")]]
              [[("homepageUrl", PStr "http://x"); ("name", PStr "X")]]).
Proof.
  intros leafA leafB folder store leaf forest records.
  split_and!; [|by vm_compute..].
  intros t [-> | ->]; by vm_compute.
Qed.

(** C7: whatever the store and the arguments, a call of [mergeBookmarkTrees]
    or of [mergeExtensionLists] leaves every cell that existed before the call
    as it was (so both arguments read as before), and what it returns is made
    of cells created by the call only: it shares no node, record or array
    with either argument. *)
Theorem C7_arguments_untouched (fuel : nat) (listA listB : hval) :
  pureCall (Store.mergeBookmarkTrees fuel listA listB)
  ∧ pureCall (Store.mergeExtensionLists fuel listA listB).
Proof.
  split; apply ok_pureCall; intros n0.
  - apply ok_mergeBookmarkTrees.
  - apply ok_mergeExtensionLists.
Qed.

End Purity.

(** ** Tagging live bookmarks with the browser *)

Section TaggingLemmas.

Import Bookmarks Tagging.

Lemma setField_setField (k : string) (v w : prim) (o : obj) :
  setField k w (setField k v o) = setField k w o.
Proof.
  induction o as [|[k' v'] o IH]; simpl.
  - by rewrite String.eqb_refl.
  - destruct (String.eqb k' k) eqn:E; simpl; rewrite E; [done|by rewrite IH].
Qed.

Lemma deleteField_setField (k : string) (v : prim) (o : obj) :
  deleteField k (setField k v o) = deleteField k o.
Proof.
  induction o as [|[k' v'] o IH]; simpl.
  - by rewrite String.eqb_refl.
  - destruct (String.eqb k' k) eqn:E; simpl; rewrite E; [done|by rewrite IH].
Qed.

Lemma nodesOf_eq (n : node) :
  nodesOf n = n :: match children n with Some ch => allNodes ch | None => [] end.
Proof. by destruct n. Qed.

Lemma allNodes_cons (n : node) (l : list node) :
  allNodes (n :: l) = nodesOf n ++ allNodes l.
Proof. done. Qed.

Lemma allNodes_app (l1 l2 : list node) :
  allNodes (l1 ++ l2) = allNodes l1 ++ allNodes l2.
Proof. unfold allNodes. by rewrite fmap_app, join_app. Qed.

Lemma addBrowserToNode_eq (b : string) (n : node) :
  addBrowserToNode b n =
    Node (nodeId n) (title n) (url n) (dateAdded n)
      (fmap (M:=list) (addBrowserToNode b) <$> children n)
      (if present (url n) then setField "browser" (PStr b) (other n) else other n).
Proof. by destruct n as [i t u d [[|x ch]|] o]. Qed.

Lemma untagged_eq (n : node) :
  untagged n =
    Node (nodeId n) (title n) (url n) (dateAdded n)
      (fmap (M:=list) untagged <$> children n) (deleteField "browser" (other n)).
Proof. by destruct n as [i t u d [ch|] o]. Qed.

End TaggingLemmas.

Section TaggingProperties.

Import Bookmarks Tagging.

Lemma allNodes_Forall2 (R : node → node → Prop) (f : node → node) (l : list node) :
  Forall (λ n, Forall2 R (nodesOf n) (nodesOf (f n))) l →
  Forall2 R (allNodes l) (allNodes (f <$> l)).
Proof.
  induction 1 as [|n l Hn _ IH]; [constructor|].
  rewrite fmap_cons, !allNodes_cons. by apply Forall2_app.
Qed.

Lemma nodesOf_tagged (b : string) (n : node) :
  Forall2 (taggedFrom b) (nodesOf n) (nodesOf (addBrowserToNode b n)).
Proof.
  induction n as [i t u d o|i t u d c o IH] using node_ind.
  - rewrite addBrowserToNode_eq. repeat constructor.
  - rewrite !nodesOf_eq, addBrowserToNode_eq. simpl. constructor.
    + unfold taggedFrom. simpl. by rewrite length_fmap.
    + by apply allNodes_Forall2.
Qed.

(** X1: tagging keeps the shape of the forest and every node's [id],
    [title], [url] and [dateAdded]; node by node, in document order and at
    every depth, a node with a non-empty [url] gets [browser] set to the
    given name and any other node keeps its remaining properties as they
    were. *)
Theorem addBrowser_tags_every_bookmark (l : list node) (b : string) :
  ∃ l', addBrowserToBookmarkNodes (JArray l) b = JArray l'
        ∧ length l' = length l
        ∧ Forall2 (taggedFrom b) (allNodes l) (allNodes l').
Proof.
  eexists. split; [done|]. split; [by rewrite length_fmap|].
  apply allNodes_Forall2, Forall_forall. intros n _. apply nodesOf_tagged.
Qed.

Lemma addBrowserToNode_twice (b1 b2 : string) (n : node) :
  addBrowserToNode b2 (addBrowserToNode b1 n) = addBrowserToNode b2 n.
Proof.
  induction n as [i t u d o|i t u d c o IH] using node_ind.
  - rewrite !addBrowserToNode_eq. simpl.
    destruct (present u); [by rewrite setField_setField|done].
  - rewrite (addBrowserToNode_eq b1), (addBrowserToNode_eq b2 (Node _ _ _ _ _ _)).
    rewrite (addBrowserToNode_eq b2). simpl. f_equal.
    + f_equal. rewrite <- list_fmap_compose.
      apply Forall_fmap_ext_1. by eapply Forall_impl; [exact IH|].
    + destruct (present u); [by rewrite setField_setField|done].
Qed.

(** X2: tagging twice is tagging once with the later name; whatever the
    argument is, array or not. *)
Theorem addBrowser_last_name_wins (nodes : jsarg node) (b1 b2 : string) :
  addBrowserToBookmarkNodes (addBrowserToBookmarkNodes nodes b1) b2
  = addBrowserToBookmarkNodes nodes b2.
Proof.
  destruct nodes as [p|o|l]; simpl; [done..|]. f_equal.
  rewrite <- list_fmap_compose. apply list_fmap_ext.
  intros ? n _. apply addBrowserToNode_twice.
Qed.

End TaggingProperties.

(** ** The merge and the export do not read the browser tag *)

Section TagsAndMerging.

Import Bookmarks Tagging Html.

Lemma untagged_withChildren (e : node) (c : list node) :
  untagged (withChildren e (Some c)) = withChildren (untagged e) (Some (untagged <$> c)).
Proof. by destruct e as [i t u d [ch|] o]. Qed.

Lemma untagged_withTitle (e : node) t :
  untagged (withTitle e t) = withTitle (untagged e) t.
Proof. by destruct e as [i t' u d [ch|] o]. Qed.

Lemma folderTitled_untagged t (n : node) :
  folderTitled t (untagged n) ↔ folderTitled t n.
Proof.
  rewrite untagged_eq. unfold folderTitled. simpl.
  by rewrite fmap_is_Some.
Qed.

Lemma list_find_untagged t (target : list node) :
  list_find (folderTitled t) (untagged <$> target)
  = prod_map id untagged <$> list_find (folderTitled t) target.
Proof.
  rewrite list_find_fmap. f_equal.
  apply list_find_ext. intros n. apply folderTitled_untagged.
Qed.

Lemma isDuplicateBookmark_untagged (target : list node) (s : node) :
  isDuplicateBookmark (untagged <$> target) (untagged s)
  = isDuplicateBookmark target s.
Proof.
  unfold isDuplicateBookmark.
  induction target as [|x target IH]; [done|].
  rewrite fmap_cons. cbn [existsb]. rewrite IH.
  by rewrite !untagged_eq.
Qed.

Lemma untagged_mergeNodes_from (source : list node) :
  Forall (λ s, ∀ target,
    untagged <$> mergeNode s target = mergeNode (untagged s) (untagged <$> target))
    source →
  ∀ target,
    untagged <$> mergeNodes target source
    = mergeNodes (untagged <$> target) (untagged <$> source).
Proof.
  induction 1 as [|s source Hs _ IH]; intros target; [done|].
  rewrite fmap_cons, !mergeNodes_cons, IH. by rewrite Hs.
Qed.

Lemma untagged_mergeNode (s : node) :
  ∀ target,
    untagged <$> mergeNode s target = mergeNode (untagged s) (untagged <$> target).
Proof.
  induction s as [i t u d o|i t u d c o IH] using node_ind; intros target.
  - rewrite !mergeNode_leaf by done.
    rewrite isDuplicateBookmark_untagged.
    destruct (isDuplicateBookmark _ _); [done|by rewrite fmap_app].
  - rewrite (mergeNode_folder _ c) by done.
    rewrite (mergeNode_folder (untagged _) (untagged <$> c)) by done.
    rewrite list_find_untagged. cbn [title untagged].
    destruct (list_find _ target) as [[j e]|];
      cbn [fmap option_fmap option_map prod_map id fst snd];
      [|by rewrite fmap_app].
    case_decide.
    + by rewrite list_fmap_insert, untagged_withChildren.
    + rewrite list_fmap_insert, untagged_withChildren, untagged_withTitle.
      rewrite (untagged_mergeNodes_from c IH).
      do 4 f_equal. by destruct e as [? ? ? ? [?|] ?].
Qed.

Lemma untagged_mergeNodes (target source : list node) :
  untagged <$> mergeNodes target source
  = mergeNodes (untagged <$> target) (untagged <$> source).
Proof.
  apply untagged_mergeNodes_from, Forall_forall.
  intros s _. apply untagged_mergeNode.
Qed.

Lemma untagged_addBrowserToNode (b : string) (n : node) :
  untagged (addBrowserToNode b n) = untagged n.
Proof.
  induction n as [i t u d o|i t u d c o IH] using node_ind.
  - rewrite addBrowserToNode_eq. simpl.
    destruct (present u); [by rewrite deleteField_setField|done].
  - rewrite addBrowserToNode_eq. simpl. f_equal.
    + f_equal. rewrite <- list_fmap_compose. by apply Forall_fmap_ext_1.
    + destruct (present u); [by rewrite deleteField_setField|done].
Qed.

(** X3: the merge never looks at the [browser] tag.  Merging the tagged live
    forest into the stored one, as [exportAllData] does, gives, the tags
    apart, the forest that merging the untagged live forest gives. *)
Theorem merge_blind_to_browser_tag (stored live : list node) (b : string) :
  untagged <$> mergeTrees stored (addBrowserToNode b <$> live)
  = untagged <$> mergeTrees stored live.
Proof.
  unfold mergeTrees. rewrite !untagged_mergeNodes. f_equal.
  rewrite <- list_fmap_compose. apply list_fmap_ext.
  intros ? n _. apply untagged_addBrowserToNode.
Qed.

Lemma nodeToHtml_addBrowserToNode (now : Z) (b : string) (n : node) :
  ∀ depth, nodeToHtml now depth (addBrowserToNode b n) = nodeToHtml now depth n.
Proof.
  induction n as [i t u d o|i t u d c o IH] using node_ind; intros depth.
  - by rewrite addBrowserToNode_eq.
  - rewrite addBrowserToNode_eq. cbn.
    destruct (present u); [done|]. destruct (present t); [|done].
    do 2 f_equal.
    change (map ?g ?l) with (g <$> l).
    rewrite <- list_fmap_compose. apply Forall_fmap_ext_1.
    eapply Forall_impl; [exact IH|]. intros x Hx. apply Hx.
Qed.

Lemma lines_tagged (now : Z) (nodes : list node) (b : string) (depth : nat) :
  map (nodeToHtml now depth) (addBrowserToNode b <$> nodes)
  = map (nodeToHtml now depth) nodes.
Proof.
  change (map ?g ?l) with (g <$> l).
  rewrite <- list_fmap_compose. apply list_fmap_ext.
  intros ? n _. apply nodeToHtml_addBrowserToNode.
Qed.

(** X4: the [browser] tag never shows in the Netscape export: the tagged
    forest is written as the untagged one, line for line. *)
Theorem export_blind_to_browser_tag (now : Z) (nodes : list node) (b : string)
    (depth : nat) :
  bookmarksToHtml now (addBrowserToNode b <$> nodes) depth
  = bookmarksToHtml now nodes depth.
Proof. unfold bookmarksToHtml. by rewrite lines_tagged. Qed.

End TagsAndMerging.

(** ** The bookmarks a backup summary counts *)

Section Flattening.

Import Bookmarks Tagging Diff Backup.

Lemma flattenNode_eq (n : node) (arr : list obj) :
  flattenNode n arr =
    let arr1 := if present (url n) then arr ++ [entryOf n] else arr in
    match children n with
    | Some ch => flattenBookmarks ch arr1
    | None => arr1
    end.
Proof. by destruct n as [i t u d [ch|] o]. Qed.

Lemma flattenBookmarks_from (nodes : list node) :
  Forall (λ n, ∀ arr, flattenNode n arr
    = arr ++ (entryOf <$> filter (λ x, present (url x) = true) (nodesOf n))) nodes →
  ∀ arr, flattenBookmarks nodes arr
    = arr ++ (entryOf <$> filter (λ x, present (url x) = true) (allNodes nodes)).
Proof.
  induction 1 as [|n nodes Hn _ IH]; intros arr.
  - by rewrite app_nil_r.
  - unfold flattenBookmarks in *. cbn [fold_left].
    rewrite IH, Hn, allNodes_cons, filter_app, fmap_app. by rewrite app_assoc.
Qed.

Lemma flattenNode_preorder (n : node) :
  ∀ arr, flattenNode n arr
    = arr ++ (entryOf <$> filter (λ x, present (url x) = true) (nodesOf n)).
Proof.
  induction n as [i t u d o|i t u d c o IH] using node_ind; intros arr.
  - rewrite flattenNode_eq, nodesOf_eq. simpl.
    destruct (present u) eqn:E.
    + by rewrite filter_cons_True by done.
    + rewrite filter_cons_False by (simpl; congruence). by rewrite app_nil_r.
  - rewrite flattenNode_eq, nodesOf_eq. simpl.
    rewrite (flattenBookmarks_from c IH).
    destruct (present u) eqn:E.
    + rewrite filter_cons_True by done. by rewrite <- app_assoc.
    + by rewrite filter_cons_False by (simpl; congruence).
Qed.

Lemma flattened_entries (nodes : list node) :
  flattenBookmarks nodes []
  = entryOf <$> filter (λ n, present (url n) = true) (allNodes nodes).
Proof.
  rewrite (flattenBookmarks_from nodes); [done|].
  apply Forall_forall. intros n _. apply flattenNode_preorder.
Qed.

(** X5: [flattenBookmarks] appends to [arr], in document order (a parent
    before its children), one entry for every node of the forest that has a
    non-empty [url], whatever its depth and whether or not it has children
    of its own. *)
Theorem flattenBookmarks_preorder (nodes : list node) (arr : list obj) :
  flattenBookmarks nodes arr
  = arr ++ (entryOf <$> filter (λ n, present (url n) = true) (allNodes nodes)).
Proof.
  apply flattenBookmarks_from, Forall_forall.
  intros n _. apply flattenNode_preorder.
Qed.

End Flattening.

Section BackupSummary.

Import Bookmarks Tagging Diff Backup.

(** Every node of [ns] has a node of [ms] with the same [id], [title] and
    [url]. *)
Local Abbreviation covered ns ms :=
  (∀ n : node, n ∈ ns → ∃ m : node, m ∈ ms ∧ entryOf m = entryOf n).

Lemma ofString_inj (s1 s2 : option string) : ofString s1 = ofString s2 → s1 = s2.
Proof. destruct s1, s2; simpl; congruence. Qed.

Lemma entryOf_url (m n : node) : entryOf m = entryOf n → url m = url n.
Proof. unfold entryOf. intros H. apply ofString_inj. congruence. Qed.

Lemma elem_of_flattened (x : obj) (l : list node) :
  x ∈ flattenBookmarks l [] ↔
  ∃ n, n ∈ allNodes l ∧ present (url n) = true ∧ x = entryOf n.
Proof.
  rewrite flattened_entries, list_elem_of_fmap.
  setoid_rewrite list_elem_of_filter. naive_solver.
Qed.

Lemma covered_flattened (l k : list node) :
  covered (allNodes l) (allNodes k) →
  flattenBookmarks l [] ⊆ flattenBookmarks k [].
Proof.
  intros Hc x (n & Hn & Hu & ->)%elem_of_flattened.
  destruct (Hc n Hn) as (m & Hm & Hmn).
  apply elem_of_flattened. exists m. split; [done|]. split; [|done].
  by rewrite (entryOf_url _ _ Hmn).
Qed.

Lemma filter_none {A} (P : A → Prop) `{!∀ x, Decision (P x)} (l : list A) :
  (∀ x, x ∈ l → ¬ P x) → filter P l = [].
Proof.
  intros HP. destruct (filter P l) as [|x l'] eqn:E; [done|].
  assert (x ∈ filter P l) as [? ?]%list_elem_of_filter
    by (rewrite E; apply list_elem_of_here).
  by destruct (HP x).
Qed.

Lemma idsOf_mono (a b : list obj) : a ⊆ b → idsOf a ⊆ idsOf b.
Proof.
  intros Hab id (x & -> & Hx)%list_elem_of_fmap.
  apply list_elem_of_fmap. exists x. split; [done|]. by apply Hab.
Qed.

Lemma node_in_nodesOf (n : node) : n ∈ nodesOf n.
Proof. rewrite nodesOf_eq. apply list_elem_of_here. Qed.

Lemma elem_of_allNodes (x : node) (l : list node) :
  x ∈ allNodes l ↔ ∃ n, n ∈ l ∧ x ∈ nodesOf n.
Proof.
  unfold allNodes. rewrite list_elem_of_join.
  setoid_rewrite list_elem_of_fmap. naive_solver.
Qed.

Lemma children_in_nodesOf (x e : node) (ce : list node) :
  children e = Some ce → x ∈ allNodes ce → x ∈ nodesOf e.
Proof. intros Hce Hx. rewrite nodesOf_eq, Hce. by apply list_elem_of_further. Qed.

Lemma preserved_covered_children (inc : list node) (c : list node) :
  Forall (λ b, ∀ inc r, preserved inc b r →
            Forall (λ n, ¬ folderTitled bookmarksBar n) (nodesOf b) →
            covered (nodesOf b) (nodesOf r)) c →
  ∀ kept, Forall2 (preserved inc) c kept →
    Forall (λ n, ¬ folderTitled bookmarksBar n) (allNodes c) →
    covered (allNodes c) (allNodes kept).
Proof.
  induction 1 as [|b c Hb _ IH]; intros kept Hk Hno n Hn;
    inversion Hk as [|? r ? kept' Hbr Hk']; subst.
  - by apply elem_of_nil in Hn.
  - rewrite allNodes_cons in Hn, Hno. apply Forall_app in Hno as [Hno1 Hno2].
    rewrite allNodes_cons. apply elem_of_app in Hn as [Hn|Hn].
    + destruct (Hb _ _ Hbr Hno1 n Hn) as (m & Hm & ?).
      exists m. split; [|done]. apply elem_of_app. by left.
    + destruct (IH _ Hk' Hno2 n Hn) as (m & Hm & ?).
      exists m. split; [|done]. apply elem_of_app. by right.
Qed.

Lemma preserved_covered (b : node) :
  ∀ inc r, preserved inc b r →
    Forall (λ n, ¬ folderTitled bookmarksBar n) (nodesOf b) →
    covered (nodesOf b) (nodesOf r).
Proof.
  induction b as [i t u d o|i t u d c o IH] using node_ind;
    intros inc r Hp Hno n Hn.
  - apply preserved_fields in Hp as (_ & _ & _ & _ & _ & _ & ->); [|done].
    by exists n.
  - rewrite nodesOf_eq in Hno. cbn [children] in Hno.
    apply Forall_cons in Hno as [Hb Hno].
    inversion Hp as [| ? ? src sc Hf Hin Hsrc Hsc
                      | ? ? cb kept extra Hne Hcb Hk]; subst; simplify_eq/=.
    + by exists n.
    + done.
    + change (mjoin (nodesOf <$> cb)) with (allNodes cb) in Hn.
      apply elem_of_cons in Hn as [->|Hn].
      * eexists. split; [apply list_elem_of_here|done].
      * destruct (preserved_covered_children _ _ IH _ Hk Hno n Hn) as (m & Hm & ?).
        exists m. split; [|done]. apply list_elem_of_further.
        change (m ∈ allNodes (kept ++ extra)).
        rewrite allNodes_app. apply elem_of_app. by left.
Qed.

Lemma forestPreserved_covered (inc base result : list node) :
  forestPreserved inc base result → noBookmarksBar base →
  covered (allNodes base) (allNodes result).
Proof.
  intros (kept & extra & -> & Hk) Hno n Hn.
  destruct (preserved_covered_children inc base) with (kept := kept) (n := n)
    as (m & Hm & ?); [|done..|].
  - apply Forall_forall. intros b _. apply preserved_covered.
  - exists m. split; [|done]. rewrite allNodes_app. apply elem_of_app. by left.
Qed.

(** X6: a backup never reports a removed bookmark unless a 'Bookmarks Bar'
    was replaced.  When no folder of the stored forest is titled
    'Bookmarks Bar', every bookmark of the stored forest is found, with its
    [id], [title] and [url], in the forest that is backed up, and the
    summary's count of removed bookmarks is 0. *)
Theorem backup_reports_no_removed_bookmark (stored live : list node) :
  noBookmarksBar stored →
  flattenBookmarks stored [] ⊆ flattenBookmarks (mergeTrees stored live) []
  ∧ removedCount (bookmarkDiff (mergeTrees stored live) stored) = 0.
Proof.
  intros Hno.
  assert (flattenBookmarks stored [] ⊆ flattenBookmarks (mergeTrees stored live) [])
    as Hsub.
  { apply covered_flattened, (forestPreserved_covered live); [|done].
    apply mergeNodes_preserved. }
  split; [done|].
  unfold bookmarkDiff, diffById, newSet. simpl.
  apply length_zero_iff_nil, filter_none.
  intros id Hid Hnot.
  apply Hnot. rewrite elem_of_remove_dups in Hid |- *.
  by apply (idsOf_mono _ _ Hsub id).
Qed.

Lemma backup_reports_no_removed_bookmark_witness :
  let leaf i t u := Node (Some i) (Some t) (Some u) None None [] in
  let stored :=
    [Node (Some "0") (Some "") None None
       (Some [Node (Some "1") (Some "Work") None None
                (Some [leaf "5" "A" "http://a"]) [];
              leaf "6" "B" "http://b"]) []] in
  let live :=
    [Node (Some "0") (Some "") None None
       (Some [Node (Some "1") (Some "Work") None None
                (Some [leaf "9" "C" "http://c"]) []]) []] in
  noBookmarksBar stored
  ∧ removedCount (bookmarkDiff (mergeTrees stored live) stored) = 0
  ∧ addedCount (bookmarkDiff (mergeTrees stored live) stored) = 1.
Proof.
  intros leaf stored live.
  assert (noBookmarksBar stored) as Hno.
  { unfold noBookmarksBar. simpl.
    repeat (apply Forall_cons; split; [by intros [_ ?]|]). apply Forall_nil_2. }
  split; [exact Hno|]. split; [|by vm_compute].
  apply (backup_reports_no_removed_bookmark stored live Hno).
Defined.

Lemma allNodes_insert (target : list node) (j : nat) (e e' x : node) :
  target !! j = Some e →
  x ∈ allNodes (<[j := e']> target) → x ∈ allNodes target ∨ x ∈ nodesOf e'.
Proof.
  intros Hj. rewrite insert_take_drop by by eapply lookup_lt_Some.
  rewrite <- (take_drop_middle target j e Hj) at 3.
  rewrite !allNodes_app, !allNodes_cons, !elem_of_app. tauto.
Qed.

Lemma lookup_in_allNodes (target : list node) (j : nat) (e x : node) :
  target !! j = Some e → x ∈ nodesOf e → x ∈ allNodes target.
Proof.
  intros Hj Hx. apply elem_of_allNodes. exists e.
  split; [by eapply list_elem_of_lookup_2|done].
Qed.

Lemma mergeNodes_provenance_from (source : list node) :
  Forall (λ s, ∀ target, covered (allNodes (mergeNode s target))
                                 (allNodes target ++ nodesOf s)) source →
  ∀ target, covered (allNodes (mergeNodes target source))
                    (allNodes target ++ allNodes source).
Proof.
  induction 1 as [|s source Hs _ IH]; intros target x Hx.
  - exists x. split; [|done]. apply elem_of_app. by left.
  - rewrite mergeNodes_cons in Hx.
    destruct (IH _ x Hx) as (m & [Hm|Hm]%elem_of_app & Hmx).
    + destruct (Hs _ m Hm) as (m' & Hm' & Hmm').
      exists m'. split; [|congruence].
      rewrite allNodes_cons, app_assoc. apply elem_of_app. by left.
    + exists m. split; [|done].
      rewrite allNodes_cons, !elem_of_app. auto.
Qed.

Lemma allNodes_push (s : node) (target : list node) :
  covered (allNodes (target ++ [s])) (allNodes target ++ nodesOf s).
Proof.
  intros x Hx. exists x. split; [|done].
  by rewrite allNodes_app, allNodes_cons, app_nil_r in Hx.
Qed.

Lemma mergeNode_provenance (s : node) :
  ∀ target, covered (allNodes (mergeNode s target)) (allNodes target ++ nodesOf s).
Proof.
  induction s as [i t u d o|i t u d c o IH] using node_ind; intros target x Hx.
  - rewrite mergeNode_leaf in Hx by done.
    destruct (isDuplicateBookmark _ _); [|by apply allNodes_push].
    exists x. split; [|done]. apply elem_of_app. by left.
  - rewrite (mergeNode_folder _ c) in Hx by done. cbn [title] in Hx.
    destruct (list_find _ target) as [[j e]|] eqn:Hfind; [|by apply allNodes_push].
    apply list_find_Some in Hfind as (Hj & [Hfe Hte] & _).
    assert (∀ y c', y ∈ nodesOf (withChildren (withTitle e t) (Some c')) →
              (∃ m, m ∈ allNodes target ∧ entryOf m = entryOf y) ∨ y ∈ allNodes c')
      as Hnew.
    { intros y c' Hy. rewrite nodesOf_eq in Hy. cbn [children withChildren] in Hy.
      apply elem_of_cons in Hy as [->|Hy]; [left|by right].
      exists e. split; [by eapply lookup_in_allNodes, node_in_nodesOf|].
      unfold entryOf. simpl. by rewrite Hte. }
    assert (withChildren e (Some c) = withChildren (withTitle e t) (Some c)) as Hwt
      by (by rewrite <- Hte, withTitle_id).
    case_decide as Hbar.
    + apply (allNodes_insert _ _ e _ _ Hj) in Hx as [Hx|Hx].
      { exists x. split; [|done]. apply elem_of_app. by left. }
      rewrite Hwt in Hx. apply Hnew in Hx as [(m & Hm & ?)|Hx].
      * exists m. split; [|done]. apply elem_of_app. by left.
      * exists x. split; [|done]. apply elem_of_app. right.
        rewrite nodesOf_eq. by apply list_elem_of_further.
    + apply (allNodes_insert _ _ e _ _ Hj) in Hx as [Hx|Hx].
      { exists x. split; [|done]. apply elem_of_app. by left. }
      apply Hnew in Hx as [(m & Hm & ?)|Hx].
      { exists m. split; [|done]. apply elem_of_app. by left. }
      destruct (mergeNodes_provenance_from c IH _ x Hx)
        as (m & [Hm|Hm]%elem_of_app & Hmx).
      * exists m. split; [|done]. apply elem_of_app. left.
        destruct Hfe as [ce Hce]. rewrite Hce in Hm.
        eapply lookup_in_allNodes; [done|]. by eapply children_in_nodesOf.
      * exists m. split; [|done]. apply elem_of_app. right.
        rewrite nodesOf_eq. by apply list_elem_of_further.
Qed.

Lemma mergeNodes_provenance (target source : list node) :
  covered (allNodes (mergeNodes target source)) (allNodes target ++ allNodes source).
Proof.
  apply mergeNodes_provenance_from, Forall_forall.
  intros s _. apply mergeNode_provenance.
Qed.

(** X7: every bookmark of the forest that is backed up comes, with its [id],
    [title] and [url], from the stored forest or from the live one; so the
    summary never counts more added bookmarks than comparing the live forest
    alone with the stored one would. *)
Theorem backup_added_bookmarks_are_live (stored live : list node) :
  (∀ x, x ∈ flattenBookmarks (mergeTrees stored live) [] →
        x ∈ flattenBookmarks stored [] ∨ x ∈ flattenBookmarks live [])
  ∧ addedCount (bookmarkDiff (mergeTrees stored live) stored)
    ≤ addedCount (bookmarkDiff live stored).
Proof.
  assert (∀ x, x ∈ flattenBookmarks (mergeTrees stored live) [] →
               x ∈ flattenBookmarks stored [] ∨ x ∈ flattenBookmarks live [])
    as Hfrom.
  { intros x (n & Hn & Hu & ->)%elem_of_flattened.
    destruct (mergeNodes_provenance stored live n Hn)
      as (m & [Hm|Hm]%elem_of_app & Hmn);
      [left|right]; apply elem_of_flattened; exists m;
      by rewrite (entryOf_url _ _ Hmn). }
  split; [done|].
  unfold bookmarkDiff, diffById, newSet. simpl.
  apply submseteq_length, NoDup_submseteq.
  - apply NoDup_filter, NoDup_remove_dups.
  - intros id [Hnot Hid]%list_elem_of_filter.
    apply list_elem_of_filter. split; [done|].
    rewrite elem_of_remove_dups in Hid, Hnot |- *.
    apply list_elem_of_fmap in Hid as (x & -> & Hx).
    apply Hfrom in Hx as [Hx|Hx].
    + destruct Hnot. apply list_elem_of_fmap. by exists x.
    + apply list_elem_of_fmap. by exists x.
Qed.

End BackupSummary.

(** ** What a merge keeps true of a sibling list *)

Section SiblingInvariants.

Import Bookmarks.

Lemma folderTitles_app (l k : list node) :
  folderTitles (l ++ k) = folderTitles l ++ folderTitles k.
Proof. unfold folderTitles. by rewrite omap_app. Qed.

Lemma folderTitles_insert (l : list node) (j : nat) (e e' : node) :
  l !! j = Some e → is_Some (children e) → is_Some (children e') →
  title e' = title e →
  folderTitles (<[j := e']> l) = folderTitles l.
Proof.
  intros Hj [ce Hce] [ce' Hce'] Ht.
  rewrite insert_take_drop by by eapply lookup_lt_Some.
  rewrite <- (take_drop_middle l j e Hj) at 3.
  rewrite !folderTitles_app. f_equal.
  unfold folderTitles. simpl. by rewrite Hce, Hce', Ht.
Qed.

Lemma elem_of_folderTitles (l : list node) t :
  t ∈ folderTitles l ↔ ∃ n, n ∈ l ∧ folderTitled t n.
Proof.
  unfold folderTitles, folderTitled. rewrite list_elem_of_omap. split.
  - intros (n & Hn & Hc). exists n. destruct (children n); naive_solver.
  - intros (n & Hn & [c Hc] & Ht). exists n. rewrite Hc. naive_solver.
Qed.

Lemma mergeNode_folderTitles (s : node) (target : list node) :
  folderTitles (mergeNode s target)
  = folderTitles target
    ++ (if decide (is_Some (children s) ∧ title s ∉ folderTitles target)
        then [title s] else []).
Proof.
  destruct (decide (is_Some (children s) ∧ title s ∉ folderTitles target))
    as [[[sc Hsc] Hnot]|Hin].
  - rewrite (mergeNode_folder _ sc) by done.
    destruct (list_find _ target) as [[j e]|] eqn:Hfind.
    + apply list_find_Some in Hfind as (Hj & Hf & _).
      destruct Hnot. apply elem_of_folderTitles.
      exists e. split; [by eapply list_elem_of_lookup_2|done].
    + rewrite folderTitles_app. f_equal.
      unfold folderTitles. simpl. by rewrite Hsc.
  - rewrite app_nil_r. destruct (children s) as [sc|] eqn:Hsc.
    + rewrite (mergeNode_folder _ sc) by done.
      destruct (list_find _ target) as [[j e]|] eqn:Hfind.
      * apply list_find_Some in Hfind as (Hj & [[ce Hce] Hte] & _).
        case_decide; (eapply folderTitles_insert; [done|by eexists..|]);
          by destruct e.
      * destruct Hin. split; [by eexists|].
        intros (n & Hn & Hf)%elem_of_folderTitles.
        eapply list_find_None in Hfind. by eapply Forall_forall in Hfind.
    + rewrite mergeNode_leaf by done.
      destruct (isDuplicateBookmark _ _); [done|].
      rewrite folderTitles_app. unfold folderTitles at 2. simpl.
      by rewrite Hsc, app_nil_r.
Qed.

(** X8: merging keeps the titles of sibling folders distinct: when no two
    folders of the base list share a title, no two folders of the merged list
    do; and the folder titles of the merged list are those of the base list
    and of the incoming list, no other. *)
Theorem merge_keeps_folder_titles_distinct (base incoming : list node) :
  (NoDup (folderTitles base) → NoDup (folderTitles (mergeTrees base incoming)))
  ∧ (∀ t, t ∈ folderTitles (mergeTrees base incoming)
          ↔ t ∈ folderTitles base ∨ t ∈ folderTitles incoming).
Proof.
  unfold mergeTrees. revert base.
  induction incoming as [|s incoming IH]; intros base.
  - split; [done|]. intros t. simpl. set_solver.
  - rewrite mergeNodes_cons. destruct (IH (mergeNode s base)) as [IH1 IH2].
    split.
    + intros Hnd. apply IH1. rewrite mergeNode_folderTitles.
      case_decide as Hs; [|by rewrite app_nil_r].
      apply NoDup_app. split; [done|]. split; [|apply NoDup_singleton].
      intros t Ht ->%list_elem_of_singleton. by destruct Hs.
    + intros t. rewrite IH2, mergeNode_folderTitles.
      change (s :: incoming) with ([s] ++ incoming).
      rewrite folderTitles_app, !elem_of_app.
      assert (t ∈ folderTitles [s] ↔ is_Some (children s) ∧ title s = t) as ->.
      { rewrite elem_of_folderTitles. unfold folderTitled.
        setoid_rewrite list_elem_of_singleton. naive_solver. }
      case_decide as Hs.
      * rewrite list_elem_of_singleton. naive_solver.
      * rewrite elem_of_nil.
        destruct (decide (title s ∈ folderTitles base)); naive_solver.
Qed.

Lemma mergeNode_countLeaves_bound (s : node) (target : list node)
    (u t : option string) :
  present u = true →
  countLeaves u t (mergeNode s target) ≤ Nat.max 1 (countLeaves u t target).
Proof.
  intros Hu. unfold countLeaves.
  destruct (children s) as [sc|] eqn:Hsc.
  - rewrite (mergeNode_folder _ sc) by done.
    destruct (list_find (folderTitled (title s)) target) as [[j e]|] eqn:Hfind.
    + apply list_find_Some in Hfind as (Hj & [[ce Hce] He] & _).
      case_decide;
        (erewrite length_filter_insert; [lia|done|]);
        unfold leafWithKey; simpl; rewrite ?Hce; naive_solver.
    + rewrite filter_app, length_app. simpl.
      rewrite filter_cons_False, filter_nil; [simpl; lia|].
      intros [Hs _]. congruence.
  - rewrite mergeNode_leaf by done.
    destruct (isDuplicateBookmark target s) eqn:Hdup; [lia|].
    rewrite filter_app, length_app, filter_cons. simpl.
    case_decide as Hleaf; [|simpl; lia].
    destruct Hleaf as (_ & Hsu & Hst).
    destruct (filter (leafWithKey u t) target) as [|x l'] eqn:E; [simpl; lia|].
    assert (x ∈ filter (leafWithKey u t) target) as [(_ & Hxu & Hxt) Hx]%list_elem_of_filter
      by (rewrite E; apply list_elem_of_here).
    assert (isDuplicateBookmark target s = true); [|congruence].
    apply isDuplicateBookmark_true. exists x.
    split_and!; [done|congruence|congruence|congruence|congruence].
Qed.

(** X9: merging never stores the same bookmark twice.  For a non-empty
    [url], the merged list holds at most as many nodes without children that
    carry this [url] and a given [title] as the base list held, and at most
    one when the base list held none. *)
Theorem merge_never_duplicates_a_bookmark (base incoming : list node)
    (u t : option string) :
  present u = true →
  countLeaves u t (mergeTrees base incoming) ≤ Nat.max 1 (countLeaves u t base).
Proof.
  intros Hu. unfold mergeTrees. revert base.
  induction incoming as [|s incoming IH]; intros base; [simpl; lia|].
  rewrite mergeNodes_cons.
  pose proof (IH (mergeNode s base)).
  pose proof (mergeNode_countLeaves_bound s base u t Hu). lia.
Qed.

Lemma merge_never_duplicates_a_bookmark_witness :
  let leaf t u := Node None (Some t) (Some u) None None [] in
  let base := [leaf "B" "http://b"] in
  let incoming := [leaf "A" "http://a"; leaf "B" "http://b"; leaf "A" "http://a"] in
  present (Some "http://a") = true
  ∧ countLeaves (Some "http://a") (Some "A") (mergeTrees base incoming)
    ≤ Nat.max 1 (countLeaves (Some "http://a") (Some "A") base)
  ∧ mergeTrees base incoming = [leaf "B" "http://b"; leaf "A" "http://a"].
Proof.
  intros leaf base incoming. split; [reflexivity|]. split; [|by vm_compute].
  apply (merge_never_duplicates_a_bookmark base incoming); reflexivity.
Defined.

Lemma mergeNode_length (s : node) (target : list node) :
  length target ≤ length (mergeNode s target) ≤ S (length target).
Proof.
  destruct (children s) as [sc|] eqn:Hsc.
  - rewrite (mergeNode_folder _ sc) by done.
    destruct (list_find _ target) as [[j e]|].
    + case_decide; rewrite length_insert; lia.
    + rewrite length_app. simpl. lia.
  - rewrite mergeNode_leaf by done.
    destruct (isDuplicateBookmark _ _); [lia|].
    rewrite length_app. simpl. lia.
Qed.

(** X10: a merge appends at most one node per incoming node to the list it
    merges into, and removes none. *)
Theorem merge_length_bounds (base incoming : list node) :
  length base ≤ length (mergeTrees base incoming) ≤ length base + length incoming.
Proof.
  unfold mergeTrees. revert base.
  induction incoming as [|s incoming IH]; intros base; [simpl; lia|].
  rewrite mergeNodes_cons. simpl.
  pose proof (IH (mergeNode s base)).
  pose proof (mergeNode_length s base). lia.
Qed.

End SiblingInvariants.

(** ** A merge that is repeated *)

Section RepeatedMerge.

Import Bookmarks.

Lemma list_find_folder_None t (l : list node) :
  list_find (folderTitled t) l = None ↔ t ∉ folderTitles l.
Proof.
  rewrite list_find_None, elem_of_folderTitles, Forall_forall. naive_solver.
Qed.

Lemma mergeNodes_no_new_folder (source : list node) t :
  Forall (λ s, ¬ folderTitled t s) source →
  ∀ target, list_find (folderTitled t) target = None →
    list_find (folderTitled t) (mergeNodes target source) = None.
Proof.
  induction 1 as [|s source Hs _ IH]; intros target Hnone; [done|].
  rewrite mergeNodes_cons. apply IH.
  apply list_find_folder_None. apply list_find_folder_None in Hnone.
  rewrite mergeNode_folderTitles, elem_of_app. intros Hor.
  destruct Hor as [?|Hin]; [done|].
  case_decide as Hd; [|by apply elem_of_nil in Hin].
  apply list_elem_of_singleton in Hin as ->. destruct Hd as [? _].
  apply Hs. by split.
Qed.

Lemma list_find_insert_same {A} (P : A → Prop) `{!∀ x, Decision (P x)}
    (l : list A) (j : nat) (e e' : A) :
  list_find P l = Some (j, e) → P e' →
  list_find P (<[j := e']> l) = Some (j, e').
Proof.
  intros (Hj & He & Hbefore)%list_find_Some He'.
  apply list_find_Some. split_and!.
  - apply list_lookup_insert_eq. by eapply lookup_lt_Some.
  - done.
  - intros i x Hi Hij. rewrite list_lookup_insert_ne in Hi by lia. eauto.
Qed.

Lemma list_find_push {A} (P : A → Prop) `{!∀ x, Decision (P x)}
    (l : list A) (x : A) :
  list_find P l = None → P x → list_find P (l ++ [x]) = Some (length l, x).
Proof.
  intros Hnone Hx. rewrite list_find_app_r by done. simpl.
  by rewrite decide_True by done.
Qed.

Lemma folder_split (L : list node) (s : node) :
  NoDup (folderTitles L) → s ∈ L → is_Some (children s) →
  ∃ L1 L2, L = L1 ++ s :: L2
    ∧ Forall (λ x, ¬ folderTitled (title s) x) L1
    ∧ Forall (λ x, ¬ folderTitled (title s) x) L2.
Proof.
  intros Hnd (L1 & L2 & ->)%list_elem_of_split [cs Hcs].
  exists L1, L2. split; [done|].
  rewrite cons_middle, !folderTitles_app in Hnd.
  assert (folderTitles [s] = [title s]) as Hs
    by (unfold folderTitles; simpl; by rewrite Hcs).
  rewrite Hs in Hnd.
  apply NoDup_app in Hnd as (_ & Hdisj1 & Hnd).
  apply NoDup_app in Hnd as (_ & Hdisj2 & _).
  split; apply Forall_forall; intros x Hx Hf.
  - eapply (Hdisj1 (title s)).
    + apply elem_of_folderTitles. by exists x.
    + apply elem_of_app. left. apply list_elem_of_here.
  - eapply (Hdisj2 (title s)); [apply list_elem_of_here|].
    apply elem_of_folderTitles. by exists x.
Qed.

(** The folder the merge of [L] leaves under the title of a folder [s] of
    [L]: it is at the place where a second merge of [s] looks, and holds
    either the children of [s] or the children that were there merged with
    those of [s]. *)
Lemma merged_folder (L : list node) (s : node) (cs : list node) (S : list node) :
  NoDup (folderTitles L) → s ∈ L → children s = Some cs →
  ∃ j e, list_find (folderTitled (title s)) (mergeNodes S L) = Some (j, e)
    ∧ ((title s = bookmarksBar ∧ children e = Some cs)
       ∨ (title s ≠ bookmarksBar
          ∧ (children e = Some cs ∨ ∃ ce, children e = Some (mergeNodes ce cs)))).
Proof.
  intros Hnd Hs Hcs.
  destruct (folder_split L s Hnd Hs) as (L1 & L2 & -> & H1 & H2); [by eexists|].
  rewrite mergeNodes_app, mergeNodes_cons.
  set (target1 := mergeNodes S L1).
  assert (folderTitled (title s) s) as Hfs by (split; [by eexists|done]).
  rewrite (mergeNode_folder _ cs) by done.
  destruct (list_find (folderTitled (title s)) target1) as [[j e0]|] eqn:Hfind.
  - pose proof Hfind as (Hj & [[ce0 Hce0] Hte0] & _)%list_find_Some.
    case_decide as Hbar.
    + exists j, (withChildren e0 (Some cs)). split; [|by left].
      apply mergeNodes_other; [|done].
      eapply list_find_insert_same; [done|]. split; [by eexists|done].
    + eexists j, _. split.
      * apply mergeNodes_other; [|done].
        eapply list_find_insert_same; [done|]. split; [by eexists|done].
      * right. split; [done|]. right. exists ce0. by rewrite Hce0.
  - exists (length target1), s. split.
    + apply mergeNodes_other; [|done]. by apply list_find_push.
    + destruct (decide (title s = bookmarksBar)); [by left|right; auto].
Qed.

Lemma mergeNodes_self (c : list node) : selfStable c → mergeNodes c c = c.
Proof.
  intros [Hnd Hall]. apply mergeNodes_fixed, Forall_forall. intros x Hx.
  apply mergeNode_self; [|done..]. by eapply Forall_forall in Hall.
Qed.

Lemma mergeNode_absorbed (s : node) :
  selfStableNode s →
  ∀ L S, NoDup (folderTitles L) → s ∈ L →
    mergeNode s (mergeNodes S L) = mergeNodes S L.
Proof.
  induction s as [i t u d o|i t u d c o IH] using node_ind;
    intros Hs L S Hnd HsL.
  - rewrite mergeNode_leaf by done.
    replace (isDuplicateBookmark _ _) with true; [done|].
    symmetry. apply isDuplicateBookmark_true.
    destruct (mergeNodes_incoming_leaf L S _ HsL eq_refl) as (x & Hx & Hxu & Hxt).
    exists x. simpl in *. split_and!; [done|congruence|done..].
  - destruct (merged_folder L _ c S Hnd HsL eq_refl) as (j & e & Hfind & Hcases).
    rewrite (mergeNode_folder _ c) by done. simpl in Hfind, Hcases |- *.
    rewrite Hfind.
    apply list_find_Some in Hfind as (Hj & [_ Hte] & _).
    assert (∀ X, children e = Some X → withChildren (withTitle e t) (Some X) = e)
      as Hsame.
    { intros X HX. rewrite <- Hte, withTitle_id, <- HX. apply withChildren_id. }
    destruct Hcases as [[-> Hce]|[Hbar Hce]].
    + rewrite decide_True by done.
      rewrite <- Hce, withChildren_id. by apply list_insert_id.
    + rewrite decide_False by done.
      apply selfStableNode_folder in Hs as [?|Hc]; [done|].
      assert (∀ ce, mergeNodes (mergeNodes ce c) c = mergeNodes ce c) as Habs.
      { intros ce. apply mergeNodes_fixed, Forall_forall. intros x Hx.
        destruct Hc as [Hndc Hallc]. rewrite Forall_forall in IH, Hallc.
        apply IH; auto. }
      destruct Hce as [Hce|[ce Hce]]; rewrite Hce; simpl.
      * rewrite mergeNodes_self by done. rewrite (Hsame _ Hce).
        by apply list_insert_id.
      * rewrite Habs, (Hsame _ Hce). by apply list_insert_id.
Qed.

(** X11: a merge that is repeated changes nothing more.  When the incoming
    forest has distinct folder titles among siblings and a non-empty [url]
    on every node without children (below a 'Bookmarks Bar' anything goes),
    merging it a second time into the result of the first merge gives that
    result again, whatever the base was: a backup that runs again on an
    unchanged browser forest stores what it stored before. *)
Theorem merge_again_changes_nothing (base incoming : list node) :
  selfStable incoming →
  mergeTrees (mergeTrees base incoming) incoming = mergeTrees base incoming.
Proof.
  intros [Hnd Hall]. unfold mergeTrees.
  apply mergeNodes_fixed, Forall_forall. intros s Hs.
  apply mergeNode_absorbed; [|done..]. by eapply Forall_forall in Hall.
Qed.

Lemma merge_again_changes_nothing_witness :
  let leaf t u := Node None (Some t) (Some u) None None [] in
  let base := [Node (Some "1") (Some "Work") None None
                 (Some [leaf "A" "http://a"]) [];
               Node (Some "2") (Some "Work") None None (Some []) [];
               Node None (Some "Loose") None None None []] in
  let incoming := [Node (Some "7") (Some "Work") None None
                     (Some [leaf "B" "http://b"]) [];
                   leaf "C" "http://c"] in
  selfStable incoming
  ∧ mergeTrees (mergeTrees base incoming) incoming = mergeTrees base incoming.
Proof.
  intros leaf base incoming.
  assert (Hs : selfStable incoming).
  { split; [by apply (bool_decide_unpack _)|].
    apply Forall_cons; split.
    { right. split; [by apply (bool_decide_unpack _)|].
      split; [reflexivity|exact I]. }
    apply Forall_cons; split; [reflexivity|]. apply Forall_nil_2. }
  split; [exact Hs|]. apply (merge_again_changes_nothing base incoming Hs).
Defined.

End RepeatedMerge.

(** ** Two backups in a row *)

Section SecondBackup.

Import Bookmarks Diff Backup.

Lemma diffById_same (arr : list obj) : diffById arr arr = Summary 0 0.
Proof.
  unfold diffById. by rewrite filter_none by (intros id Hid Hnot; by apply Hnot).
Qed.

(** X12: a backup of an unchanged browser reports no change.  After a backup
    has stored the merge of the stored forest with the live one, a second
    backup with the same live forest, provided it has distinct folder titles
    among siblings and a non-empty [url] on every node without children,
    stores the same forest again and shows 0 bookmarks added, 0 removed. *)
Theorem second_backup_reports_no_change (stored live : list node) :
  selfStable live →
  bookmarkDiff (mergeTrees (mergeTrees stored live) live) (mergeTrees stored live)
  = Summary 0 0.
Proof.
  intros [Hnd Hall]. unfold bookmarkDiff.
  replace (mergeTrees (mergeTrees stored live) live) with (mergeTrees stored live);
    [apply diffById_same|].
  symmetry. unfold mergeTrees. apply mergeNodes_fixed, Forall_forall.
  intros s Hs. apply mergeNode_absorbed; [|done..]. by eapply Forall_forall in Hall.
Qed.

Lemma second_backup_reports_no_change_witness :
  let leaf i t u := Node (Some i) (Some t) (Some u) None None [] in
  let stored := [Node (Some "1") (Some "Work") None None
                   (Some [leaf "5" "A" "http://a"]) []] in
  let live := [Node (Some "7") (Some "Work") None None
                 (Some [leaf "8" "B" "http://b"]) [];
               leaf "9" "C" "http://c"] in
  selfStable live
  ∧ bookmarkDiff (mergeTrees stored live) stored = Summary 2 0
  ∧ bookmarkDiff (mergeTrees (mergeTrees stored live) live) (mergeTrees stored live)
    = Summary 0 0.
Proof.
  intros leaf stored live.
  assert (Hs : selfStable live).
  { split; [by apply (bool_decide_unpack _)|].
    apply Forall_cons; split.
    { right. split; [by apply (bool_decide_unpack _)|].
      split; [reflexivity|exact I]. }
    apply Forall_cons; split; [reflexivity|]. apply Forall_nil_2. }
  split; [exact Hs|]. split; [by vm_compute|].
  apply (second_backup_reports_no_change stored live Hs).
Defined.

End SecondBackup.

(** ** The size of the merged record list; records that share no key *)

Section RecordLists.

Import Records Keys.

Lemma objectsOf_records (l : list obj) : objectsOf (EObj <$> l) = l.
Proof.
  unfold objectsOf. induction l as [|r l IH]; [done|].
  simpl. f_equal. exact IH.
Qed.

Lemma mergeRecords_run (base incoming : list obj) :
  mergeRecords base incoming = finalResult (run base incoming).
Proof.
  unfold mergeRecords, mergeExtensionLists. simpl.
  by rewrite !objectsOf_records.
Qed.

Lemma step_length (isFromListB : bool) (s : state) (currentExt : obj) :
  length (finalResult s) ≤ length (finalResult (step isFromListB s currentExt))
    ≤ S (length (finalResult s))
  ∧ (finalResult s = [] → finalResult (step isFromListB s currentExt) ≠ []).
Proof.
  unfold step.
  destruct (matchIndex s _) as [m|]; [destruct (finalResult s !! m) eqn:Hm|];
    simpl; rewrite ?length_insert, ?length_app; simpl.
  - split; [lia|]. intros Hnil. by rewrite Hnil in Hm.
  - split; [lia|]. intros _. by destruct (finalResult s).
  - split; [lia|]. intros _. by destruct (finalResult s).
Qed.

Lemma fold_step_length (isFromListB : bool) (l : list obj) (s : state) :
  length (finalResult s) ≤ length (finalResult (fold_left (step isFromListB) l s))
    ≤ length (finalResult s) + length l
  ∧ (l ≠ [] → finalResult (fold_left (step isFromListB) l s) ≠ []).
Proof.
  revert s. induction l as [|r l IH]; intros s; simpl; [split; [lia|done]|].
  destruct (IH (step isFromListB s r)) as [IH1 IH2].
  destruct (step_length isFromListB s r) as [Hs1 Hs2].
  split; [lia|]. intros _.
  destruct l as [|r' l]; [|by apply IH2].
  simpl. destruct (finalResult (step isFromListB s r)) eqn:E; [|done].
  destruct (finalResult s) eqn:Es; [by destruct Hs2|simpl in *; lia].
Qed.

(** X13: the merged list holds at most one record per input record, and at
    least one record as soon as there is an input record. *)
Theorem mergeRecords_size (base incoming : list obj) :
  length (mergeRecords base incoming) ≤ length base + length incoming
  ∧ (base ++ incoming ≠ [] → mergeRecords base incoming ≠ []).
Proof.
  rewrite mergeRecords_run. unfold run.
  destruct (fold_step_length false base init) as [[_ Ha] Ha'].
  destruct (fold_step_length true incoming (fold_left (step false) base init))
    as [[Hb0 Hb] Hb'].
  simpl in Ha. split; [lia|].
  intros Hne. destruct incoming as [|r incoming]; [|by apply Hb'].
  rewrite app_nil_r in Hne. simpl. by apply Ha'.
Qed.

Lemma step_unmatched (isFromListB : bool) (s : state) (currentExt : obj) :
  indexed s →
  distinctKeys (finalResult s ++ [jsonClone currentExt]) →
  finalResult (step isFromListB s currentExt)
  = finalResult s ++ [jsonClone currentExt].
Proof.
  intros [Hid _ Hurl] Hd. unfold step.
  assert (∀ i r, finalResult s !! i = Some r →
            (truthy (recId r) = true → recId r ≠ recId (jsonClone currentExt))
            ∧ (nonEmpty (recUrl r) = true → recUrl r ≠ recUrl (jsonClone currentExt)))
    as Hfresh.
  { intros i r Hi.
    apply (Hd i (length (finalResult s))).
    - by apply lookup_app_l_Some.
    - by rewrite lookup_app_r, Nat.sub_diag.
    - apply lookup_lt_Some in Hi. lia. }
  destruct (matchIndex s _) as [m|] eqn:Hm; [|done].
  exfalso. unfold matchIndex, existingIdIndex, existingUrlIndex in Hm.
  repeat case_match; simplify_eq;
    match goal with
    | H : idToIndexMap _ !! _ = Some _ |- _ => apply Hid in H as (r & Hr & Hk & Ht)
    | H : urlToIndexMap _ !! _ = Some _ |- _ => apply Hurl in H as (r & Hr & Hk & Ht)
    end;
    destruct (Hfresh _ _ Hr) as [Hfid Hfurl];
    first [ by apply Hfid; unfold recId in *; congruence
          | by apply Hfurl; unfold recUrl in *; congruence ].
Qed.

Lemma distinctKeys_prefix (l k : list obj) : distinctKeys (l ++ k) → distinctKeys l.
Proof.
  intros Hd i j ri rj Hi Hj. apply Hd; by apply lookup_app_l_Some.
Qed.

Lemma fold_step_distinct (isFromListB : bool) (l : list obj) :
  ∀ s, indexed s →
    distinctKeys (finalResult s ++ (jsonClone <$> l)) →
    finalResult (fold_left (step isFromListB) l s)
    = finalResult s ++ (jsonClone <$> l).
Proof.
  induction l as [|r l IH]; intros s Hs Hd; simpl.
  - by rewrite app_nil_r.
  - rewrite fmap_cons, cons_middle, app_assoc in Hd.
    pose proof (step_unmatched isFromListB s r Hs (distinctKeys_prefix _ _ Hd)) as Hr.
    rewrite IH, Hr; [by rewrite <- app_assoc|by apply step_indexed|by rewrite Hr].
Qed.

(** X14: records that share no key are never merged.  When no two of the
    input records, as copied, share a non-empty id or a non-empty homepage
    URL, the merged list is the base records followed by the incoming ones,
    each one a JSON copy. *)
Theorem mergeRecords_distinct_keys (base incoming : list obj) :
  distinctKeys (jsonClone <$> (base ++ incoming)) →
  mergeRecords base incoming = jsonClone <$> (base ++ incoming).
Proof.
  intros Hd. rewrite mergeRecords_run. unfold run.
  rewrite fmap_app in Hd |- *.
  assert (finalResult (fold_left (step false) base init) = jsonClone <$> base) as Ha.
  { rewrite fold_step_distinct; [done|apply indexed_init|].
    simpl. by eapply distinctKeys_prefix. }
  rewrite fold_step_distinct, Ha; [done| |by rewrite Ha].
  apply fold_step_indexed, indexed_init.
Qed.

Lemma mergeRecords_distinct_keys_witness :
  let base := [[("id", PStr "a"); ("name", PStr "A"); ("homepageUrl", PStr "http://a")]] in
  let incoming := [[("id", PStr "b"); ("name", PUndef)]] in
  distinctKeys (jsonClone <$> (base ++ incoming))
  ∧ mergeRecords base incoming
    = [[("id", PStr "a"); ("name", PStr "A"); ("homepageUrl", PStr "http://a")];
       [("id", PStr "b")]].
Proof.
  intros base incoming.
  assert (distinctKeys (jsonClone <$> (base ++ incoming))) as Hd.
  { intros i j ri rj Hi Hj Hij.
    destruct i as [|[|i]], j as [|[|j]]; simplify_eq/=; try done;
      unfold recId, recUrl; simpl; split; intros Ht; congruence. }
  split; [exact Hd|].
  rewrite (mergeRecords_distinct_keys base incoming Hd). reflexivity.
Defined.

End RecordLists.

(** ** The values of the merged records *)

Section RecordValues.

Import Records.

Lemma getField_elem (o : obj) (k : string) :
  getField o k ≠ PUndef → (k, getField o k) ∈ o.
Proof.
  induction o as [|[k' v] o IH]; simpl; [done|].
  destruct (String.eqb_spec k' k) as [->|Hne]; intros Hv.
  - apply list_elem_of_here.
  - apply list_elem_of_further. by apply IH.
Qed.

Lemma jsonClone_elem (o : obj) (kv : string * prim) : kv ∈ jsonClone o → kv ∈ o.
Proof. unfold jsonClone. by intros [_ ?]%list_elem_of_filter. Qed.

Lemma mergedValue_cases (baseExt preferredExt : obj) (k : string) :
  mergedValue baseExt preferredExt k = getField baseExt k
  ∨ mergedValue baseExt preferredExt k = getField preferredExt k.
Proof.
  unfold mergedValue, jsOr.
  repeat case_decide; subst; repeat case_match; auto.
Qed.

(** Every value a record of the result holds is held, under the same
    property name, by one of the records in [inputs]. *)
Local Abbreviation fromInputs inputs l :=
  (∀ (r : obj) (k : string), r ∈ l → getField r k ≠ PUndef →
     ∃ x : obj, x ∈ inputs ∧ (k, getField r k) ∈ x).

Lemma step_fromInputs (inputs : list obj) (isFromListB : bool) (s : state)
    (currentExt : obj) :
  currentExt ∈ inputs →
  fromInputs inputs (finalResult s) →
  fromInputs inputs (finalResult (step isFromListB s currentExt)).
Proof.
  intros Hin Hs.
  assert (∀ r k, r ∈ finalResult s ++ [jsonClone currentExt] →
            getField r k ≠ PUndef → ∃ x, x ∈ inputs ∧ (k, getField r k) ∈ x)
    as Hpush.
  { intros r k [Hr|Hr]%elem_of_app Hv; [by apply Hs|].
    apply list_elem_of_singleton in Hr as ->.
    exists currentExt. split; [done|]. by apply jsonClone_elem, getField_elem. }
  unfold step.
  destruct (matchIndex s _) as [m|]; [|exact Hpush].
  destruct (finalResult s !! m) as [target|] eqn:Hm; [|exact Hpush].
  intros r k Hr Hv. simpl in Hr.
  rewrite insert_take_drop in Hr by by eapply lookup_lt_Some.
  assert (∀ x, x ∈ take m (finalResult s) ∨ x ∈ drop (S m) (finalResult s) →
               x ∈ finalResult s) as Hold.
  { intros x Hx. rewrite <- (take_drop_middle _ m target Hm).
    rewrite elem_of_app, elem_of_cons. tauto. }
  apply elem_of_app in Hr as [Hr|Hr]; [apply Hs; auto|].
  apply elem_of_cons in Hr as [->|Hr]; [|apply Hs; auto].
  rewrite mergeFields_get in Hv |- *.
  assert (∀ v, (v = getField target k ∨ v = getField (jsonClone currentExt) k) →
               v ≠ PUndef → ∃ x, x ∈ inputs ∧ (k, v) ∈ x) as Heither.
  { intros v [->| ->] Hne.
    - apply Hs; [by eapply list_elem_of_lookup_2|done].
    - exists currentExt. split; [done|]. by apply jsonClone_elem, getField_elem. }
  apply Heither; [|done].
  destruct isFromListB;
    destruct (mergedValue_cases target (jsonClone currentExt) k);
    destruct (mergedValue_cases (jsonClone currentExt) target k); auto.
Qed.

Lemma fold_step_fromInputs (inputs : list obj) (isFromListB : bool) (l : list obj) :
  ∀ s, l ⊆ inputs →
    fromInputs inputs (finalResult s) →
    fromInputs inputs (finalResult (fold_left (step isFromListB) l s)).
Proof.
  induction l as [|c l IH]; intros s Hl Hs; [done|].
  simpl. apply IH; [set_solver|]. apply step_fromInputs; [set_solver|done].
Qed.

(** X15: the record merge invents no value.  Whatever a record of the merged
    list holds under a property name, some record of the base or of the
    incoming list holds under that name. *)
Theorem mergeRecords_values_from_inputs (base incoming : list obj)
    (r : obj) (k : string) :
  r ∈ mergeRecords base incoming → getField r k ≠ PUndef →
  ∃ x, x ∈ base ++ incoming ∧ (k, getField r k) ∈ x.
Proof.
  rewrite mergeRecords_run. unfold run.
  apply fold_step_fromInputs; [set_solver|].
  apply fold_step_fromInputs; [set_solver|].
  intros r' k' Hr'. by apply elem_of_nil in Hr'.
Qed.

Lemma mergeRecords_values_from_inputs_witness :
  let base := [[("id", PStr "a"); ("name", PStr "Old"); ("version", PStr "1")]] in
  let incoming := [[("id", PStr "a"); ("name", PStr "New")]] in
  let r := [("id", PStr "a"); ("name", PStr "New"); ("version", PStr "1");
            ("homepageUrl", PUndef); ("updateUrl", PUndef)] in
  r ∈ mergeRecords base incoming
  ∧ getField r "name" ≠ PUndef
  ∧ ∃ x, x ∈ base ++ incoming ∧ ("name", getField r "name") ∈ x.
Proof.
  intros base incoming r.
  assert (r ∈ mergeRecords base incoming) as Hr.
  { change (mergeRecords base incoming) with [r]. apply list_elem_of_here. }
  assert (getField r "name" ≠ PUndef) as Hv by discriminate.
  split; [exact Hr|]. split; [exact Hv|].
  apply (mergeRecords_values_from_inputs base incoming r "name" Hr Hv).
Defined.

End RecordValues.

(** ** Searching the bookmark tree *)

Section SearchResults.

Import Bookmarks Tagging Backup Searching.

Variable toLowerCase : string → string.

Local Abbreviation filterNode := (Searching.filterNode toLowerCase).
Local Abbreviation filterBookmarkNodes := (Searching.filterBookmarkNodes toLowerCase).
Local Abbreviation matches := (Searching.matches toLowerCase).
Local Abbreviation found := (Searching.found toLowerCase).

Lemma filterNode_eq (term : string) (n : node) :
  filterNode term n =
    if present (url n) then
      title ← title n;
      Some (if includes (toLowerCase title) term
               || includes (toLowerCase (default "" (url n))) term
            then Some n else None)
    else
      match children n with
      | Some ch =>
          filteredChildren ← filterBookmarkNodes ch term;
          title ← title n;
          if includes (toLowerCase title) term
             || existsb (λ child, true) filteredChildren
          then Some (Some (withChildren n
                             (Some (filter (λ child, True) filteredChildren))))
          else Some None
      | None => Some None
      end.
Proof. by destruct n as [i t u d [ch|] o]. Qed.

Lemma found_eq (term : string) (n : node) :
  found term n ↔
    if present (url n) then matches term n = true
    else match children n with
         | Some ch =>
             (includes (toLowerCase (default "" (title n))) term = true ∨ ch ≠ [])
             ∧ Forall (found term) ch
         | None => False
         end.
Proof.
  destruct n as [i t u d [ch|] o]; simpl; [|done].
  destruct (present u); [done|].
  assert ((fix all (l : list node) : Prop :=
             match l with
             | [] => True
             | x :: l' => found term x ∧ all l'
             end) ch ↔ Forall (found term) ch) as ->; [|done].
  induction ch as [|x ch IH]; [by split|].
  rewrite Forall_cons, IH. done.
Qed.

Lemma filter_all {A} (l : list A) : filter (λ _, True) l = l.
Proof.
  induction l as [|x l IH]; [done|]. by rewrite filter_cons_True, IH.
Qed.

Lemma existsb_any {A} (l : list A) : existsb (λ _, true) l = true ↔ l ≠ [].
Proof. by destruct l. Qed.

Lemma filterBookmarkNodes_cons (term : string) (n : node) (l : list node) :
  filterBookmarkNodes (n :: l) term =
    r ← filterNode term n; rs ← filterBookmarkNodes l term;
    Some (option_list r ++ rs).
Proof.
  unfold Searching.filterBookmarkNodes. simpl.
  destruct (filterNode term n) as [[r|]|]; simpl; [| |done];
    by destruct (mapM _ l).
Qed.

Lemma filterBookmarkNodes_idempotent_from (term : string) (l : list node) :
  Forall (λ n, ∀ r, filterNode term n = Some (Some r) →
                    filterNode term r = Some (Some r)) l →
  ∀ fc, filterBookmarkNodes l term = Some fc →
        filterBookmarkNodes fc term = Some fc.
Proof.
  induction 1 as [|n l Hn _ IH]; intros fc Hfc.
  - by injection Hfc as <-.
  - rewrite filterBookmarkNodes_cons in Hfc.
    destruct (filterNode term n) as [[r|]|] eqn:Hr; simplify_eq/=.
    + destruct (filterBookmarkNodes l term) as [rs|] eqn:Hrs; simplify_eq/=.
      rewrite filterBookmarkNodes_cons, (Hn r), (IH rs) by done. done.
    + destruct (filterBookmarkNodes l term) as [rs|] eqn:Hrs; simplify_eq/=.
      by apply IH.
Qed.

Lemma filterNode_idempotent (term : string) (n : node) :
  ∀ r, filterNode term n = Some (Some r) → filterNode term r = Some (Some r).
Proof.
  induction n as [i t u d o|i t u d c o IH] using node_ind; intros r Hr.
  - rewrite filterNode_eq in Hr. simpl in Hr.
    destruct (present u) eqn:Hu; [|done].
    destruct t as [tt|]; [|done]. simpl in Hr.
    destruct (_ || _) eqn:Hm; simplify_eq.
    rewrite filterNode_eq. simpl. by rewrite Hu, Hm.
  - rewrite filterNode_eq in Hr. simpl in Hr.
    destruct (present u) eqn:Hu.
    + destruct t as [tt|]; [|done]. simpl in Hr.
      destruct (_ || _) eqn:Hm; simplify_eq.
      rewrite filterNode_eq. simpl. by rewrite Hu, Hm.
    + destruct (filterBookmarkNodes c term) as [fc|] eqn:Hfc; [|done].
      destruct t as [tt|]; [|done]. simpl in Hr.
      destruct (_ || _) eqn:Hm; simplify_eq.
      rewrite filterNode_eq. unfold withChildren. simpl.
      rewrite Hu, filter_all.
      rewrite (filterBookmarkNodes_idempotent_from term c IH fc Hfc). simpl.
      by rewrite Hm, filter_all.
Qed.

(** X16: searching a search result again, for the same term, changes
    nothing. *)
Theorem filterBookmarkNodes_idempotent (nodes result : list node) (term : string) :
  filterBookmarkNodes nodes term = Some result →
  filterBookmarkNodes result term = Some result.
Proof.
  apply filterBookmarkNodes_idempotent_from, Forall_forall.
  intros n _. apply filterNode_idempotent.
Qed.

Lemma filterBookmarkNodes_found_from (term : string) (l : list node) :
  Forall (λ n, ∀ r, filterNode term n = Some (Some r) → found term r) l →
  ∀ fc, filterBookmarkNodes l term = Some fc → Forall (found term) fc.
Proof.
  induction 1 as [|n l Hn _ IH]; intros fc Hfc.
  - by injection Hfc as <-.
  - rewrite filterBookmarkNodes_cons in Hfc.
    destruct (filterNode term n) as [[r|]|] eqn:Hr; simplify_eq/=;
      destruct (filterBookmarkNodes l term) as [rs|] eqn:Hrs; simplify_eq/=;
      [constructor|]; eauto.
Qed.

Lemma filterNode_found (term : string) (n : node) :
  ∀ r, filterNode term n = Some (Some r) → found term r.
Proof.
  induction n as [i t u d o|i t u d c o IH] using node_ind; intros r Hr.
  - rewrite filterNode_eq in Hr. simpl in Hr.
    destruct (present u) eqn:Hu; [|done].
    destruct t as [tt|]; [|done]. simpl in Hr.
    destruct (_ || _) eqn:Hm; simplify_eq.
    apply found_eq. simpl. by rewrite Hu.
  - rewrite filterNode_eq in Hr. simpl in Hr.
    destruct (present u) eqn:Hu.
    + destruct t as [tt|]; [|done]. simpl in Hr.
      destruct (_ || _) eqn:Hm; simplify_eq.
      apply found_eq. simpl. by rewrite Hu.
    + destruct (filterBookmarkNodes c term) as [fc|] eqn:Hfc; [|done].
      destruct t as [tt|]; [|done]. simpl in Hr.
      destruct (_ || _) eqn:Hm; simplify_eq.
      apply found_eq. unfold withChildren. simpl. rewrite Hu, filter_all.
      split; [|by eapply filterBookmarkNodes_found_from].
      apply orb_true_iff in Hm as [Hm|Hm]; [by left|right].
      by apply existsb_any.
Qed.

Lemma filterBookmarkNodes_elem (term : string) (l : list node) :
  ∀ fc r, filterBookmarkNodes l term = Some fc →
    r ∈ fc ↔ ∃ n, n ∈ l ∧ filterNode term n = Some (Some r).
Proof.
  induction l as [|n l IH]; intros fc r Hfc.
  - injection Hfc as <-. set_solver.
  - rewrite filterBookmarkNodes_cons in Hfc.
    destruct (filterNode term n) as [ro|] eqn:Hr; simplify_eq/=.
    destruct (filterBookmarkNodes l term) as [rs|] eqn:Hrs; simplify_eq/=.
    rewrite elem_of_app, (IH rs r eq_refl).
    setoid_rewrite elem_of_cons.
    destruct ro as [r'|]; simpl.
    + rewrite list_elem_of_singleton. naive_solver.
    + rewrite elem_of_nil. naive_solver.
Qed.

Lemma filterNode_bookmark (term : string) (n : node) :
  present (url n) = true →
  ∀ ro, filterNode term n = Some ro →
        ro = if matches term n then Some n else None.
Proof.
  intros Hu ro. rewrite filterNode_eq, Hu. unfold Searching.matches.
  destruct (title n) as [tt|]; [|done]. simpl. congruence.
Qed.

Lemma filterNode_url (term : string) (n r : node) :
  filterNode term n = Some (Some r) → url r = url n.
Proof.
  rewrite filterNode_eq.
  destruct (present (url n)).
  - destruct (title n); [|done]. simpl. destruct (_ || _); congruence.
  - destruct (children n) as [ch|]; [|done].
    destruct (filterBookmarkNodes ch term); [|done].
    destruct (title n); [|done]. simpl.
    destruct (_ || _); [|done]. intros [= <-]. by destruct n.
Qed.

(** X17: what a search returns.  Every node of the result, at every depth,
    is a bookmark whose lower-cased title or url includes the term, or a
    folder whose lower-cased title includes the term or which has kept at
    least one child; and a top-level bookmark is in the result exactly when
    it is in the searched list and matches. *)
Theorem filterBookmarkNodes_sound (nodes result : list node) (term : string) :
  filterBookmarkNodes nodes term = Some result →
  Forall (found term) result
  ∧ ∀ n, present (url n) = true →
         (n ∈ result ↔ n ∈ nodes ∧ matches term n = true).
Proof.
  intros Hr. split.
  - eapply filterBookmarkNodes_found_from; [|done].
    apply Forall_forall. intros n _. apply filterNode_found.
  - intros n Hu. rewrite (filterBookmarkNodes_elem term nodes result n Hr). split.
    + intros (x & Hx & Hxn).
      assert (present (url x) = true) as Hux
        by (by rewrite <- (filterNode_url term x n Hxn)).
      apply (filterNode_bookmark term x Hux) in Hxn.
      destruct (matches term x) eqn:Hm; by simplify_eq.
    + intros [Hn Hm]. exists n. split; [done|].
      assert (∃ ro, filterNode term n = Some ro) as [ro Hro].
      { unfold Searching.filterBookmarkNodes in Hr.
        destruct (mapM _ nodes) as [ys|] eqn:Hys; [|done].
        apply mapM_Some in Hys.
        apply list_elem_of_lookup_1 in Hn as [i Hi].
        destruct (Forall2_lookup_l _ _ _ _ _ Hys Hi) as (y & _ & Hy). by exists y. }
      rewrite Hro. f_equal.
      apply (filterNode_bookmark term n Hu) in Hro. by rewrite Hm in Hro.
Qed.

Lemma flattened_nodesOf (n : node) :
  flattenBookmarks [n] [] =
    (if present (url n) then [entryOf n] else [])
    ++ match children n with
       | Some ch => flattenBookmarks ch []
       | None => []
       end.
Proof.
  rewrite flattened_entries.
  unfold allNodes. simpl. rewrite app_nil_r, nodesOf_eq.
  rewrite filter_cons. simpl.
  destruct (children n) as [ch|]; [rewrite flattened_entries|];
    simpl; case_decide as Hu; rewrite ?Hu; simpl; try done;
    by destruct (present (url n)).
Qed.

Lemma flattened_cons (n : node) (l : list node) :
  flattenBookmarks (n :: l) [] = flattenBookmarks [n] [] ++ flattenBookmarks l [].
Proof.
  rewrite !flattened_entries.
  rewrite (allNodes_cons n l), (allNodes_cons n []).
  unfold allNodes at 3. simpl. by rewrite app_nil_r, filter_app, fmap_app.
Qed.

Lemma filterBookmarkNodes_sublist_from (term : string) (l : list node) :
  Forall (λ n, ∀ ro, filterNode term n = Some ro →
            flattenBookmarks (option_list ro) []
              `sublist_of` flattenBookmarks [n] []) l →
  ∀ fc, filterBookmarkNodes l term = Some fc →
        flattenBookmarks fc [] `sublist_of` flattenBookmarks l [].
Proof.
  induction 1 as [|n l Hn _ IH]; intros fc Hfc.
  - by injection Hfc as <-.
  - rewrite filterBookmarkNodes_cons in Hfc.
    destruct (filterNode term n) as [ro|] eqn:Hr; [|done].
    destruct (filterBookmarkNodes l term) as [rs|] eqn:Hrs; [|done].
    cbn in Hfc. injection Hfc as <-.
    rewrite (flattened_cons n l).
    destruct ro as [r|].
    + change (option_list (Some r) ++ rs) with (r :: rs).
      rewrite (flattened_cons r rs).
      apply sublist_app; [by apply (Hn (Some r))|by apply IH].
    + apply sublist_inserts_l. by apply IH.
Qed.

Lemma filterNode_sublist (term : string) (n : node) :
  ∀ ro, filterNode term n = Some ro →
        flattenBookmarks (option_list ro) [] `sublist_of` flattenBookmarks [n] [].
Proof.
  assert (∀ l : list obj, [] `sublist_of` l) as Hnil by apply sublist_nil_l.
  induction n as [i t u d o|i t u d c o IH] using node_ind; intros ro Hro.
  - rewrite filterNode_eq in Hro. simpl in Hro.
    destruct (present u) eqn:Hu; [|by simplify_eq].
    destruct t as [tt|]; [|done]. simpl in Hro.
    destruct (_ || _); by simplify_eq.
  - rewrite filterNode_eq in Hro. simpl in Hro.
    destruct (present u) eqn:Hu.
    + destruct t as [tt|]; [|done]. simpl in Hro.
      destruct (_ || _); by simplify_eq.
    + destruct (filterBookmarkNodes c term) as [fc|] eqn:Hfc; [|done].
      destruct t as [tt|]; [|done]. simpl in Hro.
      destruct (_ || _); simplify_eq; [|apply Hnil].
      change (option_list (Some ?x)) with [x].
      rewrite !flattened_nodesOf. unfold withChildren. simpl.
      rewrite Hu, filter_all. simpl.
      by apply (filterBookmarkNodes_sublist_from term c IH).
Qed.

(** X18: a search invents no bookmark and keeps the order: the bookmarks of
    the result, flattened as the backup summary flattens them, are a
    subsequence of the bookmarks of the searched forest. *)
Theorem filterBookmarkNodes_subsequence (nodes result : list node) (term : string) :
  filterBookmarkNodes nodes term = Some result →
  flattenBookmarks result [] `sublist_of` flattenBookmarks nodes [].
Proof.
  apply filterBookmarkNodes_sublist_from, Forall_forall.
  intros n _. apply filterNode_sublist.
Qed.

End SearchResults.

Section SearchExamples.

Import Bookmarks Backup Searching.

Lemma filterBookmarkNodes_idempotent_witness :
  let leaf t u := Node None (Some t) (Some u) None None [] in
  let folder t c := Node None (Some t) None None (Some c) [] in
  let nodes := [leaf "news" "http://n";
                folder "work" [leaf "a" "http://a/news"; leaf "b" "http://b"];
                leaf "x" "http://x";
                folder "newsroom" [leaf "c" "http://c"]] in
  let result := [leaf "news" "http://n";
                 folder "work" [leaf "a" "http://a/news"];
                 folder "newsroom" []] in
  filterBookmarkNodes (λ s, s) nodes "news" = Some result
  ∧ filterBookmarkNodes (λ s, s) result "news" = Some result.
Proof.
  intros leaf folder nodes result.
  assert (filterBookmarkNodes (λ s, s) nodes "news" = Some result) as Hr
    by reflexivity.
  split; [exact Hr|].
  apply (filterBookmarkNodes_idempotent (λ s, s) nodes result "news" Hr).
Defined.

Lemma filterBookmarkNodes_sound_witness :
  let leaf t u := Node None (Some t) (Some u) None None [] in
  let folder t c := Node None (Some t) None None (Some c) [] in
  let nodes := [leaf "news" "http://n";
                folder "work" [leaf "a" "http://a/news"; leaf "b" "http://b"];
                leaf "x" "http://x"] in
  let result := [leaf "news" "http://n";
                 folder "work" [leaf "a" "http://a/news"]] in
  filterBookmarkNodes (λ s, s) nodes "news" = Some result
  ∧ Forall (found (λ s, s) "news") result.
Proof.
  intros leaf folder nodes result.
  assert (filterBookmarkNodes (λ s, s) nodes "news" = Some result) as Hr
    by reflexivity.
  split; [exact Hr|].
  apply (filterBookmarkNodes_sound (λ s, s) nodes result "news" Hr).
Defined.

Lemma filterBookmarkNodes_subsequence_witness :
  let leaf i t u := Node (Some i) (Some t) (Some u) None None [] in
  let folder t c := Node None (Some t) None None (Some c) [] in
  let nodes := [leaf "1" "news" "http://n";
                folder "work" [leaf "2" "a" "http://a/news"; leaf "3" "b" "http://b"];
                leaf "4" "x" "http://x"] in
  let result := [leaf "1" "news" "http://n";
                 folder "work" [leaf "2" "a" "http://a/news"]] in
  filterBookmarkNodes (λ s, s) nodes "news" = Some result
  ∧ flattenBookmarks result [] `sublist_of` flattenBookmarks nodes [].
Proof.
  intros leaf folder nodes result.
  assert (filterBookmarkNodes (λ s, s) nodes "news" = Some result) as Hr
    by reflexivity.
  split; [exact Hr|].
  apply (filterBookmarkNodes_subsequence (λ s, s) nodes result "news" Hr).
Defined.

End SearchExamples.

(** ** Removing an extension from the stored list *)

Section StoredList.

Import Records Stored.

Lemma withoutId_filter (extensionId : prim) (l kept : list elem) :
  withoutId extensionId l = Some kept →
  kept = filter (λ ext, idOf ext ≠ Some extensionId) l
  ∧ Forall (λ ext, is_Some (idOf ext)) l.
Proof.
  revert kept. induction l as [|ext l IH]; intros kept Hk; simpl in Hk.
  - by injection Hk as <-.
  - destruct (idOf ext) as [id|] eqn:Hid; [|done]. simpl in Hk.
    destruct (withoutId extensionId l) as [kept'|]; [|done]. simpl in Hk.
    destruct (IH kept' eq_refl) as [-> Hall].
    split; [|by constructor].
    rewrite filter_cons.
    destruct (strictEq id extensionId) eqn:E; simplify_eq.
    + apply strictEq_true in E as ->. by rewrite decide_False by naive_solver.
    + apply strictEq_false in E. rewrite decide_True by congruence. done.
Qed.

Lemma withoutId_total (extensionId : prim) (l : list elem) :
  Forall (λ ext, is_Some (idOf ext)) l → is_Some (withoutId extensionId l).
Proof.
  induction 1 as [|ext l [id Hid] _ [kept IH]]; simpl; [done|].
  rewrite Hid, IH. simpl. by eexists.
Qed.

Lemma filter_length_eq {A} (P : A → Prop) `{!∀ x, Decision (P x)} (l : list A) :
  length (filter P l) = length l ↔ Forall P l.
Proof.
  induction l as [|x l IH]; [by split|].
  rewrite filter_cons, Forall_cons. pose proof (length_filter P l).
  case_decide; simpl; [rewrite <- IH|]; split; try lia; naive_solver lia.
Qed.

Lemma filter_Forall_id {A} (P : A → Prop) `{!∀ x, Decision (P x)} (l : list A) :
  Forall P l → filter P l = l.
Proof.
  induction 1 as [|x l Hx _ IH]; [done|]. by rewrite filter_cons_True, IH.
Qed.

(** X19: removing an extension from the stored list.  On a stored list [l],
    the promise resolves to [true] exactly when some element of [l] has the
    given id; the storage then holds the snapshot with the elements of the
    other ids, in their order, and is left as it was otherwise. *)
Theorem removeExtensionFromList_result (importedData : snapshot) (l : list elem)
    (extensionId : prim) (storage' : option snapshot) (removed : bool) :
  extensions importedData = JArray l →
  removeExtensionFromList (Some importedData) extensionId = Some (storage', removed) →
  (removed = true ↔ ∃ ext, ext ∈ l ∧ idOf ext = Some extensionId)
  ∧ storage' =
      (if removed
       then Some (withExtensions importedData
                    (filter (λ ext, idOf ext ≠ Some extensionId) l))
       else Some importedData).
Proof.
  intros Hl Hr. unfold removeExtensionFromList in Hr. rewrite Hl in Hr.
  destruct (withoutId extensionId l) as [kept|] eqn:Hk; [|done]. simpl in Hr.
  apply withoutId_filter in Hk as [-> _].
  destruct (_ =? _)%nat eqn:E; simplify_eq.
  - apply Nat.eqb_eq, filter_length_eq in E. split; [|done].
    split; [done|]. intros (ext & Hext & Hid).
    by eapply Forall_forall in E.
  - apply Nat.eqb_neq in E. split; [|done]. split; [intros _|done].
    rewrite filter_length_eq in E. apply not_Forall_Exists in E; [|apply _].
    apply Exists_exists in E as (ext & Hext & Hid).
    exists ext. split; [done|]. by destruct (decide (idOf ext = Some extensionId)).
Qed.

(** X20: removing the same extension a second time resolves to [false] and
    leaves the storage as the first removal left it. *)
Theorem removeExtensionFromList_twice (storage storage' : option snapshot)
    (extensionId : prim) (removed : bool) :
  removeExtensionFromList storage extensionId = Some (storage', removed) →
  removeExtensionFromList storage' extensionId = Some (storage', false).
Proof.
  intros Hr. unfold removeExtensionFromList in Hr.
  destruct storage as [importedData|]; [|by simplify_eq].
  destruct (extensions importedData) as [p|o|l] eqn:Hl;
    [simplify_eq; simpl; by rewrite Hl..|].
  destruct (withoutId extensionId l) as [kept|] eqn:Hk; [|done]. simpl in Hr.
  destruct (_ =? _)%nat eqn:E; simplify_eq.
  - unfold removeExtensionFromList. rewrite Hl, Hk. simpl. by rewrite E.
  - unfold removeExtensionFromList. simpl.
    apply withoutId_filter in Hk as [-> Hall].
    destruct (withoutId_total extensionId
                (filter (λ ext, idOf ext ≠ Some extensionId) l)) as [kept Hk].
    { apply Forall_forall. intros ext [_ Hext]%list_elem_of_filter.
      by eapply Forall_forall in Hall. }
    rewrite Hk. simpl.
    apply withoutId_filter in Hk as [-> _].
    rewrite list_filter_filter, (list_filter_iff _ (λ ext, idOf ext ≠ Some extensionId))
      by tauto.
    by rewrite Nat.eqb_refl.
Qed.

Lemma removeExtensionFromList_result_witness :
  let a := EObj [("id", PStr "a"); ("name", PStr "A")] in
  let b := EObj [("id", PStr "b"); ("name", PStr "B")] in
  let importedData :=
    Snapshot (PNum 1) (PStr "2024-01-01") (PStr "Chrome") (JArray [a; b; a])
             (JArray []) in
  extensions importedData = JArray [a; b; a]
  ∧ removeExtensionFromList (Some importedData) (PStr "a")
    = Some (Some (withExtensions importedData [b]), true)
  ∧ ∃ ext, ext ∈ [a; b; a] ∧ idOf ext = Some (PStr "a").
Proof.
  intros a b importedData.
  split; [reflexivity|]. split; [reflexivity|].
  apply (removeExtensionFromList_result importedData [a; b; a] (PStr "a")
           (Some (withExtensions importedData [b])) true);
    reflexivity.
Defined.

Lemma removeExtensionFromList_twice_witness :
  let a := EObj [("id", PStr "a"); ("name", PStr "A")] in
  let b := EObj [("id", PStr "b"); ("name", PStr "B")] in
  let importedData :=
    Snapshot (PNum 1) (PStr "2024-01-01") (PStr "Chrome") (JArray [a; b])
             (JArray []) in
  let storage' := Some (withExtensions importedData [b]) in
  removeExtensionFromList (Some importedData) (PStr "a") = Some (storage', true)
  ∧ removeExtensionFromList storage' (PStr "a") = Some (storage', false).
Proof.
  intros a b importedData storage'.
  split; [reflexivity|].
  apply (removeExtensionFromList_twice (Some importedData) storage' (PStr "a") true).
  reflexivity.
Defined.

End StoredList.

(** ** What the Netscape exports depend on *)

Section NetscapeExport.

Import Bookmarks Tagging Html Netscape.

Lemma nodeToHtml_dated (now1 now2 : Z) (n : node) :
  Forall (λ n, ∃ d, dateAdded n = Some d ∧ d ≠ 0%Z) (nodesOf n) →
  ∀ depth, nodeToHtml now1 depth n = nodeToHtml now2 depth n.
Proof.
  induction n as [i t u d o|i t u d c o IH] using node_ind; intros Hd depth.
  - rewrite nodesOf_eq in Hd. apply Forall_cons in Hd as [(d' & Hd' & Hnz) _].
    simpl in *. subst d. unfold addDateOf.
    by rewrite (proj2 (Z.eqb_neq d' 0) Hnz).
  - rewrite nodesOf_eq in Hd. apply Forall_cons in Hd as [(d' & Hd' & Hnz) Hc].
    simpl in *. subst d. unfold addDateOf.
    rewrite (proj2 (Z.eqb_neq d' 0) Hnz).
    destruct (present u); [done|]. destruct (present t); [|done].
    do 2 f_equal.
    change (mjoin (nodesOf <$> c)) with (allNodes c) in Hc.
    induction IH as [|x c Hx _ IHc]; [done|].
    rewrite allNodes_cons in Hc. apply Forall_app in Hc as [Hc1 Hc2].
    simpl. f_equal; [by apply Hx|by apply IHc].
Qed.

Lemma lines_dated (now1 now2 : Z) (nodes : list node) (depth : nat) :
  allDated nodes →
  map (nodeToHtml now1 depth) nodes = map (nodeToHtml now2 depth) nodes.
Proof.
  unfold allDated. intros Hd.
  induction nodes as [|n nodes IH]; [done|].
  rewrite allNodes_cons in Hd. apply Forall_app in Hd as [Hd1 Hd2].
  simpl. f_equal; [by apply nodeToHtml_dated|by apply IH].
Qed.

(** X21: the clock only fills in missing dates.  For a forest whose nodes
    all have a non-zero [dateAdded], the exported text is the same whatever
    the time of the export. *)
Theorem export_of_dated_forest_ignores_clock (now1 now2 : Z) (nodes : list node)
    (depth : nat) :
  allDated nodes →
  bookmarksToHtml now1 nodes depth = bookmarksToHtml now2 nodes depth.
Proof.
  intros Hd. unfold bookmarksToHtml. by rewrite (lines_dated now1 now2).
Qed.

Lemma export_of_dated_forest_ignores_clock_witness :
  let leaf t u d := Node None (Some t) (Some u) (Some d) None [] in
  let nodes := [Node None (Some "Work") None (Some 1700000000000%Z)
                  (Some [leaf "A" "http://a" 1700000001000%Z]) [];
                leaf "B" "http://b" 5%Z] in
  allDated nodes
  ∧ bookmarksToHtml 0 nodes 1 = bookmarksToHtml 1800000000000 nodes 1.
Proof.
  intros leaf nodes.
  assert (allDated nodes) as Hd.
  { unfold allDated. simpl.
    repeat (apply Forall_cons; split; [by eexists|]). apply Forall_nil_2. }
  split; [exact Hd|].
  apply (export_of_dated_forest_ignores_clock 0 1800000000000 nodes 1 Hd).
Defined.

Lemma replaceAll_same (c : ascii) (s : string) : replaceAll c (String c "") s = s.
Proof.
  induction s as [|a s IH]; [done|]. simpl.
  destruct (Ascii.eqb a c) eqn:E; [|by rewrite IH].
  apply Ascii.eqb_eq in E as ->. simpl. by rewrite IH.
Qed.

(** X22: the extension export does not escape names.  The three
    replacements of [exportExtensionsAsBookmarks] each put back the
    character they look for, so the bookmark of an extension carries its
    name character for character, markup included, where the bookmark
    export writes entities. *)
Theorem extension_names_are_not_escaped (now : Z) (ext : obj) (name : string) :
  getField ext "name" = PStr name → name ≠ "" →
  extensionLine now ext
  = Some (bookmarkLine "    " (templateOf (getField ext "homepageUrl"))
            (now / 1000)%Z name).
Proof.
  intros Hname Hne. unfold extensionLine, extensionTitle. rewrite Hname. simpl.
  rewrite (proj2 (String.eqb_neq name "") Hne). simpl.
  by rewrite !replaceAll_same.
Qed.

Lemma extension_names_are_not_escaped_witness :
  let ext := [("id", PStr "a"); ("name", PStr "<b>Dark & Light</b>");
              ("homepageUrl", PStr "http://a")] in
  getField ext "name" = PStr "<b>Dark & Light</b>"
  ∧ "<b>Dark & Light</b>" ≠ ""
  ∧ extensionLine 5000 ext
    = Some (bookmarkLine "    " "http://a" 5 "<b>Dark & Light</b>")
  ∧ escapeTitle "<b>Dark & Light</b>" = "&lt;b&gt;Dark &amp; Light&lt;/b&gt;".
Proof.
  intros ext. split; [reflexivity|]. split; [discriminate|].
  split; [|reflexivity].
  apply (extension_names_are_not_escaped 5000 ext "<b>Dark & Light</b>");
    [reflexivity|discriminate].
Defined.

Lemma emptyManaged_tagged (b : string) (n : node) :
  emptyManaged (addBrowserToNode b n) = emptyManaged n.
Proof.
  rewrite addBrowserToNode_eq. unfold emptyManaged. simpl.
  by destruct (children n) as [[|x ch]|].
Qed.

Lemma exported_tagged (b : string) (ch : list node) :
  filter (λ n, emptyManaged n = false) (addBrowserToNode b <$> ch)
  = addBrowserToNode b <$> filter (λ n, emptyManaged n = false) ch.
Proof.
  induction ch as [|n ch IH]; [done|].
  rewrite fmap_cons, !filter_cons, emptyManaged_tagged, IH.
  by case_decide.
Qed.

Lemma allDated_filter (P : node → Prop) `{!∀ n, Decision (P n)} (l : list node) :
  allDated l → allDated (filter P l).
Proof.
  unfold allDated. induction l as [|n l IH]; [done|].
  rewrite allNodes_cons, Forall_app. intros [Hn Hl].
  rewrite filter_cons. case_decide; [|by apply IH].
  rewrite allNodes_cons, Forall_app. split; [done|by apply IH].
Qed.

(** X23: what the exported bookmark file is made from.  When the first
    stored top-level node has children, the file is made from those children
    alone: the top-level nodes after the first are not exported, nor is
    anything of the first node itself, and browser tags do not show, whatever
    the forest; and when all nodes below the first are dated, the time of
    the export does not show either. *)
Theorem exportBookmarksAsHtml_first_root (root root' : node)
    (rest rest' children1 : list node) (b : string) :
  children root = Some children1 →
  children root' = Some (addBrowserToNode b <$> children1) →
  (∀ now : Z,
     exportBookmarksAsHtml now (JArray (root :: rest))
     = exportBookmarksAsHtml now (JArray (root' :: rest')))
  ∧ (allDated children1 →
     ∀ now1 now2 : Z,
       exportBookmarksAsHtml now1 (JArray (root :: rest))
       = exportBookmarksAsHtml now2 (JArray (root' :: rest'))).
Proof.
  intros Hc Hc'.
  assert (∀ now : Z,
            exportBookmarksAsHtml now (JArray (root :: rest))
            = exportBookmarksAsHtml now (JArray (root' :: rest'))) as Hsame.
  { intros now. unfold exportBookmarksAsHtml, exportedNodes. simpl.
    rewrite Hc, Hc', exported_tagged. unfold bookmarksToHtml.
    by rewrite lines_tagged. }
  split; [exact Hsame|].
  intros Hd now1 now2. rewrite <- (Hsame now2).
  unfold exportBookmarksAsHtml, exportedNodes. simpl.
  rewrite Hc. unfold bookmarksToHtml.
  by rewrite (lines_dated now1 now2) by by apply allDated_filter.
Qed.

Lemma exportBookmarksAsHtml_first_root_witness :
  let leaf t u := Node None (Some t) (Some u) (Some 1700000000000%Z) None [] in
  let undated := Node None (Some "U") (Some "http://u") None None [] in
  let bar := [leaf "A" "http://a";
              Node None (Some "Managed bookmarks") None (Some 1%Z) (Some []) []] in
  let root := Node (Some "0") (Some "") None None (Some bar) [] in
  let root' := Node (Some "9") (Some "root") None (Some 3%Z)
                 (Some (addBrowserToNode "chrome" <$> bar)) [] in
  let plain := Node (Some "0") None None None (Some [undated]) [] in
  let tagged := Node (Some "1") (Some "r") None None
                  (Some (addBrowserToNode "edge" <$> [undated])) [] in
  children root = Some bar
  ∧ children root' = Some (addBrowserToNode "chrome" <$> bar)
  ∧ allDated bar
  ∧ exportBookmarksAsHtml 0 (JArray [root; leaf "Lost" "http://lost"])
    = exportBookmarksAsHtml 1800000000000 (JArray [root'])
  ∧ exportBookmarksAsHtml 0 (JArray [root; leaf "Lost" "http://lost"])
    = header "Bookmarks"
      +:+ bookmarkLine "  " "http://a" 1700000000 "A" +:+ newline +:+ footer
  ∧ exportBookmarksAsHtml 5000 (JArray [plain; leaf "Lost" "http://lost"])
    = exportBookmarksAsHtml 5000 (JArray [tagged])
  ∧ exportBookmarksAsHtml 5000 (JArray [plain])
    = header "Bookmarks"
      +:+ bookmarkLine "  " "http://u" 5 "U" +:+ newline +:+ footer.
Proof.
  intros leaf undated bar root root' plain tagged.
  assert (allDated bar) as Hd.
  { unfold allDated. simpl.
    repeat (apply Forall_cons; split; [by eexists|]). apply Forall_nil_2. }
  split; [reflexivity|]. split; [reflexivity|]. split; [exact Hd|].
  split; [|split; [by vm_compute|split; [|by vm_compute]]].
  - destruct (exportBookmarksAsHtml_first_root root root'
                [leaf "Lost" "http://lost"] [] bar "chrome" eq_refl eq_refl)
      as [_ H].
    exact (H Hd 0%Z 1800000000000%Z).
  - destruct (exportBookmarksAsHtml_first_root plain tagged
                [leaf "Lost" "http://lost"] [] [undated] "edge" eq_refl eq_refl)
      as [H _].
    exact (H 5000%Z).
Defined.

End NetscapeExport.

(** ** The store a link leads to *)

Section StoreLinkProperties.

Import Netscape StoreLinks.

Variable encodeURIComponent : prim → string.

Local Abbreviation getStoreUrl := (StoreLinks.getStoreUrl encodeURIComponent).

(** X24: the store a link leads to.  In Edge every link is to the Edge
    add-ons site; in Chrome every link is to a Chrome store, as a search
    when the extension came from the Edge store; in any other browser the
    link is the detail page of the store the extension came from, or a
    Chrome store search when that store is not known.  A detail page is
    only ever linked for the store named by the [updateUrl]. *)
Theorem getStoreUrl_by_browser (extension : obj) (browser : prim) (link : string) :
  getStoreUrl extension browser = Some link →
  ∃ sourceStore,
    sourceStoreOf (getField extension "updateUrl") = Some sourceStore
    ∧ (browser = PStr "Edge" →
         link = (if bool_decide (sourceStore = Some EdgeStore)
                 then edgeDetail +:+ templateOf (getField extension "id")
                 else edgeSearch +:+ encodeURIComponent (getField extension "name")))
    ∧ (browser = PStr "Chrome" →
         link = (if bool_decide (sourceStore = Some ChromeStore)
                 then chromeDetail +:+ templateOf (getField extension "id")
                 else chromeSearch +:+ encodeURIComponent (getField extension "name")))
    ∧ (browser ≠ PStr "Edge" → browser ≠ PStr "Chrome" →
         link = match sourceStore with
                | Some EdgeStore => edgeDetail +:+ templateOf (getField extension "id")
                | Some ChromeStore => chromeDetail +:+ templateOf (getField extension "id")
                | None => chromeSearch +:+ encodeURIComponent (getField extension "name")
                end).
Proof.
  unfold StoreLinks.getStoreUrl. intros Hlink.
  destruct (sourceStoreOf _) as [sourceStore|]; [|done]. simpl in Hlink.
  exists sourceStore. split; [done|].
  injection Hlink as <-. unfold strictEq.
  split_and!; [intros ->|intros ->|intros ??];
    destruct sourceStore as [[]|]; simpl;
    repeat case_bool_decide; simplify_eq/=; done.
Qed.

End StoreLinkProperties.

Section StoreLinkExamples.

Import Netscape StoreLinks.

Lemma getStoreUrl_by_browser_witness :
  let extension :=
    [("id", PStr "abcdefgh"); ("name", PStr "Dark");
     ("updateUrl", PStr "https://clients2.google.com/service/update2/crx")] in
  getStoreUrl templateOf extension (PStr "Edge")
    = Some "https://microsoftedge.microsoft.com/addons/search/Dark"
  ∧ getStoreUrl templateOf extension (PStr "Chrome")
    = Some "https://chrome.google.com/webstore/detail/abcdefgh"
  ∧ ∃ sourceStore,
      sourceStoreOf (getField extension "updateUrl") = Some sourceStore
      ∧ sourceStore = Some ChromeStore.
Proof.
  intros extension.
  assert (getStoreUrl templateOf extension (PStr "Edge")
          = Some "https://microsoftedge.microsoft.com/addons/search/Dark") as Hl
    by reflexivity.
  split; [exact Hl|]. split; [reflexivity|].
  destruct (getStoreUrl_by_browser templateOf extension (PStr "Edge") _ Hl)
    as (sourceStore & Hs & _).
  exists sourceStore. split; [exact Hs|].
  change (sourceStoreOf (getField extension "updateUrl"))
    with (Some (Some ChromeStore)) in Hs.
  congruence.
Defined.

End StoreLinkExamples.

(** ** The browser the extension runs in *)

Section BrowserDetection.

Import Searching Detection.

Lemma prefix_app_l (p q s : string) :
  String.prefix (p +:+ q) s = true → String.prefix p s = true.
Proof.
  revert s. induction p as [|a p IH]; intros [|b s]; simpl; try done.
  destruct (ascii_dec a b); [apply IH|done].
Qed.

Lemma includes_app_l (s p q : string) :
  includes s (p +:+ q) = true → includes s p = true.
Proof.
  induction s as [|a s IH]; cbn [includes]; rewrite !orb_true_iff.
  - intros [H|H]; [|done]. left. by eapply prefix_app_l.
  - intros [H|H]; [left; by eapply prefix_app_l|right; by apply IH].
Qed.

(** X25: Chromium browsers are never taken for Safari.  A user agent that
    mentions 'Chrome/' is detected as brave, opera, edge or chrome when the
    extension runtime of Chrome is there, and never as safari in any case,
    although every such user agent also mentions 'Safari'. *)
Theorem chromium_is_never_safari (env : environment) (ua : string) :
  userAgent env = Some ua → includes ua "Chrome/" = true →
  DETECTED_BROWSER env ≠ "safari"
  ∧ (chromeRuntimeId env = true →
     DETECTED_BROWSER env ∈ ["brave"; "opera"; "edge"; "chrome"]).
Proof.
  intros Hua Hc. unfold DETECTED_BROWSER. rewrite Hua, Hc.
  assert (includes ua "Chrome" = true) as Hc'
    by (by apply (includes_app_l ua "Chrome" "/")).
  rewrite Hc'.
  assert (ua ≠ "") as Hne by (intros ->; done).
  rewrite (proj2 (String.eqb_neq ua "") Hne). simpl.
  rewrite andb_false_r. split.
  - repeat case_match; done.
  - intros ->. simpl.
    repeat case_match; set_solver.
Qed.

Lemma chromium_is_never_safari_witness :
  let ua := "Mozilla/5.0 (Windows NT 10.0; Win64; x64) AppleWebKit/537.36 (KHTML, like Gecko) Chrome/120.0.0.0 Safari/537.36 Edg/120.0.0.0" in
  let env := Environment (Some ua) true false in
  userAgent env = Some ua
  ∧ includes ua "Chrome/" = true
  ∧ includes ua "Safari" = true
  ∧ DETECTED_BROWSER env = "edge"
  ∧ DETECTED_BROWSER env ≠ "safari".
Proof.
  intros ua env.
  split; [reflexivity|]. split; [by vm_compute|]. split; [by vm_compute|].
  split; [by vm_compute|].
  apply (chromium_is_never_safari env ua); [reflexivity|by vm_compute].
Defined.

End BrowserDetection.
